(** * Outlook mail synchronisation engine: a shallow embedding

    The module [backend/utils/email/outlook.py] is embedded function by
    function.  Python [str] values are sequences of Unicode code points,
    [bytes] values are sequences of bytes, the floating-point arithmetic
    of the progress computations is IEEE binary64, and every call that
    leaves the process (IMAP session, token endpoint, store, logger,
    progress callback, sleep) is an event of the run's trace. *)

From Stdlib Require Import ZArith NArith String Ascii Bool Lia Sorted Permutation List.
From Stdlib Require Import Floats.SpecFloat.
From Stdlib Require Import DecimalString.
Import ListNotations.

Open Scope Z_scope.

(* ================================================================== *)
(** ** Python strings *)
(* ================================================================== *)

(** A Python [str]: its code points. *)
Definition pystr := list N.

(** A Python [bytes] object. *)
Definition bytes := list Byte.byte.

(** Source literals are written as Rocq strings and read as UTF-8. *)
Fixpoint utf8_decode (need : nat) (acc : N) (bs : list N) : list N :=
  match bs with
  | [] => []
  | b :: bs' =>
      match need with
      | O =>
          if (b <? 128)%N then b :: utf8_decode 0 0 bs'
          else if (b <? 224)%N then utf8_decode 1 (b - 192) bs'
          else if (b <? 240)%N then utf8_decode 2 (b - 224) bs'
          else utf8_decode 3 (b - 240) bs'
      | S O => (acc * 64 + (b - 128))%N :: utf8_decode 0 0 bs'
      | S k => utf8_decode k (acc * 64 + (b - 128))%N bs'
      end
  end.

Definition u (s : string) : pystr :=
  utf8_decode 0 0 (map Byte.to_N (list_byte_of_string s)).

Definition b (s : string) : bytes := list_byte_of_string s.

Fixpoint pystr_eqb (x y : pystr) : bool :=
  match x, y with
  | [], [] => true
  | a :: x', c :: y' => (a =? c)%N && pystr_eqb x' y'
  | _, _ => false
  end.

(** Truth value of a [str]: non-empty. *)
Definition truthy {A : Type} (s : list A) : bool :=
  match s with [] => false | _ :: _ => true end.

(** [str.isspace] on one code point (the Unicode white-space table of
    CPython). *)
Definition isspace (c : N) : bool :=
  ((9 <=? c) && (c <=? 13) || (28 <=? c) && (c <=? 32)
   || (c =? 133) || (c =? 160) || (c =? 5760)
   || (8192 <=? c) && (c <=? 8202)
   || (c =? 8232) || (c =? 8233) || (c =? 8239) || (c =? 8287)
   || (c =? 12288))%N.

Fixpoint lstrip (s : pystr) : pystr :=
  match s with
  | [] => []
  | c :: s' => if isspace c then lstrip s' else s
  end.

(** [s.strip()] *)
Definition strip (s : pystr) : pystr := rev (lstrip (rev (lstrip s))).

Fixpoint startswith (s prefix : pystr) : bool :=
  match prefix, s with
  | [], _ => true
  | a :: p', c :: s' => (a =? c)%N && startswith s' p'
  | _ :: _, [] => false
  end.

(** [needle in hay] *)
Fixpoint contains (needle hay : pystr) : bool :=
  startswith hay needle ||
  match hay with
  | [] => false
  | _ :: hay' => contains needle hay'
  end.

(** [sep.join(items)], for [str] and for [bytes]. *)
Fixpoint join {A : Type} (sep : list A) (items : list (list A)) : list A :=
  match items with
  | [] => []
  | [x] => x
  | x :: rest => x ++ sep ++ join sep rest
  end.

(** [str(n)] for an [int]. *)
Definition str_of_int (n : Z) : pystr :=
  u (NilZero.string_of_int (Z.to_int n)).

(** [str(x)] for a value that is a [str] or [None]. *)
Definition str_of_optional (x : option pystr) : pystr :=
  match x with
  | Some s => s
  | None => u "None"
  end.

(** [data.split()] on bytes: split at runs of ASCII white space. *)
Definition byte_isspace (c : Byte.byte) : bool :=
  let n := Byte.to_N c in ((9 <=? n) && (n <=? 13) || (n =? 32))%N.

Fixpoint bytes_split_aux (cur : bytes) (s : bytes) : list bytes :=
  match s with
  | [] => match cur with [] => [] | _ => [rev cur] end
  | c :: s' =>
      if byte_isspace c
      then match cur with
           | [] => bytes_split_aux [] s'
           | _ => rev cur :: bytes_split_aux [] s'
           end
      else bytes_split_aux (c :: cur) s'
  end.

Definition bytes_split (s : bytes) : list bytes := bytes_split_aux [] s.

(* ================================================================== *)
(** ** Python floats *)
(* ================================================================== *)

(** IEEE 754 binary64 with round-to-nearest-even, as CPython's [float]. *)
Module Float64.

Definition prec : Z := 53.
Definition emax : Z := 1024.

Definition t := spec_float.

(** [float(n)] *)
Definition of_int (n : Z) : t := binary_normalize prec emax n 0 false.

Definition mul : t -> t -> t := SFmul prec emax.
Definition div : t -> t -> t := SFdiv prec emax.

(** [int(x)]: truncation towards zero (finite arguments only). *)
Definition to_int (x : t) : Z :=
  match x with
  | S754_finite s m e =>
      let a := match e with
               | Z0 => Zpos m
               | Zpos p => Z.shiftl (Zpos m) (Zpos p)
               | Zneg p => Z.shiftr (Zpos m) (Zpos p)
               end in
      if s then - a else a
  | _ => 0
  end.

(** The literal [0.8]: the double nearest to 8/10. *)
Definition c0_8 : t := div (of_int 8) (of_int 10).

End Float64.

(* ================================================================== *)
(** ** Outcomes of fallible code *)
(* ================================================================== *)

(** A Python exception, by its text [str(e)]. *)
Definition exn := pystr.

Inductive outcome (A : Type) : Type :=
| Ok (a : A)
| Raise (e : exn).

Arguments Ok {A} a.
Arguments Raise {A} e.

(* ================================================================== *)
(** ** Parsed messages *)
(* ================================================================== *)

(** What the engine reads from one [email.message.Message] object. *)
Record headers : Type := {
  h_subject : option pystr;              (* msg.get('Subject') *)
  h_from : option pystr;                 (* msg.get('From') *)
  h_date : option pystr;                 (* msg.get('Date') *)
  h_content_type : pystr;                (* get_content_type() *)
  h_content_disposition : option pystr;  (* get("Content-Disposition") *)
  h_filename : option pystr;             (* get_filename() *)
  h_charset : option pystr               (* get_content_charset() *)
}.

(** A message is a leaf, with its payload as text ([get_payload()]) and
    transfer-decoded ([get_payload(decode=True)]), or a multipart
    container. *)
#[warnings="-register-all"]
Inductive message : Type :=
| Leaf (h : headers) (raw : pystr) (decoded : option bytes)
| Multipart (h : headers) (parts : list message).

Definition msg_headers (m : message) : headers :=
  match m with
  | Leaf h _ _ => h
  | Multipart h _ => h
  end.

Definition is_multipart (m : message) : bool :=
  match m with
  | Leaf _ _ _ => false
  | Multipart _ _ => true
  end.

(** [get_payload(decode=True)]: [None] on a container. *)
Definition get_payload_decoded (m : message) : option bytes :=
  match m with
  | Leaf _ _ d => d
  | Multipart _ _ => None
  end.

(** [str(msg.get_payload())] of a leaf. *)
Definition get_payload_str (m : message) : pystr :=
  match m with
  | Leaf _ raw _ => raw
  | Multipart _ _ => []
  end.

(** [msg.walk()]: the message itself, then its parts, depth first. *)
Fixpoint walk (m : message) : list message :=
  match m with
  | Leaf _ _ _ => [m]
  | Multipart _ parts => m :: flat_map walk parts
  end.

(** [msg.get(name, '')] *)
Definition get_or_empty (x : option pystr) : pystr :=
  match x with
  | Some s => s
  | None => []
  end.

(* ================================================================== *)
(** ** The world outside the engine *)
(* ================================================================== *)

(** Calls made on an [imaplib] session. *)
Inductive command : Type :=
| IMAP4_SSL (host : pystr)
| Authenticate (mechanism auth_string : pystr)
| Select (mailbox : pystr)
| Search (criteria : pystr)
| Copy (message_set : bytes) (new_mailbox : pystr)
| Store (message_set : bytes) (cmd flags : pystr)
| Expunge
| Fetch (message_set : bytes) (message_parts : pystr)
| Logout.

(** One element of the [data] list of an [imaplib] reply. *)
Inductive item : Type :=
| INone
| IBytes (x : bytes)
| ITuple (x y : bytes).

(** An [imaplib] reply [(typ, data)]. *)
Definition reply : Type := pystr * list item.

(** [response.json()] of the token endpoint: it raises, or gives an
    object whose members are strings or null ([None]). *)
Definition json_object : Type := list (pystr * option pystr).
Definition response : Type := outcome json_object.

Inductive level : Type := INFO | WARNING | ERROR.

(** The logger calls, by call site. *)
Inductive logmsg : Type :=
| LogFetchStart (email_address : pystr)
| LogJunkFound (junk_name : pystr)
| LogJunkMoving (count : Z)
| LogJunkDone
| LogCopyFailed (res : pystr)
| LogSearchSince (search_date : pystr)
| LogSearchFailed
| LogPending (total_mails : Z)
| LogParseFailed (mail_id : bytes) (e : exn)
| LogImapError (attempt max_retries : Z) (e : exn)
| LogTokenFailed (result_status : pystr)
| LogTokenOk
| LogTokenException (e : exn)
| LogCheckStart (email_id : Z) (email_address : pystr)
| LogMessage (text : pystr)
| LogSaveFailed (e : exn)
| LogCheckTimeUpdated (email_id : Z) (email_address : pystr)
| LogCheckTimeFailed (e : exn)
| LogCheckDone (email_id : Z) (email_address : pystr) (count saved_count : Z).

(** Everything the module takes from outside: the services it talks to,
    over a state of their own, and the helpers it imports
    ([.common], [email], [bytes.decode], [datetime]). *)
Record Platform : Type := {
  state : Type;
  datetime : Type;
  (* services *)
  imap : state -> command -> state * outcome reply;
  requests_post :
    state -> pystr -> list (pystr * pystr) -> state * outcome response;
  db_update_email_token : state -> Z -> pystr -> state * outcome unit;
  db_add_mail_record :
    state -> Z -> pystr -> pystr -> option datetime -> pystr ->
    state * outcome bool;
  db_update_check_time : state -> Z -> state * outcome unit;
  (* helpers *)
  message_from_bytes : bytes -> message;
  decode_mime_words : pystr -> pystr;
  parsedate_tz : pystr -> option datetime;
  isoformat : datetime -> pystr;
  bytes_decode : pystr -> bytes -> option pystr;
  normalize_check_time : option datetime -> option datetime;
  format_date_for_imap_search : datetime -> pystr
}.

(* ================================================================== *)
(** ** String constants of the module *)
(* ================================================================== *)

Definition OK : pystr := u "OK".
Definition INBOX : pystr := u "INBOX".
Definition ALL : pystr := u "ALL".
Definition host : pystr := u "outlook.live.com".
Definition XOAUTH2 : pystr := u "XOAUTH2".
Definition RFC822 : pystr := u "(RFC822)".
Definition token_url : pystr :=
  u "https://login.microsoftonline.com/common/oauth2/v2.0/token".
Definition junk_aliases : list pystr :=
  [u "Junk Email"; u "Junk"; u "Spam"; u "垃圾邮件"; u "junkemail"].
Definition max_retries : Z := 3.

(* ================================================================== *)
(** ** [generate_auth_string] *)
(* ================================================================== *)

(** [f"user={user}\1auth=Bearer {token}\1\1"]; the escape [\1] is the
    character of code 1. *)
Definition generate_auth_string (user token : pystr) : pystr :=
  u "user=" ++ user ++ [1%N] ++ u "auth=Bearer " ++ token ++ [1%N] ++ [1%N].

(* ================================================================== *)
(** ** The engine *)
(* ================================================================== *)

Section Engine.

Context (P : Platform).

(** *** [_extract_rich_content] *)

(** The three accumulators of the function. *)
Record buffers : Type := {
  text_content : pystr;
  html_content : pystr;
  attachments : list pystr
}.

Definition no_buffers : buffers :=
  {| text_content := []; html_content := []; attachments := [] |}.

Definition text_html : pystr := u "text/html".
Definition text_plain : pystr := u "text/plain".
Definition utf_8 : pystr := u "utf-8".
Definition attachment : pystr := u "attachment".

(** [charset = part.get_content_charset()], [utf-8] when it is falsy. *)
Definition charset_of (h : headers) : pystr :=
  match h_charset h with
  | Some c => if truthy c then c else utf_8
  | None => utf_8
  end.

(** One turn of the loop [for part in msg.walk()]. *)
Definition scan_part (acc : buffers) (part : message) : buffers :=
  let h := msg_headers part in
  let content_type := h_content_type h in
  let content_disposition := str_of_optional (h_content_disposition h) in
  let acc :=
    match h_filename h with
    | Some filename =>
        if truthy filename
        then {| text_content := text_content acc;
                html_content := html_content acc;
                attachments :=
                  attachments acc ++ [decode_mime_words P filename] |}
        else acc
    | None => acc
    end in
  if contains attachment content_disposition then acc
  else
    match get_payload_decoded part with
    | None => acc
    | Some payload =>
        if negb (truthy payload) then acc
        else
          match bytes_decode P (charset_of h) payload with
          | None => acc
          | Some decoded_part =>
              if pystr_eqb content_type text_html
              then {| text_content := text_content acc;
                      html_content := html_content acc ++ decoded_part;
                      attachments := attachments acc |}
              else if pystr_eqb content_type text_plain
              then {| text_content := text_content acc ++ decoded_part;
                      html_content := html_content acc;
                      attachments := attachments acc |}
              else acc
          end
    end.

(** The branch for a message that is not multipart. *)
Definition scan_single (msg : message) : buffers :=
  let fallback := get_payload_str msg in
  {| text_content :=
       match get_payload_decoded msg with
       | Some payload =>
           match bytes_decode P (charset_of (msg_headers msg)) payload with
           | Some text => text
           | None => fallback
           end
       | None => fallback
       end;
     html_content := [];
     attachments := [] |}.

Definition scan (msg : message) : buffers :=
  if is_multipart msg
  then fold_left scan_part (walk msg) no_buffers
  else scan_single msg.

Definition html_footer (names : list pystr) : pystr :=
  u "<br><hr><b>[系统提示] 包含附件:</b> " ++ join (u ", ") names.

Definition text_footer (names : list pystr) : pystr :=
  [10%N; 10%N] ++ u "----------------" ++ [10%N] ++ u "[包含附件]: "
  ++ join (u ", ") names.

Definition _extract_rich_content (msg : message) : pystr :=
  let s := scan msg in
  let final_content :=
    if truthy (strip (html_content s))
    then html_content s else text_content s in
  if truthy (attachments s)
  then
    let att_str :=
      if negb (truthy (strip (html_content s)))
      then text_footer (attachments s)
      else html_footer (attachments s) in
    final_content ++ att_str
  else final_content.

(** *** Effects *)

Inductive event : Type :=
| EvProgress (progress : Z) (message : pystr)
| EvSleep (seconds : Z)
| EvImap (c : command) (r : outcome reply)
| EvPost (url : pystr) (data : list (pystr * pystr)) (r : outcome response)
| EvUpdateToken (email_id : Z) (token : pystr) (r : outcome unit)
| EvAddRecord (email_id : Z) (subject sender : pystr)
    (received_time : option (datetime P)) (content : pystr)
    (r : outcome bool)
| EvUpdateCheckTime (email_id : Z) (r : outcome unit)
| EvLog (l : level) (m : logmsg).

(** A computation over a state [St]: it returns or raises, leaves a
    state behind in both cases, and emits events. *)
Definition M (St A : Type) : Type := St -> outcome A * St * list event.

Definition ret {St A : Type} (a : A) : M St A :=
  fun s => (Ok a, s, []).

Definition bind {St A B : Type} (m : M St A) (k : A -> M St B) : M St B :=
  fun s =>
    match m s with
    | (Ok a, s1, t1) =>
        match k a s1 with
        | (r, s2, t2) => (r, s2, t1 ++ t2)
        end
    | (Raise e, s1, t1) => (Raise e, s1, t1)
    end.

Definition raise {St A : Type} (e : exn) : M St A :=
  fun s => (Raise e, s, []).

(** [try: body except Exception as e: handler e] *)
Definition try_except {St A : Type}
    (body : M St A) (handler : exn -> M St A) : M St A :=
  fun s =>
    match body s with
    | (Ok a, s1, t1) => (Ok a, s1, t1)
    | (Raise e, s1, t1) =>
        match handler e s1 with
        | (r, s2, t2) => (r, s2, t1 ++ t2)
        end
    end.

(** [try: body finally: cleanup] *)
Definition try_finally {St A : Type}
    (body : M St A) (cleanup : M St unit) : M St A :=
  fun s =>
    match body s with
    | (r, s1, t1) =>
        match cleanup s1 with
        | (Ok _, s2, t2) => (r, s2, t1 ++ t2)
        | (Raise e, s2, t2) => (Raise e, s2, t1 ++ t2)
        end
    end.

Definition emit {St : Type} (evs : list event) : M St unit :=
  fun s => (Ok tt, s, evs).

Definition logger {St : Type} (l : level) (m : logmsg) : M St unit :=
  emit [EvLog l m].

Definition lift_outcome {St A : Type} (r : outcome A) : M St A :=
  fun s => (r, s, []).

(** A progress callback is a function of the caller.  It is modelled
    by the reports [(progress, message)] that one call of it hands to
    whoever watches the run: none for the no-op callback, its two
    arguments for a caller that looks at every call. *)
Definition callback_t : Type := Z -> pystr -> list (Z * pystr).

Definition no_callback : callback_t := fun _ _ => [].

Definition watching : callback_t := fun progress message => [(progress, message)].

(** [callback(progress, message)] *)
Definition call {St : Type} (callback : callback_t)
    (progress : Z) (message : pystr) : M St unit :=
  emit (map (fun x => EvProgress (fst x) (snd x)) (callback progress message)).

Notation "x <- m ;; k" := (bind m (fun x => k))
  (at level 61, m at next level, right associativity).
Notation "' pat <- m ;; k" := (bind m (fun x => match x with pat => k end))
  (at level 61, pat pattern, m at next level, right associativity).
Notation "m ;; k" := (bind m (fun _ => k))
  (at level 61, right associativity).

(** *** [fetch_emails] *)

(** One element of [mail_records]. *)
Record record : Type := {
  subject : pystr;
  sender : pystr;
  received_time : option (datetime P);
  content : pystr;
  mail_key : pystr;
  folder : pystr
}.

(** The locals of [fetch_emails] that live across the attempts:
    whether [mail] is bound, and the list [mail_records]. *)
Record frame : Type := {
  mail : bool;
  mail_records : list record
}.

Definition F (A : Type) : Type := M (state P * frame) A.

(** A call on the session [mail]. *)
Definition imap_call (c : command) : F reply :=
  fun s =>
    match imap P (fst s) c with
    | (w, r) => (r, (w, snd s), [EvImap c r])
    end.

Definition get_frame : F frame :=
  fun s => (Ok (snd s), s, []).

(** [mail = ...] *)
Definition bind_mail : F unit :=
  fun s =>
    (Ok tt,
     (fst s, {| mail := true; mail_records := mail_records (snd s) |}),
     []).

(** [mail_records.append(r)] *)
Definition append_record (r : record) : F unit :=
  fun s =>
    (Ok tt,
     (fst s, {| mail := mail (snd s);
                mail_records := mail_records (snd s) ++ [r] |}),
     []).

(** [time.sleep(seconds)] *)
Definition sleep (seconds : Z) : F unit := emit [EvSleep seconds].

(** [mail.logout()]; the name [mail] may still be unbound. *)
Definition mail_logout : F unit :=
  f <- get_frame ;;
  if mail f
  then _ <- imap_call Logout ;; ret tt
  else raise (u "local variable 'mail' referenced before assignment").

(** [data[0].split()] *)
Definition first_split (data : list item) : outcome (list bytes) :=
  match data with
  | IBytes x :: _ => Ok (bytes_split x)
  | INone :: _ => Raise (u "'NoneType' object has no attribute 'split'")
  | ITuple _ _ :: _ => Raise (u "'tuple' object has no attribute 'split'")
  | [] => Raise (u "list index out of range")
  end.

(** [email.message_from_bytes(mail_data[0][1])] *)
Definition first_message (mail_data : list item) : outcome message :=
  match mail_data with
  | ITuple _ raw :: _ => Ok (message_from_bytes P raw)
  | IBytes _ :: _ => Raise (u "'int' object has no attribute 'decode'")
  | INone :: _ => Raise (u "'NoneType' object is not subscriptable")
  | [] => Raise (u "list index out of range")
  end.

(** [email.utils.parsedate_to_datetime]: the library parser
    [_parsedate_tz] gives [None] on no data and on data it cannot
    read, and the function raises on [None]. *)
Definition parsedate_to_datetime (data : pystr) : outcome (datetime P) :=
  match data with
  | [] => Raise (u "Invalid date value or format")
  | _ =>
      match parsedate_tz P data with
      | Some d => Ok d
      | None => Raise (u "Invalid date value or format")
      end
  end.

(** The f-string of [mail_key]. *)
Definition make_mail_key
    (subject sender : pystr) (received_time : option (datetime P))
    : pystr :=
  subject ++ u "|" ++ sender ++ u "|" ++
  match received_time with
  | Some d => isoformat P d
  | None => u "unknown"
  end.

(** [40 + int((i / total_mails) * 50) if total_mails else 90] *)
Definition inbox_progress (i total_mails : Z) : Z :=
  if total_mails =? 0 then 90
  else 40 + Float64.to_int
              (Float64.mul
                 (Float64.div (Float64.of_int i) (Float64.of_int total_mails))
                 (Float64.of_int 50)).

Inductive control : Type :=
| Break
| Continue
| Return (v : list record).

Section Fetch.

Variables (email_address access_token : pystr).
Variable callback : callback_t.
Variable last_check_time : option (datetime P).

(** The body of [try] inside [for junk_name in junk_aliases];
    [true] stands for [break]. *)
Definition junk_body (junk_name : pystr) : F bool :=
  '(status, _) <- imap_call (Select junk_name) ;;
  if pystr_eqb status OK
  then
    logger INFO (LogJunkFound junk_name) ;;
    '(status, data) <- imap_call (Search ALL) ;;
    (if pystr_eqb status OK
     then
       mail_ids <- lift_outcome (first_split data) ;;
       if truthy mail_ids
       then
         logger INFO (LogJunkMoving (Z.of_nat (length mail_ids))) ;;
         let id_set := join (b ",") mail_ids in
         '(res, _) <- imap_call (Copy id_set INBOX) ;;
         if pystr_eqb res OK
         then
           _ <- imap_call (Store id_set (u "+FLAGS") (u "\Deleted")) ;;
           _ <- imap_call Expunge ;;
           logger INFO LogJunkDone
         else logger ERROR (LogCopyFailed res)
       else ret tt
     else ret tt) ;;
    ret true
  else ret false.

Fixpoint junk_loop (aliases : list pystr) : F unit :=
  match aliases with
  | [] => ret tt
  | junk_name :: rest =>
      stop <- try_except (junk_body junk_name) (fun _ => ret false) ;;
      if stop then ret tt else junk_loop rest
  end.

(** The body of [try] inside [for i, mail_id in enumerate(mail_ids)]. *)
Definition process_message (mail_id : bytes) : F unit :=
  '(_, mail_data) <- imap_call (Fetch mail_id RFC822) ;;
  msg <- lift_outcome (first_message mail_data) ;;
  let h := msg_headers msg in
  let subject_ := decode_mime_words P (get_or_empty (h_subject h)) in
  let sender_ := decode_mime_words P (get_or_empty (h_from h)) in
  parsed <-
    lift_outcome (parsedate_to_datetime (get_or_empty (h_date h))) ;;
  let received_time_ := Some parsed in
  let mail_key_ := make_mail_key subject_ sender_ received_time_ in
  f <- get_frame ;;
  if existsb (pystr_eqb mail_key_) (map mail_key (mail_records f))
  then ret tt
  else
    let content_ := _extract_rich_content msg in
    append_record
      {| subject := subject_;
         sender := sender_;
         received_time := received_time_;
         content := content_;
         mail_key := mail_key_;
         folder := INBOX |}.

Fixpoint message_loop (i total_mails : Z) (mail_ids : list bytes)
    : F unit :=
  match mail_ids with
  | [] => ret tt
  | mail_id :: rest =>
      let progress := inbox_progress i total_mails in
      call callback progress INBOX ;;
      try_except (process_message mail_id)
        (fun e => logger ERROR (LogParseFailed mail_id e)) ;;
      message_loop (i + 1) total_mails rest
  end.

(** [mail_ids[-100:] if len(mail_ids) > 100 else mail_ids] *)
Definition cap (mail_ids : list bytes) : list bytes :=
  if (100 <? length mail_ids)%nat
  then skipn (length mail_ids - 100) mail_ids
  else mail_ids.

(** The outer [try], first block: the session is opened and
    authenticated. *)
Definition connect : F unit :=
  call callback 10 (u "连接服务器...") ;;
  _ <- imap_call (IMAP4_SSL host) ;;
  bind_mail ;;
  let auth_string := generate_auth_string email_address access_token in
  _ <- imap_call (Authenticate XOAUTH2 auth_string) ;;
  ret tt.

(** Second block: the junk mail is moved to the inbox. *)
Definition move_junk : F unit :=
  call callback 20 (u "检查垃圾邮件...") ;;
  junk_loop junk_aliases.

(** Third block: the inbox is read. *)
Definition fetch_inbox : F control :=
  call callback 40 (u "正在获取收件箱...") ;;
  _ <- imap_call (Select INBOX) ;;
  '(status, data) <-
    match last_check_time with
    | Some t =>
        let search_date := format_date_for_imap_search P t in
        let search_cmd :=
          u "(SINCE " ++ [34%N] ++ search_date ++ [34%N] ++ u ")" in
        logger INFO (LogSearchSince search_date) ;;
        imap_call (Search search_cmd)
    | None => imap_call (Search ALL)
    end ;;
  if negb (pystr_eqb status OK)
  then
    logger ERROR LogSearchFailed ;;
    mail_logout ;;
    ret (Return [])
  else
    mail_ids <- lift_outcome (first_split data) ;;
    let mail_ids := cap mail_ids in
    let total_mails := Z.of_nat (length mail_ids) in
    logger INFO (LogPending total_mails) ;;
    message_loop 0 total_mails mail_ids ;;
    call callback 90 (u "完成获取") ;;
    ret Break.

(** The body of the outer [try]. *)
Definition attempt_body : F control :=
  connect ;;
  move_junk ;;
  fetch_inbox.

(** One turn of [for retry in range(max_retries)]: the [try] with
    its [except] and [finally]. *)
Definition attempt (retry : Z) : F control :=
  try_finally
    (try_except attempt_body
       (fun e =>
          logger ERROR (LogImapError (retry + 1) max_retries e) ;;
          sleep 1 ;;
          ret Continue))
    (try_except mail_logout (fun _ => ret tt)).

Fixpoint retry_loop (retries : list Z) : F (list record) :=
  match retries with
  | [] => f <- get_frame ;; ret (mail_records f)
  | retry :: rest =>
      c <- attempt retry ;;
      match c with
      | Continue => retry_loop rest
      | Break => f <- get_frame ;; ret (mail_records f)
      | Return v => ret v
      end
  end.

Definition fetch_emails_in_frame : F (list record) :=
  logger INFO (LogFetchStart email_address) ;;
  retry_loop [0; 1; 2].

End Fetch.

(** [fetch_emails(email_address, access_token, folder, callback,
    last_check_time)], with the defaults of the two last arguments as
    [None]. *)
Definition fetch_emails
    (email_address access_token folder : pystr)
    (callback : option callback_t)
    (last_check_time : option (datetime P))
    : M (state P) (list record) :=
  fun w =>
    let callback :=
      match callback with
      | Some f => f
      | None => no_callback
      end in
    let last_check_time := normalize_check_time P last_check_time in
    match
      fetch_emails_in_frame email_address access_token callback
        last_check_time (w, {| mail := false; mail_records := [] |})
    with
    | (r, s, t) => (r, fst s, t)
    end.

(** *** [get_new_access_token] *)

Fixpoint dict_find (d : json_object) (k : pystr) : option (option pystr) :=
  match d with
  | [] => None
  | (k', v) :: d' => if pystr_eqb k' k then Some v else dict_find d' k
  end.

(** [d.get(k)] *)
Definition dict_get (d : json_object) (k : pystr) : option pystr :=
  match dict_find d k with
  | Some v => v
  | None => None
  end.

(** [d[k]] *)
Definition dict_index (d : json_object) (k : pystr)
    : outcome (option pystr) :=
  match dict_find d k with
  | Some v => Ok v
  | None => Raise ([39%N] ++ k ++ [39%N])
  end.

Definition requests_post_call (url : pystr) (data : list (pystr * pystr))
    : M (state P) response :=
  fun w =>
    match requests_post P w url data with
    | (w', r) => (r, w', [EvPost url data r])
    end.

(** The form [data] of the token request. *)
Definition token_request (refresh_token client_id : pystr)
    : list (pystr * pystr) :=
  [(u "client_id", client_id);
   (u "grant_type", u "refresh_token");
   (u "refresh_token", refresh_token)].

Definition get_new_access_token (refresh_token client_id : pystr)
    : M (state P) (option pystr) :=
  let url := token_url in
  let data := token_request refresh_token client_id in
  try_except
    (response <- requests_post_call url data ;;
     json <- lift_outcome response ;;
     let result_status := dict_get json (u "error") in
     match result_status with
     | Some result_status =>
         logger ERROR (LogTokenFailed result_status) ;;
         ret None
     | None =>
         json <- lift_outcome response ;;
         new_access_token <-
           lift_outcome (dict_index json (u "access_token")) ;;
         logger INFO LogTokenOk ;;
         ret new_access_token
     end)
    (fun e =>
       logger ERROR (LogTokenException e) ;;
       ret None).

(** *** [check_mail] *)

Record email_info : Type := {
  info_id : Z;
  info_email : pystr;
  info_refresh_token : pystr;
  info_client_id : pystr;
  info_last_check_time : option (datetime P)
}.

(** The dictionary that [check_mail] returns; [total] and [saved] are
    present on success only. *)
Record result : Type := {
  success : bool;
  message_ : pystr;
  total : option Z;
  saved : option Z
}.

Definition update_email_token_call (email_id : Z) (token : pystr)
    : M (state P) unit :=
  fun w =>
    match db_update_email_token P w email_id token with
    | (w', r) => (r, w', [EvUpdateToken email_id token r])
    end.

Definition add_mail_record_call (email_id : Z) (r : record)
    : M (state P) bool :=
  fun w =>
    match
      db_add_mail_record P w email_id (subject r) (sender r)
        (received_time r) (content r)
    with
    | (w', o) =>
        (o, w',
         [EvAddRecord email_id (subject r) (sender r) (received_time r)
            (content r) o])
    end.

Definition update_check_time_call (email_id : Z) : M (state P) unit :=
  fun w =>
    match db_update_check_time P w email_id with
    | (w', r) => (r, w', [EvUpdateCheckTime email_id r])
    end.

(** [10 + int(progress * 0.8)] *)
Definition total_progress (progress : Z) : Z :=
  10 + Float64.to_int (Float64.mul (Float64.of_int progress) Float64.c0_8).

Definition folder_progress_callback (progress_callback : callback_t)
    : callback_t :=
  fun progress folder =>
  let msg :=
    u "正在处理" ++ folder ++ u "，进度" ++ str_of_int progress ++ u "%" in
  progress_callback (total_progress progress) msg.

(** [for record in mail_records], counting the saved ones. *)
Fixpoint save_loop (email_id : Z) (mail_records : list record)
    (saved_count : Z) : M (state P) Z :=
  match mail_records with
  | [] => ret saved_count
  | r :: rest =>
      saved_count <-
        try_except
          (ok <- add_mail_record_call email_id r ;;
           ret (if ok then saved_count + 1 else saved_count))
          (fun e =>
             logger ERROR (LogSaveFailed e) ;;
             ret saved_count) ;;
      save_loop email_id rest saved_count
  end.

Definition mailbox_label (email_address : pystr) (email_id : Z) : pystr :=
  u "邮箱" ++ email_address ++ u "(ID=" ++ str_of_int email_id ++ u ")".

Definition check_mail (info : email_info)
    (progress_callback : option callback_t) : M (state P) result :=
  let email_id := info_id info in
  let email_address := info_email info in
  let refresh_token := info_refresh_token info in
  let client_id := info_client_id info in
  logger INFO (LogCheckStart email_id email_address) ;;
  let progress_callback :=
    match progress_callback with
    | Some f => f
    | None => no_callback
    end in
  call progress_callback 0 (u "正在获取访问令牌...") ;;
  try_except
    (access_token <- get_new_access_token refresh_token client_id ;;
     match access_token with
     | Some (c :: token) =>
         let access_token := c :: token in
         update_email_token_call email_id access_token ;;
         call progress_callback 10 (u "开始获取邮件...") ;;
         try_except
           (mail_records <-
              fetch_emails email_address access_token (u "inbox")
                (Some (folder_progress_callback progress_callback)) None ;;
            let count := Z.of_nat (length mail_records) in
            call progress_callback 90
              (u "获取到" ++ str_of_int count ++ u "封邮件，正在保存...") ;;
            saved_count <- save_loop email_id mail_records 0 ;;
            try_except
              (update_check_time_call email_id ;;
               logger INFO (LogCheckTimeUpdated email_id email_address))
              (fun e => logger ERROR (LogCheckTimeFailed e)) ;;
            let success_msg :=
              u "完成，共处理" ++ str_of_int count ++ u "封邮件，新增"
              ++ str_of_int saved_count ++ u "封" in
            call progress_callback 100 success_msg ;;
            logger INFO
              (LogCheckDone email_id email_address count saved_count) ;;
            ret {| success := true;
                   message_ := success_msg;
                   total := Some count;
                   saved := Some saved_count |})
           (fun e =>
              let error_msg := u "检查邮件失败: " ++ e in
              logger ERROR
                (LogMessage (mailbox_label email_address email_id
                             ++ error_msg)) ;;
              call progress_callback 0 error_msg ;;
              ret {| success := false;
                     message_ := error_msg;
                     total := None;
                     saved := None |})
     | _ =>
         let error_msg :=
           mailbox_label email_address email_id ++ u "获取访问令牌失败" in
         logger ERROR (LogMessage error_msg) ;;
         call progress_callback 0 error_msg ;;
         ret {| success := false;
                message_ := error_msg;
                total := None;
                saved := None |}
     end)
    (fun e =>
       let error_msg := u "处理邮箱过程中出错: " ++ e in
       logger ERROR
         (LogMessage (mailbox_label email_address email_id ++ error_msg)) ;;
       call progress_callback 0 error_msg ;;
       ret {| success := false;
              message_ := error_msg;
              total := None;
              saved := None |}).

End Engine.

Arguments EvProgress {P} progress message.
Arguments EvSleep {P} seconds.
Arguments EvImap {P} c r.
Arguments EvPost {P} url data r.
Arguments EvUpdateToken {P} email_id token r.
Arguments EvAddRecord {P} email_id subject sender received_time content r.
Arguments EvUpdateCheckTime {P} email_id r.
Arguments EvLog {P} l m.
Arguments ret {P St A} a.
Arguments bind {P St A B} m k.
Arguments raise {P St A} e.
Arguments try_except {P St A} body handler.
Arguments try_finally {P St A} body cleanup.
Arguments emit {P St} evs.
Arguments logger {P St} l m.
Arguments lift_outcome {P St A} r.
Arguments call {P St} callback progress message.
Arguments Break {P}.
Arguments Continue {P}.
Arguments Return {P} v.
Arguments subject {P} r.
Arguments sender {P} r.
Arguments received_time {P} r.
Arguments content {P} r.
Arguments mail_key {P} r.
Arguments folder {P} r.
Arguments info_id {P} e.
Arguments info_email {P} e.
Arguments info_refresh_token {P} e.
Arguments info_client_id {P} e.
Arguments info_last_check_time {P} e.
Arguments mail {P} f.
Arguments mail_records {P} f.

(* ================================================================== *)
(** ** What a message holds, part by part *)
(* ================================================================== *)

Section Contents.

Context (P : Platform).

(** The text that the walk reads from one part: none for a part with
    the attachment marker, for a container, for an empty payload and
    for a charset that [bytes.decode] does not know. *)
Definition part_text (part : message) : option pystr :=
  let h := msg_headers part in
  if contains attachment (str_of_optional (h_content_disposition h))
  then None
  else
    match get_payload_decoded part with
    | Some payload =>
        if truthy payload then bytes_decode P (charset_of h) payload
        else None
    | None => None
    end.

Definition texts_of_type (content_type : pystr) (parts : list message)
    : list pystr :=
  flat_map
    (fun part =>
       if pystr_eqb (h_content_type (msg_headers part)) content_type
       then match part_text part with Some t => [t] | None => [] end
       else [])
    parts.

(** The HTML body and the plain-text body of a multipart message. *)
Definition html_body (msg : message) : pystr :=
  concat (texts_of_type text_html (walk msg)).

Definition plain_body (msg : message) : pystr :=
  concat (texts_of_type text_plain (walk msg)).

(** The file names met by the walk, as the headers give them. *)
Definition filenames (parts : list message) : list pystr :=
  flat_map
    (fun part =>
       match h_filename (msg_headers part) with
       | Some name => if truthy name then [name] else []
       | None => []
       end)
    parts.

Definition attachment_names (msg : message) : list pystr :=
  map (decode_mime_words P) (filenames (walk msg)).

Definition has_part (content_type : pystr) (msg : message) : Prop :=
  exists part,
    In part (walk msg) /\ h_content_type (msg_headers part) = content_type.

(** The footer that goes with a body, chosen by the format of the
    body. *)
Definition footer (html : bool) (names : list pystr) : pystr :=
  match names with
  | [] => []
  | _ => if html then html_footer names else text_footer names
  end.

End Contents.

(* ================================================================== *)
(** ** Traces *)
(* ================================================================== *)

Section Traces.

Context {P : Platform}.

Definition progress_values (t : list (event P)) : list Z :=
  flat_map (fun e => match e with EvProgress p _ => [p] | _ => [] end) t.

(** The commands sent to the mail server. *)
Definition imap_commands (t : list (event P)) : list command :=
  flat_map (fun e => match e with EvImap c _ => [c] | _ => [] end) t.

Definition is_open (e : event P) : bool :=
  match e with EvImap (IMAP4_SSL _) _ => true | _ => false end.

Definition is_sleep (e : event P) : bool :=
  match e with EvSleep _ => true | _ => false end.

Definition is_post (e : event P) : bool :=
  match e with EvPost _ _ _ => true | _ => false end.

(** The log line of a failed attempt. *)
Definition is_attempt_failure (e : event P) : bool :=
  match e with EvLog ERROR (LogImapError _ _ _) => true | _ => false end.

Definition count (f : event P -> bool) (t : list (event P)) : nat :=
  length (filter f t).

(** The message identifiers fetched, in the order of the fetches. *)
Definition fetched_ids (t : list (event P)) : list bytes :=
  flat_map
    (fun e => match e with EvImap (Fetch i _) _ => [i] | _ => [] end) t.

(** The search criteria sent, in order. *)
Definition searches (t : list (event P)) : list pystr :=
  flat_map
    (fun e => match e with EvImap (Search c) _ => [c] | _ => [] end) t.

(** The mailboxes selected, in order. *)
Definition selects (t : list (event P)) : list pystr :=
  flat_map
    (fun e => match e with EvImap (Select m) _ => [m] | _ => [] end) t.

(** A [select] that answered [OK]. *)
Definition selected_ok (e : event P) : bool :=
  match e with
  | EvImap (Select _) (Ok (status, _)) => pystr_eqb status OK
  | _ => false
  end.

(** An event at which the processing of a junk alias ends with an
    exception: a command that raises, or a search that answers [OK]
    with data that cannot be split. *)
Definition breaks (e : event P) : bool :=
  match e with
  | EvImap _ (Raise _) => true
  | EvImap (Search _) (Ok (status, data)) =>
      pystr_eqb status OK
      && match first_split data with Ok _ => false | Raise _ => true end
  | _ => false
  end.

(** An [expunge] that returned. *)
Definition is_expunged (e : event P) : bool :=
  match e with
  | EvImap Expunge (Ok _) => true
  | _ => false
  end.

Definition events {St A : Type} (m : M P St A) (s : St) : list (event P) :=
  snd (m s).

Definition value {St A : Type} (m : M P St A) (s : St) : outcome A :=
  fst (fst (m s)).

Definition final {St A : Type} (m : M P St A) (s : St) : St :=
  snd (fst (m s)).

(** Every event that [m] emits satisfies [Q], from every state. *)
Definition emits {St A : Type} (Q : event P -> Prop) (m : M P St A)
    : Prop :=
  forall s, Forall Q (events m s).

(** The events of one call of a callback. *)
Definition reports_of (callback : callback_t) (progress : Z)
    (message : pystr) : list (event P) :=
  map (fun x => EvProgress (fst x) (snd x)) (callback progress message).

(** [progress_callback], after the default is put in. *)
Definition callback_or_none (callback : option callback_t) : callback_t :=
  match callback with
  | Some f => f
  | None => no_callback
  end.

(** The result of a pass that failed. *)
Definition failure (msg : pystr) : result :=
  {| success := false; message_ := msg; total := None; saved := None |}.

(** An event that is no search, or a search for [ALL]. *)
Definition searches_all (e : event P) : Prop :=
  match e with
  | EvImap (Search criteria) _ => criteria = ALL
  | _ => True
  end.

(** What a fetch without a lower bound can emit. *)
Definition fetch_event (e : event P) : Prop :=
  match e with
  | EvProgress _ _ => True
  | EvLog _ _ => True
  | EvSleep seconds => seconds = 1
  | EvImap (Search criteria) _ => criteria = ALL
  | EvImap _ _ => True
  | _ => False
  end.

(** What the token refresher and the store can emit. *)
Definition service_event (e : event P) : Prop :=
  match e with
  | EvProgress _ _ => False
  | EvSleep _ => False
  | EvImap _ _ => False
  | EvLog _ (LogImapError _ _ _) => False
  | _ => True
  end.

(** What the orchestrator emits outside the fetch. *)
Definition outside_fetch (e : event P) : Prop :=
  match e with
  | EvSleep _ => False
  | EvImap _ _ => False
  | EvLog _ (LogImapError _ _ _) => False
  | _ => True
  end.

(** What an attempt emits once its session is authenticated and
    before it fails. *)
Definition session_event (e : event P) : Prop :=
  match e with
  | EvProgress _ _ => True
  | EvLog _ (LogImapError _ _ _) => False
  | EvLog _ _ => True
  | EvImap (IMAP4_SSL _) _ => False
  | EvImap (Authenticate _ _) _ => False
  | EvImap _ _ => True
  | _ => False
  end.

(** Every log line of a failed attempt is followed at once by a wait
    of one second. *)
Fixpoint waits (t : list (event P)) : Prop :=
  match t with
  | [] => True
  | e :: rest =>
      (is_attempt_failure e = true ->
       exists rest', rest = EvSleep 1 :: rest')
      /\ waits rest
  end.

(** [m] never raises. *)
Definition never_raises {St A : Type} (m : M P St A) : Prop :=
  forall s, exists a, value m s = Ok a.

End Traces.

(* ================================================================== *)
(** ** What one fetched message contributes *)
(* ================================================================== *)

Section Retained.

Context (P : Platform).

(** The record that the reply to one [fetch] command stands for, when
    the message can be read. *)
Definition record_of_reply (r : outcome reply) : outcome (record P) :=
  match r with
  | Raise e => Raise e
  | Ok (_, mail_data) =>
      match first_message P mail_data with
      | Raise e => Raise e
      | Ok msg =>
          let h := msg_headers msg in
          let subject_ := decode_mime_words P (get_or_empty (h_subject h)) in
          let sender_ := decode_mime_words P (get_or_empty (h_from h)) in
          match parsedate_to_datetime P (get_or_empty (h_date h)) with
          | Raise e => Raise e
          | Ok d =>
              Ok {| subject := subject_;
                    sender := sender_;
                    received_time := Some d;
                    content := _extract_rich_content P msg;
                    mail_key := make_mail_key P subject_ sender_ (Some d);
                    folder := INBOX |}
          end
      end
  end.

Definition known (records : list (record P)) (key : pystr) : bool :=
  existsb (pystr_eqb key) (map mail_key records).

(** A record joins the list unless its key is there already. *)
Definition retain (records : list (record P)) (r : record P)
    : list (record P) :=
  if known records (mail_key r) then records else records ++ [r].

(** The records that the fetches of a trace stand for, in order. *)
Definition fetched_records (t : list (event P)) : list (record P) :=
  flat_map
    (fun e =>
       match e with
       | EvImap (Fetch _ _) r =>
           match record_of_reply r with
           | Ok c => [c]
           | Raise _ => []
           end
       | _ => []
       end)
    t.




(** The events of one turn of the message loop. *)
Definition turn_events (cb : callback_t) (i n : Z) (mail_id : bytes)
    (r : outcome reply) : list (event P) :=
  reports_of cb (inbox_progress i n) INBOX
  ++ [EvImap (Fetch mail_id RFC822) r]
  ++ match record_of_reply r with
     | Ok _ => []
     | Raise e => [EvLog ERROR (LogParseFailed mail_id e)]
     end.

(** The list [mail_records] after one turn of the message loop. *)
Definition turn_records (recs : list (record P)) (r : outcome reply)
    : list (record P) :=
  match record_of_reply r with
  | Ok c => retain recs c
  | Raise _ => recs
  end.

(** The events that the end of a failed attempt adds. *)
Definition failure_events (retry : Z) (r : outcome (control P))
    : list (event P) :=
  match r with
  | Ok _ => []
  | Raise x => [EvLog ERROR (LogImapError (retry + 1) max_retries x);
                EvSleep 1]
  end.

End Retained.

(* ================================================================== *)
(** ** Invariants of computations *)
(* ================================================================== *)

Section Invariants.

Context {P : Platform}.

(** From a state in [I], the outcome and the final state of [m] are in
    [Q]. *)
Definition hoare {St A : Type} (I : St -> Prop) (m : M P St A)
    (Q : outcome A -> St -> Prop) : Prop :=
  forall s, I s -> Q (value m s) (final m s).

(** [m] keeps the invariant [I], whether it returns or raises. *)
Definition keeps {St A : Type} (I : St -> Prop) (m : M P St A) : Prop :=
  hoare I m (fun _ s => I s).

(** Invariants on the list [mail_records]. *)
Definition on_records (J : list (record P) -> Prop)
    (s : state P * frame P) : Prop :=
  J (mail_records (snd s)).


Definition frame_of (m : bool) (recs : list (record P)) : frame P :=
  {| mail := m; mail_records := recs |}.

End Invariants.

(* ================================================================== *)
(** ** Progress along a trace *)
(* ================================================================== *)

Section Progress.

Context {P : Platform}.

(** [lo <= x1 <= x2 <= ... <= xn <= hi] *)
Fixpoint climbs (lo : Z) (l : list Z) (hi : Z) : Prop :=
  match l with
  | [] => lo <= hi
  | x :: rest => lo <= x /\ climbs x rest hi
  end.






(** Whatever [m] returns satisfies [Q]. *)
Definition returns_only {St A : Type} (Q : A -> Prop) (m : M P St A)
    : Prop :=
  forall s a, value m s = Ok a -> Q a.



End Progress.
(* ================================================================== *)
(** ** Scripted platforms *)
(* ================================================================== *)

(** Platforms for concrete runs.  The state counts the sessions opened
    so far and remembers the selected mailbox; the script answers a
    command from these two.  Dates are kept as their text, every
    charset but [x-unknown] decodes byte by byte, and the remaining
    helpers return their argument. *)
Module Scripted.

Record st : Type := {
  opened : nat;
  selected : pystr
}.

Definition start : st := {| opened := 0; selected := [] |}.

Definition step (s : st) (c : command) : st :=
  match c with
  | IMAP4_SSL _ => {| opened := S (opened s); selected := [] |}
  | Select mailbox => {| opened := opened s; selected := mailbox |}
  | _ => s
  end.

Definition platform
    (script : nat -> pystr -> command -> outcome reply)
    (token : outcome response)
    (parse : bytes -> message) : Platform :=
  {| state := st;
     datetime := pystr;
     imap := fun s c => (step s c, script (opened (step s c)) (selected s) c);
     requests_post := fun s _ _ => (s, token);
     db_update_email_token := fun s _ _ => (s, Ok tt);
     db_add_mail_record := fun s _ _ _ _ _ => (s, Ok true);
     db_update_check_time := fun s _ => (s, Ok tt);
     message_from_bytes := parse;
     decode_mime_words := fun x => x;
     parsedate_tz :=
       fun x => if startswith x (u "?") then None else Some x;
     isoformat := fun x => x;
     bytes_decode :=
       fun charset payload =>
         if pystr_eqb charset (u "x-unknown") then None
         else Some (map Byte.to_N payload);
     normalize_check_time := fun x => x;
     format_date_for_imap_search := fun x => x |}.

Definition plain_headers : headers :=
  {| h_subject := None; h_from := None; h_date := None;
     h_content_type := u "text/plain"; h_content_disposition := None;
     h_filename := None; h_charset := None |}.

(** A body part of the given content type. *)
Definition body_part (content_type : pystr) (text : string) : message :=
  Leaf {| h_subject := None; h_from := None; h_date := None;
          h_content_type := content_type; h_content_disposition := None;
          h_filename := None; h_charset := None |}
       (u text) (Some (b text)).

(** An attached file. *)
Definition attached (content_type : pystr) (name text : string) : message :=
  Leaf {| h_subject := None; h_from := None; h_date := None;
          h_content_type := content_type;
          h_content_disposition :=
            Some (u "attachment; filename=" ++ u name);
          h_filename := Some (u name); h_charset := None |}
       (u text) (Some (b text)).

(** A multipart message with its top-level headers. *)
Definition envelope (subject from : string) (date : option pystr)
    (content_type : string) (parts : list message) : message :=
  Multipart
    {| h_subject := Some (u subject); h_from := Some (u from);
       h_date := date;
       h_content_type := u content_type; h_content_disposition := None;
       h_filename := None; h_charset := None |}
    parts.

Definition account (P : Platform) : email_info P :=
  {| info_id := 7;
     info_email := u "user@outlook.com";
     info_refresh_token := u "refresh";
     info_client_id := u "client";
     info_last_check_time := None |}.

Definition token_ok : outcome response :=
  Ok (Ok [(u "access_token", Some (u "tok"))]).

(** A server that answers [OK] with no data to everything. *)
Definition quiet : Platform :=
  platform (fun _ _ _ => Ok (OK, [])) token_ok
    (fun _ => Leaf plain_headers [] None).

Definition a_date : option pystr :=
  Some (u "Mon, 1 Jan 2024 00:00:00 +0000").

(** A plain-text body with an HTML alternative of white space only. *)
Definition blank_html_message : message :=
  envelope "hi" "a@b.c" a_date "multipart/alternative"
    [body_part text_plain "hello"; body_part text_html "   "].

Definition html_with_attachment : message :=
  envelope "hi" "a@b.c" a_date "multipart/mixed"
    [body_part text_plain "hello"; body_part text_html "<p>hello</p>";
     attached (u "application/pdf") "report.pdf" "%PDF"].

Definition plain_with_attachment : message :=
  envelope "hi" "a@b.c" a_date "multipart/mixed"
    [body_part text_plain "hello";
     attached (u "application/pdf") "report.pdf" "%PDF"].

(** The token endpoint answers with an error. *)
Definition refused : Platform :=
  platform (fun _ _ _ => Ok (OK, []))
    (Ok (Ok [(u "error", Some (u "invalid_grant"))]))
    (fun _ => Leaf plain_headers [] None).

(** A message with a subject, a date header and a plain-text body. *)
Definition letter (subject : string) (date : option pystr) : message :=
  Leaf {| h_subject := Some (u subject); h_from := Some (u "a@b.c");
          h_date := date; h_content_type := text_plain;
          h_content_disposition := None; h_filename := None;
          h_charset := None |}
       (u "hello") (Some (b "hello")).

Definition is_id (raw : bytes) (id : string) : bool :=
  pystr_eqb (map Byte.to_N raw) (u id).

(** A server with no junk folder whose inbox search answers [ids];
    the text of a message is its identifier. *)
Definition inbox_script (ids : string) (n : nat) (sel : pystr)
    (c : command) : outcome reply :=
  match c with
  | Select mailbox =>
      if pystr_eqb mailbox INBOX then Ok (OK, [IBytes (b "3")])
      else Ok (u "NO", [IBytes (b "no such mailbox")])
  | Search _ => Ok (OK, [IBytes (b ids)])
  | Fetch id _ => Ok (OK, [ITuple id id; IBytes (b ")")])
  | _ => Ok (OK, [])
  end.

(** Messages 1 and 2 have the same subject, sender and date. *)
Definition twice : Platform :=
  platform (inbox_script "1 2 3") token_ok
    (fun raw =>
       if is_id raw "3" then letter "other" a_date else letter "hi" a_date).

(** Message 1 has no [Date] header. *)
Definition undated : Platform :=
  platform (inbox_script "1 2") token_ok
    (fun raw =>
       if is_id raw "1" then letter "no date" None
       else letter "dated" a_date).

Definition junk_email : pystr := u "Junk Email".
Definition junk : pystr := u "Junk".

(** Every mailbox selects; the search in [Junk Email] raises, the
    folder [Junk] holds message 5, the inbox is empty. *)
Definition junk_search_fails : Platform :=
  platform
    (fun n sel c =>
       match c with
       | Search _ =>
           if pystr_eqb sel junk_email then Raise (u "socket error: EOF")
           else if pystr_eqb sel junk then Ok (OK, [IBytes (b "5")])
           else Ok (OK, [IBytes (b "")])
       | _ => Ok (OK, [])
       end)
    token_ok (fun _ => letter "hi" a_date).

(** In the first session [Junk Email] holds message 1 and the inbox
    cannot be selected; in the second [Junk Email] is not there,
    [Junk] holds message 5 and the inbox is empty. *)
Definition two_sessions : Platform :=
  platform
    (fun n sel c =>
       match c with
       | Select mailbox =>
           if pystr_eqb mailbox INBOX
           then match n with
                | 1%nat => Raise (u "socket error: EOF")
                | _ => Ok (OK, [IBytes (b "0")])
                end
           else if pystr_eqb mailbox junk_email
           then match n with
                | 1%nat => Ok (OK, [IBytes (b "1")])
                | _ => Ok (u "NO", [IBytes (b "no such mailbox")])
                end
           else if pystr_eqb mailbox junk
           then Ok (OK, [IBytes (b "1")])
           else Ok (u "NO", [IBytes (b "no such mailbox")])
       | Search _ =>
           if pystr_eqb sel junk_email then Ok (OK, [IBytes (b "1")])
           else if pystr_eqb sel junk then Ok (OK, [IBytes (b "5")])
           else Ok (OK, [IBytes (b "")])
       | _ => Ok (OK, [])
       end)
    token_ok (fun _ => letter "hi" a_date).


(** An open, authenticated session with no record yet. *)
Definition in_session (P : Platform) (w : state P)
    : state P * frame P :=
  (w, frame_of true []).

(** No session can be opened. *)
Definition unreachable : Platform :=
  platform
    (fun n sel c =>
       match c with
       | IMAP4_SSL _ => Raise (u "[Errno 111] Connection refused")
       | _ => Ok (OK, [])
       end)
    token_ok (fun _ => letter "hi" a_date).

End Scripted.

(* ================================================================== *)
(** ** The handler object *)
(* ================================================================== *)

(** [s.split(sep)] for a separator of one character: the pieces
    between the occurrences of [sep], one more than there are
    occurrences. *)
Fixpoint split_on (sep : N) (s : pystr) : list pystr :=
  match s with
  | [] => [[]]
  | c :: s' =>
      if (c =? sep)%N then [] :: split_on sep s'
      else match split_on sep s' with
           | piece :: pieces => (c :: piece) :: pieces
           | [] => [[c]]
           end
  end.

(** [s.split()] on a [str]: the words between runs of white space. *)
Fixpoint str_split_aux (cur : pystr) (s : pystr) : list pystr :=
  match s with
  | [] => match cur with [] => [] | _ => [rev cur] end
  | c :: s' =>
      if isspace c
      then match cur with
           | [] => str_split_aux [] s'
           | _ => rev cur :: str_split_aux [] s'
           end
      else str_split_aux (c :: cur) s'
  end.

Definition str_split (s : pystr) : list pystr := str_split_aux [] s.

(** [x in l] for a list of [str]. *)
Definition str_in (x : pystr) (l : list pystr) : bool :=
  existsb (pystr_eqb x) l.

(** [x <= y] on [str]: the order of the code points, a prefix first. *)
Fixpoint str_leb (x y : pystr) : bool :=
  match x, y with
  | [], _ => true
  | _ :: _, [] => false
  | a :: x', c :: y' =>
      if (a <? c)%N then true
      else if (c <? a)%N then false
      else str_leb x' y'
  end.

Fixpoint insert_sorted (x : pystr) (l : list pystr) : list pystr :=
  match l with
  | [] => [x]
  | y :: l' => if str_leb x y then x :: l else y :: insert_sorted x l'
  end.

(** [sorted(l)] for a list of [str]. *)
Definition sorted (l : list pystr) : list pystr :=
  fold_right insert_sorted [] l.

(** [l[start:]] *)
Definition slice_from {A : Type} (start : Z) (l : list A) : list A :=
  let n := Z.of_nat (length l) in
  let start := if start <? 0 then Z.max (n + start) 0 else Z.min start n in
  skipn (Z.to_nat start) l.

(** What the methods of a handler object take from outside besides the
    platform: the [LIST] command of the session, over the state of the
    services, and [bytes.decode('utf-8', errors='ignore')]. *)
Record Listing (P : Platform) : Type := {
  imap_list : state P -> state P * outcome reply;
  decode_ignore : bytes -> pystr
}.

Arguments imap_list {P} l w.
Arguments decode_ignore {P} l raw.

Module Handler.

Section Methods.

Context (P : Platform) (L : Listing P).

(** The attributes of an [OutlookMailHandler]; [self_mail] tells
    whether [self.mail] is a session or [None]. *)
Record handler : Type := {
  self_email_address : pystr;
  self_access_token : pystr;
  self_mail : bool;
  self_error : option pystr
}.

(** One element of the list that [get_messages] returns. *)
Record mail_dict : Type := {
  d_subject : pystr;
  d_sender : pystr;
  d_received_time : datetime P;
  d_content : pystr;
  d_folder : pystr
}.

Definition H (A : Type) : Type := M P (state P * handler) A.

Notation "x <- m ;; k" := (bind m (fun x => k))
  (at level 61, m at next level, right associativity).
Notation "' pat <- m ;; k" :=
  (bind m (fun x => match x with pat => k end))
  (at level 61, pat pattern, m at next level, right associativity).
Notation "m ;; k" := (bind m (fun _ => k))
  (at level 61, right associativity).

Definition __init__ (email_address access_token : pystr) : handler :=
  {| self_email_address := email_address;
     self_access_token := access_token;
     self_mail := false;
     self_error := None |}.

Definition get_self : H handler :=
  fun s => (Ok (snd s), s, []).

(** [self.mail = ...] *)
Definition set_mail (bound : bool) : H unit :=
  fun s =>
    (Ok tt,
     (fst s,
      {| self_email_address := self_email_address (snd s);
         self_access_token := self_access_token (snd s);
         self_mail := bound;
         self_error := self_error (snd s) |}),
     []).

(** [self.error = ...] *)
Definition set_error (e : option pystr) : H unit :=
  fun s =>
    (Ok tt,
     (fst s,
      {| self_email_address := self_email_address (snd s);
         self_access_token := self_access_token (snd s);
         self_mail := self_mail (snd s);
         self_error := e |}),
     []).

(** A call on the session [self.mail]. *)
Definition mail_call (c : command) : H reply :=
  fun s =>
    match imap P (fst s) c with
    | (w, r) => (r, (w, snd s), [EvImap c r])
    end.

(** [self.mail.list()] *)
Definition mail_list_call : H reply :=
  fun s =>
    match imap_list L (fst s) with
    | (w, r) => (r, (w, snd s), [])
    end.

(** *** [connect] *)

Definition connect : H bool :=
  try_except
    (_ <- mail_call (IMAP4_SSL host) ;;
     set_mail true ;;
     self <- get_self ;;
     let auth_string :=
       generate_auth_string (self_email_address self)
         (self_access_token self) in
     _ <- mail_call (Authenticate XOAUTH2 auth_string) ;;
     ret true)
    (fun e =>
       set_error (Some e) ;;
       logger ERROR (LogMessage (u "Outlook连接失败: " ++ e)) ;;
       ret false).

(** *** [get_folders] *)

(** The loop variable [folder] after [folder.decode] on [bytes];
    another value goes on as it is, and has no [split]. *)
Definition folder_text (folder : item) : outcome pystr :=
  match folder with
  | IBytes raw => Ok (decode_ignore L raw)
  | INone => Raise (u "'NoneType' object has no attribute 'split'")
  | ITuple _ _ => Raise (u "'tuple' object has no attribute 'split'")
  end.

(** [parts[-2]] when the line has three pieces or more around its
    double quotes, the last word of the line otherwise. *)
Definition folder_name_of (folder : pystr) : outcome pystr :=
  let parts := split_on 34 folder in
  if (3 <=? length parts)%nat
  then Ok (nth (length parts - 2) parts [])
  else match rev (str_split folder) with
       | word :: _ => Ok word
       | [] => Raise (u "list index out of range")
       end.

Definition dots : list pystr := [u "."; u ".."].

(** [for folder in folders] *)
Fixpoint scan_folders (folders : list item) (folder_list : list pystr)
    : outcome (list pystr) :=
  match folders with
  | [] => Ok folder_list
  | folder :: rest =>
      match folder_text folder with
      | Raise e => Raise e
      | Ok folder =>
          match folder_name_of folder with
          | Raise e => Raise e
          | Ok folder_name =>
              scan_folders rest
                (if truthy folder_name && negb (str_in folder_name dots)
                 then folder_list ++ [folder_name]
                 else folder_list)
          end
      end
  end.

Definition default_folders : list pystr :=
  [u "inbox"; u "sentitems"; u "drafts"; u "deleteditems"; u "junkemail"].

(** [for df in default_folders] *)
Definition add_defaults (folder_list : list pystr) : list pystr :=
  fold_left
    (fun folder_list df =>
       if negb (str_in df folder_list) then folder_list ++ [df]
       else folder_list)
    default_folders folder_list.

Definition get_folders : H (list pystr) :=
  self <- get_self ;;
  if negb (self_mail self) then ret []
  else
    try_except
      ('(_, folders) <- mail_list_call ;;
       folder_list <- lift_outcome (scan_folders folders []) ;;
       ret (sorted (add_defaults folder_list)))
      (fun e =>
         logger ERROR (LogMessage (u "获取Outlook文件夹列表失败: " ++ e)) ;;
         ret [u "inbox"]).

(** *** [get_messages] *)

(** [message_numbers[-limit:] if len(message_numbers) > limit else
    message_numbers] *)
Definition limited (limit : Z) (message_numbers : list bytes)
    : list bytes :=
  if limit <? Z.of_nat (length message_numbers)
  then slice_from (- limit) message_numbers
  else message_numbers.

(** [email.message_from_bytes(msg_data[0][1])]: the second member
    of a pair; a member of a [bytes] value is an [int], which the
    parser cannot decode. *)
Definition email_body (msg_data : list item) : outcome message :=
  match msg_data with
  | ITuple _ raw :: _ => Ok (message_from_bytes P raw)
  | IBytes x :: _ =>
      if (2 <=? length x)%nat
      then Raise (u "'int' object has no attribute 'decode'")
      else Raise (u "index out of range")
  | INone :: _ => Raise (u "'NoneType' object is not subscriptable")
  | [] => Raise (u "list index out of range")
  end.

(** The body of [try] inside [for num in message_numbers], up to
    the dictionary that is appended. *)
Definition read_message (folder : pystr) (num : bytes) : H mail_dict :=
  '(_, msg_data) <- mail_call (Fetch num RFC822) ;;
  msg <- lift_outcome (email_body msg_data) ;;
  let h := msg_headers msg in
  let subject_ := decode_mime_words P (get_or_empty (h_subject h)) in
  let sender_ := decode_mime_words P (get_or_empty (h_from h)) in
  received_time_ <-
    lift_outcome (parsedate_to_datetime P (get_or_empty (h_date h))) ;;
  let content_ := _extract_rich_content P msg in
  ret {| d_subject := subject_;
         d_sender := sender_;
         d_received_time := received_time_;
         d_content := content_;
         d_folder := folder |}.

Fixpoint messages_loop (folder : pystr) (message_numbers : list bytes)
    (mail_list : list mail_dict) : H (list mail_dict) :=
  match message_numbers with
  | [] => ret mail_list
  | num :: rest =>
      mail_list <-
        try_except
          (d <- read_message folder num ;;
           ret (mail_list ++ [d]))
          (fun e =>
             logger WARNING (LogMessage (u "解析Outlook邮件失败: " ++ e)) ;;
             ret mail_list) ;;
      messages_loop folder rest mail_list
  end.

(** [get_messages(self, folder="inbox", limit=100)] *)
Definition get_messages (folder : pystr) (limit : Z)
    : H (list mail_dict) :=
  self <- get_self ;;
  if negb (self_mail self) then ret []
  else
    try_except
      (_ <- mail_call (Select folder) ;;
       '(_, messages) <- mail_call (Search ALL) ;;
       message_numbers <- lift_outcome (first_split messages) ;;
       let message_numbers := limited limit message_numbers in
       let message_numbers := rev message_numbers in
       messages_loop folder message_numbers [])
      (fun e =>
         logger ERROR (LogMessage (u "获取Outlook邮件失败: " ++ e)) ;;
         ret []).

(** *** [close] *)

Definition close : H unit :=
  self <- get_self ;;
  if self_mail self
  then
    try_except (_ <- mail_call Logout ;; ret tt) (fun _ => ret tt) ;;
    set_mail false
  else ret tt.

End Methods.

Arguments d_subject {P} m.
Arguments d_sender {P} m.
Arguments d_received_time {P} m.
Arguments d_content {P} m.
Arguments d_folder {P} m.

End Handler.

(* ================================================================== *)
(** ** What the handler object reads *)
(* ================================================================== *)

Section Listed.

Context (P : Platform).

(** The dictionary that the reply to one [fetch] command stands for
    in [get_messages], when the message can be read. *)
Definition dict_of_reply (folder : pystr) (r : outcome reply)
    : outcome (Handler.mail_dict P) :=
  match r with
  | Raise e => Raise e
  | Ok (_, msg_data) =>
      match Handler.email_body P msg_data with
      | Raise e => Raise e
      | Ok msg =>
          let h := msg_headers msg in
          match parsedate_to_datetime P (get_or_empty (h_date h)) with
          | Raise e => Raise e
          | Ok d =>
              Ok {| Handler.d_subject :=
                      decode_mime_words P (get_or_empty (h_subject h));
                    Handler.d_sender :=
                      decode_mime_words P (get_or_empty (h_from h));
                    Handler.d_received_time := d;
                    Handler.d_content := _extract_rich_content P msg;
                    Handler.d_folder := folder |}
          end
      end
  end.

(** The dictionaries that the fetches of a trace stand for, in
    order. *)
Definition listed (folder : pystr) (t : list (event P))
    : list (Handler.mail_dict P) :=
  flat_map
    (fun e =>
       match e with
       | EvImap (Fetch _ _) r =>
           match dict_of_reply folder r with
           | Ok d => [d]
           | Raise _ => []
           end
       | _ => []
       end)
    t.

(** The warnings of a trace. *)
Definition is_warning (e : event P) : bool :=
  match e with EvLog WARNING _ => true | _ => false end.

(** The log line of a [get_messages] that gave up. *)
Definition get_messages_failed (e : exn) : event P :=
  EvLog ERROR (LogMessage (u "获取Outlook邮件失败: " ++ e)).

(** The events of one turn of the loop of [get_messages]. *)
Definition listing_turn (folder : pystr) (num : bytes) (r : outcome reply)
    : list (event P) :=
  EvImap (Fetch num RFC822) r
  :: match dict_of_reply folder r with
     | Ok _ => []
     | Raise e =>
         [EvLog WARNING (LogMessage (u "解析Outlook邮件失败: " ++ e))]
     end.

End Listed.

Arguments get_messages_failed {P} e.

Section Folders.

Context (P : Platform) (L : Listing P).

(** A name that [get_folders] accepts. *)
Definition listable (name : pystr) : Prop :=
  name <> [] /\ name <> u "." /\ name <> u "..".

(** The log line of a [get_folders] that gave up. *)
Definition get_folders_failed (e : exn) : event P :=
  EvLog ERROR (LogMessage (u "获取Outlook文件夹列表失败: " ++ e)).

(** The names read from the answer of the server, when every element
    of the listing gives one. *)
Definition folders_of (r : outcome reply) : outcome (list pystr) :=
  match r with
  | Raise e => Raise e
  | Ok (_, folders) => Handler.scan_folders P L folders []
  end.

(** An element of the listing from which no name can be read. *)
Definition unnamed (folder : item) : bool :=
  match Handler.folder_text P L folder with
  | Raise _ => true
  | Ok line =>
      match Handler.folder_name_of line with
      | Raise _ => true
      | Ok _ => false
      end
  end.

End Folders.

Arguments get_folders_failed {P} e.

(* ================================================================== *)
(** ** The traffic with the store and with the server *)
(* ================================================================== *)

Section Traffic.

Context {P : Platform}.

(** The calls of [db.add_mail_record] in a trace, by their
    arguments. *)
Definition added (t : list (event P))
    : list (Z * pystr * pystr * option (datetime P) * pystr) :=
  flat_map
    (fun e =>
       match e with
       | EvAddRecord id s f d c _ => [(id, s, f, d, c)]
       | _ => []
       end)
    t.

(** A call of [db.add_mail_record] that returned a true value. *)
Definition is_saved (e : event P) : bool :=
  match e with EvAddRecord _ _ _ _ _ (Ok true) => true | _ => false end.

Definition is_check_time_update (e : event P) : bool :=
  match e with EvUpdateCheckTime _ _ => true | _ => false end.

Definition is_token_update (e : event P) : bool :=
  match e with EvUpdateToken _ _ _ => true | _ => false end.

Definition is_logout (e : event P) : bool :=
  match e with EvImap Logout _ => true | _ => false end.

(** The arguments that [check_mail] passes for one record. *)
Definition store_arguments (email_id : Z) (r : record P)
    : Z * pystr * pystr * option (datetime P) * pystr :=
  (email_id, subject r, sender r, received_time r, content r).

(** What the engine emits besides its calls of the store. *)
Definition engine_event (e : event P) : Prop :=
  match e with
  | EvProgress _ _ | EvSleep _ | EvImap _ _ | EvLog _ _ => True
  | _ => False
  end.

End Traffic.

(* ================================================================== *)
(** ** Deletions on the server *)
(* ================================================================== *)

Section Deletions.

Context {P : Platform}.

Definition deleted_flag : pystr := u "\Deleted".
Definition add_flags : pystr := u "+FLAGS".

(** A command that removes messages from a mailbox: [store], which
    the engine uses to flag them as deleted, and [expunge]. *)
Definition deletes (e : event P) : bool :=
  match e with
  | EvImap (Store _ _ _) _ => true
  | EvImap Expunge _ => true
  | _ => false
  end.

(** A [store] is licensed by a copy of the same messages to the inbox
    that answered [OK] just before it, an [expunge] by a [store] that
    returned just before it. *)
Definition licensed (prev : option (event P)) (e : event P) : Prop :=
  match e with
  | EvImap (Store ids cmd flags) _ =>
      cmd = add_flags /\ flags = deleted_flag
      /\ exists data, prev = Some (EvImap (Copy ids INBOX) (Ok (OK, data)))
  | EvImap Expunge _ =>
      exists ids r,
        prev = Some (EvImap (Store ids add_flags deleted_flag) (Ok r))
  | _ => True
  end.

Fixpoint copies_first (prev : option (event P)) (t : list (event P))
    : Prop :=
  match t with
  | [] => True
  | e :: rest => licensed prev e /\ copies_first (Some e) rest
  end.

(** Every deletion of [m] is licensed, from every state. *)
Definition careful {St A : Type} (m : M P St A) : Prop :=
  forall s, copies_first None (events m s).

(** The last event of a trace. *)
Definition last_event (t : list (event P)) : option (event P) :=
  match rev t with
  | e :: _ => Some e
  | [] => None
  end.

End Deletions.

(* ================================================================== *)
(** ** Records, sessions and parts *)
(* ================================================================== *)

Section Batches.

Context {P : Platform}.

(** A record as the message loop builds it. *)
Definition shaped (r : record P) : Prop :=
  folder r = INBOX
  /\ exists d,
       received_time r = Some d
       /\ mail_key r
          = subject r ++ u "|" ++ sender r ++ u "|" ++ isoformat P d.

(** What the message loop can leave from an empty list. *)
Definition batch (recs : list (record P)) : Prop :=
  Forall shaped recs /\ (length recs <= 100)%nat.

(** An event before the inbox is read: no message is fetched, no
    session is closed, nobody waits. *)
Definition before_inbox (e : event P) : Prop :=
  match e with
  | EvImap (Fetch _ _) _ => False
  | EvImap Logout _ => False
  | EvSleep _ => False
  | EvLog _ (LogImapError _ _ _) => False
  | _ => True
  end.

(** The search command for the messages since a date. *)
Definition since_command (d : datetime P) : pystr :=
  u "(SINCE " ++ [34%N] ++ format_date_for_imap_search P d ++ [34%N]
  ++ u ")".

(** A session that was opened. *)
Definition is_opened (e : event P) : bool :=
  match e with EvImap (IMAP4_SSL _) (Ok _) => true | _ => false end.

(** The name [mail] is bound. *)
Definition bound (s : state P * frame P) : Prop := mail (snd s) = true.

End Batches.

(** The parts that are no containers. *)
Definition leaf_parts (parts : list message) : list message :=
  filter (fun m => negb (is_multipart m)) parts.

(** The inner progress of the message loop, computed for every inbox of
    [n] messages: it stays between 40 and 89, it does not decrease, and
    it is the exact value [40 + 50 * i // n] or one less. *)
Definition inbox_progress_checked (n : nat) : bool :=
  forallb
    (fun i =>
       let x := inbox_progress (Z.of_nat i) (Z.of_nat n) in
       let exact := 40 + (50 * Z.of_nat i) / Z.of_nat n in
       (40 <=? x) && (x <=? 89)
       && (x <=? inbox_progress (Z.of_nat (S i)) (Z.of_nat n))
       && (exact - 1 <=? x) && (x <=? exact))
    (seq 0 n).

(** The outer progress at the inner progress [p]: it is
    [10 + 4 * p // 5]. *)
Definition total_progress_checked (p : nat) : bool :=
  total_progress (Z.of_nat p) =? 10 + (4 * Z.of_nat p) / 5.

(* ================================================================== *)
(** ** More scripted platforms *)
(* ================================================================== *)

Module Cases.

(** A handler that holds a session. *)
Definition session_of (P : Platform) (w : state P)
    : state P * Handler.handler :=
  (w, {| Handler.self_email_address := u "a@b.c";
         Handler.self_access_token := u "t";
         Handler.self_mail := true;
         Handler.self_error := None |}).

(** A server whose [LIST] answers [folders]; the lines are ASCII. *)
Definition listing_of (folders : list item) : Listing Scripted.quiet :=
  {| imap_list := fun w => (w, Ok (OK, folders));
     decode_ignore := fun raw => map Byte.to_N raw |}.

(** The parts of [Scripted.html_with_attachment], the two bodies
    inside a container of their own. *)
Definition nested_message : message :=
  Scripted.envelope "hi" "a@b.c" Scripted.a_date "multipart/mixed"
    [Scripted.envelope EmptyString EmptyString None "multipart/alternative"
       [Scripted.body_part text_plain "hello";
        Scripted.body_part text_html "<p>hello</p>"];
     Scripted.attached (u "application/pdf") "report.pdf" "%PDF"].

(** No junk folder, and the search of the inbox is refused. *)
Definition inbox_refused : Platform :=
  Scripted.platform
    (fun n sel c =>
       match c with
       | Select mailbox =>
           if pystr_eqb mailbox INBOX then Ok (OK, [IBytes (b "3")])
           else Ok (u "NO", [IBytes (b "no such mailbox")])
       | Search _ => Ok (u "NO", [IBytes (b "search failed")])
       | _ => Ok (OK, [])
       end)
    Scripted.token_ok
    (fun _ => Scripted.letter "hi" Scripted.a_date).

End Cases.

(* ================================================================== *)
(** ** Facts on strings and on the content scan *)
(* ================================================================== *)

Lemma pystr_eqb_eq : forall x y, pystr_eqb x y = true <-> x = y.
Proof.
  induction x as [|a x IH]; destruct y as [|c y]; simpl; split; intros H;
    try reflexivity; try discriminate.
  - apply andb_true_iff in H. destruct H as [H1 H2].
    apply N.eqb_eq in H1. apply IH in H2. subst. reflexivity.
  - injection H as -> ->. rewrite N.eqb_refl. simpl. apply IH. reflexivity.
Qed.

Lemma pystr_eqb_refl : forall x, pystr_eqb x x = true.
Proof. intros x. apply pystr_eqb_eq. reflexivity. Qed.

Section ExtractFacts.
Context (P : Platform).

Lemma text_types_differ : pystr_eqb text_html text_plain = false.
Proof. reflexivity. Qed.

Lemma scan_part_fields : forall acc part,
  text_content (scan_part P acc part)
    = text_content acc ++ concat (texts_of_type P text_plain [part])
  /\ html_content (scan_part P acc part)
    = html_content acc ++ concat (texts_of_type P text_html [part])
  /\ attachments (scan_part P acc part)
    = attachments acc ++ map (decode_mime_words P) (filenames [part]).
Proof.
  intros acc part. unfold scan_part, texts_of_type, filenames, part_text.
  simpl flat_map. repeat rewrite app_nil_r.
  set (h := msg_headers part).
  assert (Hty : pystr_eqb (h_content_type h) text_html = true ->
                pystr_eqb (h_content_type h) text_plain = false).
  { intros E. apply pystr_eqb_eq in E. rewrite E. reflexivity. }
  destruct (h_filename h) as [name|]; [destruct (truthy name)|];
    destruct (contains attachment (str_of_optional (h_content_disposition h)));
    simpl;
    try (destruct (pystr_eqb (h_content_type h) text_html) eqn:Eh;
         [rewrite (Hty eq_refl)|];
         destruct (pystr_eqb (h_content_type h) text_plain) eqn:Ep);
    try (destruct (get_payload_decoded part) as [payload|];
         [destruct (truthy payload);
          [destruct (bytes_decode P (charset_of h) payload)|]|]);
    simpl; repeat rewrite app_nil_r; try rewrite Eh; try rewrite Ep;
    try rewrite (Hty eq_refl); simpl; repeat rewrite app_nil_r;
    auto; try discriminate.
Qed.

Lemma texts_of_type_cons : forall ct part parts,
  texts_of_type P ct (part :: parts)
  = texts_of_type P ct [part] ++ texts_of_type P ct parts.
Proof.
  intros. unfold texts_of_type. simpl. rewrite app_nil_r. reflexivity.
Qed.

Lemma filenames_cons : forall part parts,
  filenames (part :: parts) = filenames [part] ++ filenames parts.
Proof.
  intros. unfold filenames. simpl. rewrite app_nil_r. reflexivity.
Qed.

Lemma scan_fold_fields : forall parts acc,
  text_content (fold_left (scan_part P) parts acc)
    = text_content acc ++ concat (texts_of_type P text_plain parts)
  /\ html_content (fold_left (scan_part P) parts acc)
    = html_content acc ++ concat (texts_of_type P text_html parts)
  /\ attachments (fold_left (scan_part P) parts acc)
    = attachments acc ++ map (decode_mime_words P) (filenames parts).
Proof.
  induction parts as [|part parts IH]; intros acc.
  - simpl. repeat rewrite app_nil_r. auto.
  - simpl fold_left.
    destruct (IH (scan_part P acc part)) as (Ht & Hh & Ha).
    destruct (scan_part_fields acc part) as (Ht1 & Hh1 & Ha1).
    rewrite Ht, Hh, Ha, Ht1, Hh1, Ha1.
    rewrite (texts_of_type_cons text_plain part parts).
    rewrite (texts_of_type_cons text_html part parts).
    rewrite (filenames_cons part parts).
    repeat rewrite concat_app. rewrite map_app.
    repeat rewrite app_assoc. repeat split; reflexivity.
Qed.

Lemma scan_multipart : forall msg,
  is_multipart msg = true ->
  text_content (scan P msg) = plain_body P msg
  /\ html_content (scan P msg) = html_body P msg
  /\ attachments (scan P msg) = attachment_names P msg.
Proof.
  intros msg Hm. unfold scan. rewrite Hm.
  destruct (scan_fold_fields (walk msg) no_buffers) as (Ht & Hh & Ha).
  rewrite Ht, Hh, Ha. auto.
Qed.

Lemma truthy_footer : forall html names,
  footer html names
  = if truthy names
    then if html then html_footer names else text_footer names
    else [].
Proof. intros html [|n names]; reflexivity. Qed.

End ExtractFacts.

(* ================================================================== *)
(** ** Facts on computations and their traces *)
(* ================================================================== *)

Section MonadFacts.
Context {P : Platform}.

Lemma emits_ret : forall St A (Q : event P -> Prop) (a : A),
  emits Q (ret a : M P St A).
Proof. intros St A Q a s. constructor. Qed.

Lemma emits_raise : forall St A (Q : event P -> Prop) e,
  emits Q (raise e : M P St A).
Proof. intros St A Q e s. constructor. Qed.

Lemma emits_lift_outcome : forall St A (Q : event P -> Prop) (r : outcome A),
  emits Q (lift_outcome r : M P St A).
Proof. intros St A Q r s. constructor. Qed.

Lemma emits_emit : forall St (Q : event P -> Prop) evs,
  Forall Q evs -> emits Q (emit evs : M P St unit).
Proof. intros St Q evs H s. exact H. Qed.

Lemma emits_logger : forall St (Q : event P -> Prop) l m,
  Q (EvLog l m) -> emits Q (logger l m : M P St unit).
Proof. intros St Q l m H s. constructor; [exact H | constructor]. Qed.

Lemma emits_call : forall St (Q : event P -> Prop) cb p m,
  (forall p' m', Q (EvProgress p' m')) ->
  emits Q (call cb p m : M P St unit).
Proof.
  intros St Q cb p m H s. unfold events, call, emit. simpl.
  induction (cb p m) as [|x l IH]; simpl; constructor; auto.
Qed.

Lemma emits_bind : forall St A B (Q : event P -> Prop)
    (m : M P St A) (k : A -> M P St B),
  emits Q m -> (forall a, emits Q (k a)) -> emits Q (bind m k).
Proof.
  intros St A B Q m k Hm Hk s. unfold events, bind.
  specialize (Hm s). unfold events in Hm.
  destruct (m s) as [[[a|e] s1] t1]; simpl in *; [|exact Hm].
  specialize (Hk a s1). unfold events in Hk.
  destruct (k a s1) as [[r s2] t2]. simpl in *.
  apply Forall_app. split; assumption.
Qed.

Lemma emits_try_except : forall St A (Q : event P -> Prop)
    (m : M P St A) (h : exn -> M P St A),
  emits Q m -> (forall e, emits Q (h e)) -> emits Q (try_except m h).
Proof.
  intros St A Q m h Hm Hh s. unfold events, try_except.
  specialize (Hm s). unfold events in Hm.
  destruct (m s) as [[[a|e] s1] t1]; simpl in *; [exact Hm|].
  specialize (Hh e s1). unfold events in Hh.
  destruct (h e s1) as [[r s2] t2]. simpl in *.
  apply Forall_app. split; assumption.
Qed.

Lemma emits_try_finally : forall St A (Q : event P -> Prop)
    (m : M P St A) (c : M P St unit),
  emits Q m -> emits Q c -> emits Q (try_finally m c).
Proof.
  intros St A Q m c Hm Hc s. unfold events, try_finally.
  specialize (Hm s). unfold events in Hm.
  destruct (m s) as [[r s1] t1]. simpl in *.
  specialize (Hc s1). unfold events in Hc.
  destruct (c s1) as [[[x|e] s2] t2]; simpl in *;
    apply Forall_app; split; assumption.
Qed.

Lemma emits_imap_call : forall (Q : event P -> Prop) c,
  (forall r, Q (EvImap c r)) -> emits Q (imap_call P c).
Proof.
  intros Q c H s. unfold events, imap_call.
  destruct (imap P (fst s) c) as [w r]. simpl.
  constructor; [apply H | constructor].
Qed.

Lemma emits_get_frame : forall (Q : event P -> Prop), emits Q (get_frame P).
Proof. intros Q s. constructor. Qed.

Lemma emits_bind_mail : forall (Q : event P -> Prop), emits Q (bind_mail P).
Proof. intros Q s. constructor. Qed.

Lemma emits_append_record : forall (Q : event P -> Prop) r,
  emits Q (append_record P r).
Proof. intros Q r s. constructor. Qed.

Lemma emits_sleep : forall (Q : event P -> Prop) n,
  Q (EvSleep n) -> emits Q (sleep P n).
Proof. intros Q n H s. constructor; [exact H | constructor]. Qed.

End MonadFacts.

Ltac emits_leaf :=
  first
    [ apply emits_ret
    | apply emits_raise
    | apply emits_lift_outcome
    | apply emits_get_frame
    | apply emits_bind_mail
    | apply emits_append_record
    | apply emits_logger
    | apply emits_call; intros
    | apply emits_sleep
    | apply emits_imap_call; intros
    | apply emits_emit ].

Ltac emits_step :=
  match goal with
  | |- emits _ (bind _ _) => apply emits_bind; [|intros]
  | |- emits _ (try_except _ _) => apply emits_try_except; [|intros]
  | |- emits _ (try_finally _ _) => apply emits_try_finally
  | |- emits _ (if ?c then _ else _) => destruct c
  | |- emits _ (match ?x with _ => _ end) => destruct x
  | |- emits _ _ => emits_leaf
  end.


Section Orchestrator.
Context (P : Platform).

Variable info : email_info P.
Variable cb : option callback_t.

Let pc := callback_or_none cb.
Let head : list (event P) :=
  [EvLog INFO (LogCheckStart (info_id info) (info_email info))]
  ++ reports_of pc 0 (u "正在获取访问令牌...").

Lemma check_mail_without_token : forall w tok w1 t1,
  get_new_access_token P (info_refresh_token info) (info_client_id info) w
    = (Ok tok, w1, t1) ->
  match tok with Some (_ :: _) => False | _ => True end ->
  let error_msg :=
    mailbox_label (info_email info) (info_id info) ++ u "获取访问令牌失败" in
  check_mail P info cb w
  = (Ok (failure error_msg), w1,
     head ++ t1 ++ [EvLog ERROR (LogMessage error_msg)]
     ++ reports_of pc 0 error_msg).
Proof.
  intros w tok w1 t1 H Hf. 
  cbv [check_mail bind try_except logger call emit ret].
  rewrite H.
  destruct tok as [[|c tok]|]; try contradiction; simpl;
    unfold head, failure, pc, callback_or_none, reports_of;
    rewrite ?app_nil_r, <- ?app_assoc; reflexivity.
Qed.

Lemma check_mail_store_refuses_token : forall w c token w1 t1 e w2 t2,
  get_new_access_token P (info_refresh_token info) (info_client_id info) w
    = (Ok (Some (c :: token)), w1, t1) ->
  update_email_token_call P (info_id info) (c :: token) w1
    = (Raise e, w2, t2) ->
  let error_msg := u "处理邮箱过程中出错: " ++ e in
  check_mail P info cb w
  = (Ok (failure error_msg), w2,
     head ++ t1 ++ t2
     ++ [EvLog ERROR
           (LogMessage (mailbox_label (info_email info) (info_id info)
                        ++ error_msg))]
     ++ reports_of pc 0 error_msg).
Proof.
  intros w c token w1 t1 e w2 t2 H1 H2.
  cbv [check_mail bind try_except logger call emit ret].
  rewrite H1, H2. simpl.
  unfold head, failure, pc, callback_or_none, reports_of.
  destruct cb; simpl; rewrite ?app_nil_r, <- ?app_assoc; reflexivity.
Qed.

Lemma check_mail_completes :
  forall w c token w1 t1 w2 t2 recs w3 t3 n w4 t4 w5 t5,
  get_new_access_token P (info_refresh_token info) (info_client_id info) w
    = (Ok (Some (c :: token)), w1, t1) ->
  update_email_token_call P (info_id info) (c :: token) w1
    = (Ok tt, w2, t2) ->
  fetch_emails P (info_email info) (c :: token) (u "inbox")
    (Some (folder_progress_callback pc)) None w2
    = (Ok recs, w3, t3) ->
  save_loop P (info_id info) recs 0 w3 = (Ok n, w4, t4) ->
  try_except
    (bind (update_check_time_call P (info_id info))
       (fun _ => logger INFO
                   (LogCheckTimeUpdated (info_id info) (info_email info))))
    (fun e => logger ERROR (LogCheckTimeFailed e)) w4
    = (Ok tt, w5, t5) ->
  let count := Z.of_nat (length recs) in
  let success_msg :=
    u "完成，共处理" ++ str_of_int count ++ u "封邮件，新增"
    ++ str_of_int n ++ u "封" in
  check_mail P info cb w
  = (Ok {| success := true; message_ := success_msg;
           total := Some count; saved := Some n |},
     w5,
     head ++ t1 ++ t2 ++ reports_of pc 10 (u "开始获取邮件...") ++ t3
     ++ reports_of pc 90
          (u "获取到" ++ str_of_int count ++ u "封邮件，正在保存...")
     ++ t4 ++ t5 ++ reports_of pc 100 success_msg
     ++ [EvLog INFO
           (LogCheckDone (info_id info) (info_email info) count n)]).
Proof.
  intros w c token w1 t1 w2 t2 recs w3 t3 n w4 t4 w5 t5 H1 H2 H3 H4 H5.
  cbv [check_mail].
  change (match cb with Some f => f | None => no_callback end) with pc.
  cbv [bind try_except logger call emit ret] in *.
  rewrite H1, H2. simpl. rewrite H3. rewrite H4. rewrite H5. simpl.
  unfold head, reports_of.
  rewrite ?app_nil_r, <- ?app_assoc. reflexivity.
Qed.
End Orchestrator.

Section FetchFacts.
Context (P : Platform).
Variables (email_address access_token : pystr) (callback : callback_t).

Lemma emits_weaken : forall St A (Q Q' : event P -> Prop) (m : M P St A),
  emits Q m -> (forall e, Q e -> Q' e) -> emits Q' m.
Proof.
  intros St A Q Q' m H HQ s. eapply Forall_impl; [exact HQ | apply H].
Qed.

Lemma emits_mail_logout : forall Q : event P -> Prop,
  (forall r, Q (EvImap Logout r)) -> emits Q (mail_logout P).
Proof.
  intros Q H. unfold mail_logout. repeat emits_step. apply H.
Qed.

Lemma junk_loop_emits : forall aliases,
  emits fetch_event (junk_loop P aliases).
Proof.
  induction aliases as [|a rest IH]; simpl.
  - apply emits_ret.
  - apply emits_bind; [|intros stop; destruct stop; [apply emits_ret | exact IH]].
    unfold junk_body. repeat emits_step; simpl; auto.
Qed.

Lemma message_loop_emits : forall mail_ids i total_mails,
  emits fetch_event (message_loop P callback i total_mails mail_ids).
Proof.
  induction mail_ids as [|mail_id rest IH]; intros i total_mails; simpl.
  - apply emits_ret.
  - apply emits_bind; [emits_step; exact I|]. intros _.
    apply emits_bind; [|intros _; apply IH].
    unfold process_message. repeat emits_step; simpl; auto.
Qed.

Lemma fetch_in_frame_emits :
  emits fetch_event
    (fetch_emails_in_frame P email_address access_token callback None).
Proof.
  unfold fetch_emails_in_frame. apply emits_bind; [emits_step; exact I|].
  intros _. simpl.
  assert (Ha : forall retry,
    emits fetch_event
      (attempt P email_address access_token callback None retry)).
  { intros retry. unfold attempt, attempt_body, connect, move_junk, fetch_inbox.
    repeat first
      [ apply junk_loop_emits | apply message_loop_emits
      | apply emits_mail_logout; intros | emits_step ];
    simpl; auto. }
  repeat first [ apply Ha | emits_step ].
Qed.
End FetchFacts.

Section Totality.
Context {P : Platform}.

Lemma total_ret : forall St A (a : A), never_raises (ret a : M P St A).
Proof. intros St A a s. exists a. reflexivity. Qed.

Lemma total_emit : forall St evs, never_raises (emit evs : M P St unit).
Proof. intros St evs s. exists tt. reflexivity. Qed.

Lemma total_logger : forall St l m, never_raises (logger l m : M P St unit).
Proof. intros St l m s. exists tt. reflexivity. Qed.

Lemma total_call : forall St cb p m, never_raises (call cb p m : M P St unit).
Proof. intros St cb p m s. exists tt. reflexivity. Qed.

Lemma total_get_frame : never_raises (get_frame P).
Proof. intros s. exists (snd s). reflexivity. Qed.

Lemma total_sleep : forall n, never_raises (sleep P n).
Proof. intros n s. exists tt. reflexivity. Qed.

Lemma total_bind : forall St A B (m : M P St A) (k : A -> M P St B),
  never_raises m -> (forall a, never_raises (k a)) -> never_raises (bind m k).
Proof.
  intros St A B m k Hm Hk s. unfold value, bind.
  destruct (Hm s) as [a Ha]. unfold value in Ha.
  destruct (m s) as [[r s1] t1]. simpl in Ha. subst r.
  destruct (Hk a s1) as [x Hx]. unfold value in Hx.
  destruct (k a s1) as [[r2 s2] t2]. simpl in *. exists x. exact Hx.
Qed.

Lemma total_try_except : forall St A (m : M P St A) (h : exn -> M P St A),
  (forall e, never_raises (h e)) -> never_raises (try_except m h).
Proof.
  intros St A m h Hh s. unfold value, try_except.
  destruct (m s) as [[[a|e] s1] t1]; simpl.
  - exists a. reflexivity.
  - destruct (Hh e s1) as [x Hx]. unfold value in Hx.
    destruct (h e s1) as [[r2 s2] t2]. simpl in *. exists x. exact Hx.
Qed.

Lemma total_try_finally : forall St A (m : M P St A) (c : M P St unit),
  never_raises m -> never_raises c -> never_raises (try_finally m c).
Proof.
  intros St A m c Hm Hc s. unfold value, try_finally.
  destruct (Hm s) as [a Ha]. unfold value in Ha.
  destruct (m s) as [[r s1] t1]. simpl in Ha. subst r.
  destruct (Hc s1) as [x Hx]. unfold value in Hx.
  destruct (c s1) as [[r2 s2] t2]. simpl in *. subst r2. exists a.
  reflexivity.
Qed.

End Totality.

Ltac total_step :=
  match goal with
  | |- never_raises (bind _ _) => apply total_bind; [|intros]
  | |- never_raises (try_except _ _) => apply total_try_except; intros
  | |- never_raises (try_finally _ _) => apply total_try_finally
  | |- never_raises (if ?c then _ else _) => destruct c
  | |- never_raises (match ?x with _ => _ end) => destruct x
  | |- never_raises _ =>
      first [ apply total_ret | apply total_emit | apply total_logger
            | apply total_call | apply total_get_frame | apply total_sleep ]
  end.

Section TotalityOfEngine.
Context (P : Platform).

Lemma junk_loop_total : forall aliases, never_raises (junk_loop P aliases).
Proof.
  induction aliases as [|a rest IH]; simpl; repeat total_step. exact IH.
Qed.

Lemma message_loop_total : forall cb mail_ids i n,
  never_raises (message_loop P cb i n mail_ids).
Proof.
  induction mail_ids as [|x rest IH]; intros i n; simpl; repeat total_step.
  apply IH.
Qed.

Lemma attempt_total : forall e t cb lct retry,
  never_raises (attempt P e t cb lct retry).
Proof.
  intros. unfold attempt. repeat total_step.
Qed.

Lemma retry_loop_total : forall e t cb lct retries,
  never_raises (retry_loop P e t cb lct retries).
Proof.
  induction retries as [|r rest IH]; simpl; repeat total_step;
    first [apply attempt_total | exact IH].
Qed.

Lemma fetch_emails_total : forall e t f cb lct,
  never_raises (fetch_emails P e t f cb lct).
Proof.
  intros e t f cb lct w. unfold value, fetch_emails.
  set (m := fetch_emails_in_frame P e t _ _).
  assert (H : never_raises m).
  { unfold m, fetch_emails_in_frame. repeat total_step.
    apply retry_loop_total. }
  destruct (H (w, {| mail := false; mail_records := [] |})) as [a Ha].
  unfold value in Ha. destruct (m _) as [[r s] tr]. simpl in *.
  exists a. exact Ha.
Qed.

Lemma save_loop_total : forall id recs n, never_raises (save_loop P id recs n).
Proof.
  induction recs as [|r rest IH]; intros n; simpl; repeat total_step.
  apply IH.
Qed.

Lemma get_new_access_token_total : forall rt cid,
  never_raises (get_new_access_token P rt cid).
Proof. intros. unfold get_new_access_token. repeat total_step. Qed.

Lemma check_mail_total : forall info cb, never_raises (check_mail P info cb).
Proof. intros. unfold check_mail. repeat total_step. Qed.

End TotalityOfEngine.

Section Services.
Context (P : Platform).

Lemma emits_requests_post_call : forall (Q : event P -> Prop) url data,
  (forall r, Q (EvPost url data r)) -> emits Q (requests_post_call P url data).
Proof.
  intros Q url data H w. unfold events, requests_post_call.
  destruct (requests_post P w url data) as [w' r]. simpl.
  constructor; [apply H | constructor].
Qed.

Lemma emits_update_email_token_call : forall (Q : event P -> Prop) id tok,
  (forall r, Q (EvUpdateToken id tok r)) ->
  emits Q (update_email_token_call P id tok).
Proof.
  intros Q id tok H w. unfold events, update_email_token_call.
  destruct (db_update_email_token P w id tok) as [w' r]. simpl.
  constructor; [apply H | constructor].
Qed.

Lemma emits_add_mail_record_call : forall (Q : event P -> Prop) id r,
  (forall o, Q (EvAddRecord id (subject r) (sender r) (received_time r)
                  (content r) o)) ->
  emits Q (add_mail_record_call P id r).
Proof.
  intros Q id r H w. unfold events, add_mail_record_call.
  destruct (db_add_mail_record P w id _ _ _ _) as [w' o]. simpl.
  constructor; [apply H | constructor].
Qed.

Lemma emits_update_check_time_call : forall (Q : event P -> Prop) id,
  (forall r, Q (EvUpdateCheckTime id r)) ->
  emits Q (update_check_time_call P id).
Proof.
  intros Q id H w. unfold events, update_check_time_call.
  destruct (db_update_check_time P w id) as [w' r]. simpl.
  constructor; [apply H | constructor].
Qed.

Lemma get_new_access_token_emits : forall rt cid,
  emits service_event (get_new_access_token P rt cid).
Proof.
  intros. unfold get_new_access_token.
  repeat first [ apply emits_requests_post_call; intros | emits_step ];
    exact I.
Qed.

Lemma save_loop_emits : forall id recs n,
  emits service_event (save_loop P id recs n).
Proof.
  induction recs as [|r rest IH]; intros n; simpl.
  - apply emits_ret.
  - apply emits_bind; [|intros; apply IH].
    repeat first [ apply emits_add_mail_record_call; intros | emits_step ];
      exact I.
Qed.

Lemma fetch_emails_emits : forall e t f cb,
  normalize_check_time P None = None ->
  emits fetch_event (fetch_emails P e t f cb None).
Proof.
  intros e t f cb H w. unfold events, fetch_emails. rewrite H.
  pose proof (fetch_in_frame_emits P e t
                match cb with Some g => g | None => no_callback end
                (w, {| mail := false; mail_records := [] |})) as Hf.
  unfold events in Hf.
  destruct (fetch_emails_in_frame P e t _ None _) as [[r s] tr].
  exact Hf.
Qed.

(** The run of the token refresher, from the answer of the endpoint. *)
Lemma get_new_access_token_run : forall rt cid w w' r,
  requests_post P w token_url (token_request rt cid) = (w', r) ->
  exists tok l m,
    get_new_access_token P rt cid w
    = (Ok tok, w', [EvPost token_url (token_request rt cid) r; EvLog l m])
    /\ ((exists e, r = Raise e) \/ (exists e, r = Ok (Raise e))
        \/ (exists json status,
              r = Ok (Ok json) /\ dict_get json (u "error") = Some status)
        -> tok = None).
Proof.
  intros rt cid w w' r H.
  cbv [get_new_access_token bind try_except requests_post_call
       lift_outcome logger emit ret].
  rewrite H.
  destruct r as [[json|e]|e]; simpl.
  - destruct (dict_get json (u "error")) as [status|] eqn:Eg; simpl.
    + eexists _, _, _. split; [reflexivity|]. auto.
    + destruct (dict_index json (u "access_token")) as [v|k]; simpl;
        (eexists _, _, _; split; [reflexivity|]);
        intros [[e He]|[[e He]|(j & st & Hj & Hs)]]; try discriminate;
        injection Hj as <-; rewrite Eg in Hs; discriminate.
  - eexists _, _, _. split; [reflexivity|]. auto.
  - eexists _, _, _. split; [reflexivity|]. auto.
Qed.
End Services.

Section TraceFacts.
Context {P : Platform}.

Lemma imap_commands_app : forall t1 t2 : list (event P),
  imap_commands (t1 ++ t2) = imap_commands t1 ++ imap_commands t2.
Proof. intros. apply flat_map_app. Qed.


Lemma count_app : forall f (t1 t2 : list (event P)),
  count f (t1 ++ t2) = (count f t1 + count f t2)%nat.
Proof. intros. unfold count. rewrite filter_app. apply length_app. Qed.

Lemma imap_commands_reports : forall cb p m,
  imap_commands (reports_of (P := P) cb p m) = [].
Proof.
  intros. unfold reports_of. induction (cb p m); simpl; auto.
Qed.


Lemma count_reports : forall f cb p m,
  (forall p' m', f (EvProgress p' m') = false) ->
  count f (reports_of (P := P) cb p m) = 0%nat.
Proof.
  intros f cb p m H. unfold reports_of, count.
  induction (cb p m) as [|x l IH]; simpl; auto. rewrite H. exact IH.
Qed.
End TraceFacts.


Section OrchestratorFacts.
Context (P : Platform).

Lemma check_time_run : forall id email w,
  exists o w' rest,
    try_except
      (bind (update_check_time_call P id)
         (fun _ => logger INFO (LogCheckTimeUpdated id email)))
      (fun e => logger ERROR (LogCheckTimeFailed e)) w
    = (Ok tt, w', EvUpdateCheckTime id o :: rest).
Proof.
  intros. cbv [try_except bind update_check_time_call logger emit].
  destruct (db_update_check_time P w id) as [w' [[]|e]]; simpl;
    eexists _, _, _; reflexivity.
Qed.

Lemma searches_of_searches_all : forall t : list (event P),
  Forall searches_all t -> Forall (fun c => c = ALL) (searches t).
Proof.
  induction 1 as [|e t He Ht IH]; simpl; [constructor|].
  apply Forall_app. split; [|exact IH].
  destruct e; try constructor. destruct c; try constructor; auto.
Qed.

Lemma check_mail_searches_all : forall info cb,
  normalize_check_time P None = None ->
  emits (searches_all (P := P)) (check_mail P info cb).
Proof.
  intros info cb H. unfold check_mail.
  repeat first
    [ apply emits_weaken with (Q := service_event);
        [first [ apply get_new_access_token_emits | apply save_loop_emits ]
        | intros [] He; try exact I; contradiction ]
    | apply emits_weaken with (Q := fetch_event);
        [ apply fetch_emails_emits; exact H
        | intros [] He; try exact I; destruct c; try exact I; exact He ]
    | apply emits_update_email_token_call; intros
    | apply emits_update_check_time_call; intros
    | emits_step ]; exact I.
Qed.
End OrchestratorFacts.


(* ================================================================== *)
(** ** The message loop and the records it keeps *)
(* ================================================================== *)

Section MessageLoop.
Context (P : Platform).

Lemma process_message_run : forall mail_id w m recs,
  process_message P mail_id (w, frame_of m recs)
  = let wr := imap P w (Fetch mail_id RFC822) in
    (match record_of_reply P (snd wr) with
     | Ok _ => Ok tt
     | Raise e => Raise e
     end,
     (fst wr,
      frame_of m
        match record_of_reply P (snd wr) with
        | Ok c => retain P recs c
        | Raise _ => recs
        end),
     [EvImap (Fetch mail_id RFC822) (snd wr)]).
Proof.
  intros mail_id w m recs.
  cbv [process_message bind imap_call lift_outcome get_frame append_record
       ret fst snd frame_of mail mail_records].
  destruct (imap P w (Fetch mail_id RFC822)) as [w' [[typ data]|e]];
    [|reflexivity].
  cbv [record_of_reply retain known].
  destruct (first_message P data) as [msg|e]; [|reflexivity].
  destruct (parsedate_to_datetime P _) as [d|e]; [|reflexivity].
  cbv [mail_key].
  destruct (existsb _ _); reflexivity.
Qed.

Lemma message_loop_turn : forall cb i n mail_id rest w m recs,
  message_loop P cb i n (mail_id :: rest) (w, frame_of m recs)
  = let wr := imap P w (Fetch mail_id RFC822) in
    let next :=
      message_loop P cb (i + 1) n rest
        (fst wr, frame_of m (turn_records P recs (snd wr))) in
    (fst (fst next), snd (fst next),
     turn_events P cb i n mail_id (snd wr) ++ snd next).
Proof.
  intros. cbn [message_loop].
  cbv [bind call emit try_except].
  rewrite process_message_run. cbv zeta.
  unfold turn_events, turn_records, reports_of.
  destruct (imap P w (Fetch mail_id RFC822)) as [w' r]. cbn [fst snd].
  destruct (record_of_reply P r) as [c|e]; cbn [logger emit].
  - destruct (message_loop P cb (i + 1) n rest _) as [[r2 s2] t2].
    cbn [fst snd]. rewrite <- !app_assoc. reflexivity.
  - unfold logger, emit.
    destruct (message_loop P cb (i + 1) n rest _) as [[r2 s2] t2].
    cbn [fst snd]. rewrite <- !app_assoc. reflexivity.
Qed.

Lemma fetched_ids_app : forall t1 t2 : list (event P),
  fetched_ids (t1 ++ t2) = fetched_ids t1 ++ fetched_ids t2.
Proof. intros. apply flat_map_app. Qed.

Lemma fetched_records_app : forall t1 t2 : list (event P),
  fetched_records P (t1 ++ t2)
  = fetched_records P t1 ++ fetched_records P t2.
Proof. intros. apply flat_map_app. Qed.

Lemma fetched_ids_reports : forall cb p msg,
  fetched_ids (reports_of (P := P) cb p msg) = [].
Proof. intros. unfold reports_of. induction (cb p msg); simpl; auto. Qed.

Lemma fetched_records_reports : forall cb p msg,
  fetched_records P (reports_of cb p msg) = [].
Proof. intros. unfold reports_of. induction (cb p msg); simpl; auto. Qed.

Lemma fetched_ids_turn : forall cb i n mail_id r,
  fetched_ids (turn_events P cb i n mail_id r) = [mail_id].
Proof.
  intros. unfold turn_events.
  rewrite fetched_ids_app, fetched_ids_reports.
  destruct (record_of_reply P r); reflexivity.
Qed.

Lemma fetched_records_turn : forall cb i n mail_id r,
  fetched_records P (turn_events P cb i n mail_id r)
  = match record_of_reply P r with Ok c => [c] | Raise _ => [] end.
Proof.
  intros. unfold turn_events.
  rewrite fetched_records_app, fetched_records_reports.
  cbn [app fetched_records flat_map].
  destruct (record_of_reply P r); reflexivity.
Qed.

(** The loop fetches the identifiers it is given, in their order. *)
Lemma message_loop_fetches : forall cb mail_ids i n s,
  fetched_ids (events (message_loop P cb i n mail_ids) s) = mail_ids.
Proof.
  induction mail_ids as [|mail_id rest IH]; intros i n [w [m recs]].
  - reflexivity.
  - unfold events. change {| mail := m; mail_records := recs |}
      with (frame_of m recs).
    rewrite message_loop_turn. cbv zeta. cbn [snd].
    rewrite fetched_ids_app, fetched_ids_turn.
    cbn [app]. f_equal. apply IH.
Qed.

(** The loop leaves [mail] as it is and folds [retain] over the
    records of its fetches. *)
Lemma message_loop_records : forall cb mail_ids i n w m recs,
  let run := message_loop P cb i n mail_ids (w, frame_of m recs) in
  fst (fst run) = Ok tt
  /\ snd (snd (fst run))
     = frame_of m (fold_left (retain P) (fetched_records P (snd run)) recs).
Proof.
  induction mail_ids as [|mail_id rest IH]; intros i n w m recs.
  - split; reflexivity.
  - cbv zeta. rewrite message_loop_turn. cbv zeta. cbn [fst snd].
    specialize (IH (i + 1) n (fst (imap P w (Fetch mail_id RFC822))) m
                  (turn_records P recs (snd (imap P w (Fetch mail_id RFC822))))).
    cbv zeta in IH. destruct IH as [IH1 IH2]. split; [exact IH1|].
    rewrite IH2. f_equal.
    rewrite fetched_records_app, fetched_records_turn, fold_left_app.
    unfold turn_records.
    destruct (record_of_reply P _); reflexivity.
Qed.
End MessageLoop.


Section RetainFacts.
Context (P : Platform).

Lemma known_In : forall (recs : list (record P)) k,
  known P recs k = true <-> In k (map mail_key recs).
Proof.
  intros recs k. unfold known. rewrite existsb_exists. split.
  - intros (x & Hx & E). apply pystr_eqb_eq in E. subst x. exact Hx.
  - intros H. exists k. split; [exact H | apply pystr_eqb_eq; reflexivity].
Qed.

Lemma retain_keys : forall (recs : list (record P)) c,
  map mail_key (retain P recs c)
  = map mail_key recs
    ++ (if known P recs (mail_key c) then [] else [mail_key c]).
Proof.
  intros recs c. unfold retain.
  destruct (known P recs (mail_key c)).
  - rewrite app_nil_r. reflexivity.
  - rewrite map_app. reflexivity.
Qed.

Lemma retain_NoDup : forall (recs : list (record P)) c,
  NoDup (map mail_key recs) -> NoDup (map mail_key (retain P recs c)).
Proof.
  intros recs c H. rewrite retain_keys.
  destruct (known P recs (mail_key c)) eqn:E.
  - rewrite app_nil_r. exact H.
  - apply NoDup_app; [exact H | repeat constructor; intros [] |].
    intros k Hk [<-|[]]. apply known_In in Hk. congruence.
Qed.

Lemma fold_retain_NoDup : forall cands (recs : list (record P)),
  NoDup (map mail_key recs) ->
  NoDup (map mail_key (fold_left (retain P) cands recs)).
Proof.
  induction cands as [|c cands IH]; intros recs H; cbn [fold_left].
  - exact H.
  - apply IH, retain_NoDup, H.
Qed.


End RetainFacts.

(* ================================================================== *)
(** ** Invariants through the attempts *)
(* ================================================================== *)

Section Hoare.
Context {P : Platform}.

Lemma hoare_weaken : forall St A (I : St -> Prop) (m : M P St A)
    (Q Q' : outcome A -> St -> Prop),
  hoare I m Q -> (forall r s, Q r s -> Q' r s) -> hoare I m Q'.
Proof. intros St A I m Q Q' H HQ s Hs. apply HQ, H, Hs. Qed.

Lemma hoare_ret : forall St A (I : St -> Prop) (a : A)
    (Q : outcome A -> St -> Prop),
  (forall s, I s -> Q (Ok a) s) -> hoare I (ret a : M P St A) Q.
Proof. intros St A I a Q H s Hs. apply H, Hs. Qed.

Lemma hoare_lift_outcome : forall St A (I : St -> Prop) (r : outcome A)
    (Q : outcome A -> St -> Prop),
  (forall s, I s -> Q r s) -> hoare I (lift_outcome r : M P St A) Q.
Proof. intros St A I r Q H s Hs. apply H, Hs. Qed.

Lemma hoare_emit : forall St (I : St -> Prop) evs
    (Q : outcome unit -> St -> Prop),
  (forall s, I s -> Q (Ok tt) s) -> hoare I (emit evs : M P St unit) Q.
Proof. intros St I evs Q H s Hs. apply H, Hs. Qed.

Lemma hoare_bind : forall St A B (I : St -> Prop) (J : A -> St -> Prop)
    (m : M P St A) (k : A -> M P St B) (Q : outcome B -> St -> Prop),
  hoare I m (fun r s => match r with
                        | Ok a => J a s
                        | Raise e => Q (Raise e) s
                        end) ->
  (forall a, hoare (J a) (k a) Q) ->
  hoare I (bind m k) Q.
Proof.
  intros St A B I J m k Q Hm Hk s Hs. specialize (Hm s Hs).
  unfold value, final, bind in *.
  destruct (m s) as [[[a|e] s1] t1]; cbn [fst snd] in *; [|exact Hm].
  specialize (Hk a s1 Hm). unfold value, final in Hk.
  destruct (k a s1) as [[r s2] t2]. exact Hk.
Qed.

Lemma hoare_try_except : forall St A (I : St -> Prop) (J : exn -> St -> Prop)
    (m : M P St A) (h : exn -> M P St A) (Q : outcome A -> St -> Prop),
  hoare I m (fun r s => match r with
                        | Ok a => Q (Ok a) s
                        | Raise e => J e s
                        end) ->
  (forall e, hoare (J e) (h e) Q) ->
  hoare I (try_except m h) Q.
Proof.
  intros St A I J m h Q Hm Hh s Hs. specialize (Hm s Hs).
  unfold value, final, try_except in *.
  destruct (m s) as [[[a|e] s1] t1]; cbn [fst snd] in *; [exact Hm|].
  specialize (Hh e s1 Hm). unfold value, final in Hh.
  destruct (h e s1) as [[r s2] t2]. exact Hh.
Qed.

Lemma hoare_try_finally : forall St A (I : St -> Prop)
    (R : outcome A -> St -> Prop)
    (m : M P St A) (c : M P St unit) (Q : outcome A -> St -> Prop),
  hoare I m R ->
  (forall r, hoare (R r) c (fun r2 s => match r2 with
                                        | Ok _ => Q r s
                                        | Raise e => Q (Raise e) s
                                        end)) ->
  hoare I (try_finally m c) Q.
Proof.
  intros St A I R m c Q Hm Hc s Hs. specialize (Hm s Hs).
  unfold value, final, try_finally in *.
  destruct (m s) as [[r s1] t1]; cbn [fst snd] in *.
  specialize (Hc r s1 Hm). unfold value, final in Hc.
  destruct (c s1) as [[[x|e] s2] t2]; exact Hc.
Qed.

Lemma keeps_bind : forall St A B (I : St -> Prop)
    (m : M P St A) (k : A -> M P St B),
  keeps I m -> (forall a, keeps I (k a)) -> keeps I (bind m k).
Proof.
  intros St A B I m k Hm Hk. apply hoare_bind with (J := fun _ s => I s).
  - eapply hoare_weaken; [exact Hm|]. intros [a|e] s Hs; exact Hs.
  - exact Hk.
Qed.

Lemma keeps_try_except : forall St A (I : St -> Prop)
    (m : M P St A) (h : exn -> M P St A),
  keeps I m -> (forall e, keeps I (h e)) -> keeps I (try_except m h).
Proof.
  intros St A I m h Hm Hh.
  apply hoare_try_except with (J := fun _ s => I s).
  - eapply hoare_weaken; [exact Hm|]. intros [a|e] s Hs; exact Hs.
  - exact Hh.
Qed.

Lemma keeps_try_finally : forall St A (I : St -> Prop)
    (m : M P St A) (c : M P St unit),
  keeps I m -> keeps I c -> keeps I (try_finally m c).
Proof.
  intros St A I m c Hm Hc.
  apply hoare_try_finally with (R := fun _ s => I s); [exact Hm|].
  intros r. eapply hoare_weaken; [exact Hc|].
  intros [x|e] s Hs; exact Hs.
Qed.

Lemma keeps_still : forall St A (I : St -> Prop) (m : M P St A),
  (forall s, final m s = s) -> keeps I m.
Proof. intros St A I m H s Hs. rewrite H. exact Hs. Qed.

Lemma keeps_imap_call : forall J c, keeps (on_records J) (imap_call P c).
Proof.
  intros J c s Hs. unfold final, imap_call.
  destruct (imap P (fst s) c) as [w r]. exact Hs.
Qed.

Lemma keeps_bind_mail : forall J, keeps (on_records J) (bind_mail P).
Proof. intros J s Hs. exact Hs. Qed.

End Hoare.

Ltac keeps_step :=
  match goal with
  | |- keeps _ (bind _ _) => apply keeps_bind; [|intros]
  | |- keeps _ (try_except _ _) => apply keeps_try_except; [|intros]
  | |- keeps _ (try_finally _ _) => apply keeps_try_finally
  | |- keeps _ (if ?c then _ else _) => destruct c
  | |- keeps _ (match ?x with _ => _ end) => destruct x
  | |- keeps _ (imap_call _ _) => apply keeps_imap_call
  | |- keeps _ (bind_mail _) => apply keeps_bind_mail
  | |- keeps _ _ => apply keeps_still; intros; reflexivity
  end.

Section KeepsEngine.
Context (P : Platform).
Variable J : list (record P) -> Prop.

Lemma junk_loop_keeps : forall aliases,
  keeps (on_records J) (junk_loop P aliases).
Proof.
  induction aliases as [|a rest IH]; cbn [junk_loop]; 
    repeat first [exact IH | unfold junk_body; keeps_step].
Qed.

Lemma mail_logout_keeps : keeps (on_records J) (mail_logout P).
Proof. unfold mail_logout. repeat keeps_step. Qed.

Lemma connect_keeps : forall e t cb,
  keeps (on_records J) (connect P e t cb).
Proof. intros. unfold connect. repeat keeps_step. Qed.

Lemma move_junk_keeps : forall cb,
  keeps (on_records J) (move_junk P cb).
Proof.
  intros. unfold move_junk. keeps_step; [keeps_step|]. apply junk_loop_keeps.
Qed.
End KeepsEngine.

Section RecordsInvariant.
Context (P : Platform).
Variable J : list (record P) -> Prop.

Hypothesis J_nil : J [].
Hypothesis J_retain : forall recs c, J recs -> J (retain P recs c).



Lemma hoare_bind_keeps : forall A B (m : F P A) (k : A -> F P B)
    (Q : outcome B -> state P * frame P -> Prop),
  keeps (on_records J) m ->
  (forall a, hoare (on_records J) (k a) Q) ->
  (forall e s, on_records J s -> Q (Raise e) s) ->
  hoare (on_records J) (bind m k) Q.
Proof.
  intros A B m k Q Hm Hk HQ.
  apply hoare_bind with (J := fun _ s => on_records J s); [|exact Hk].
  eapply hoare_weaken; [exact Hm|]. intros [a|e] s Hs; auto.
Qed.




End RecordsInvariant.

Section LoopLogs.
Context (P : Platform).





Lemma cap_skipn : forall mail_ids,
  cap mail_ids = skipn (length mail_ids - 100) mail_ids.
Proof.
  intros. unfold cap. destruct (100 <? length mail_ids)%nat eqn:E.
  - reflexivity.
  - apply Nat.ltb_ge in E.
    replace (length mail_ids - 100)%nat with 0%nat by lia. reflexivity.
Qed.

Lemma cap_length : forall mail_ids, (length (cap mail_ids) <= 100)%nat.
Proof. intros. rewrite cap_skipn, length_skipn. lia. Qed.
End LoopLogs.


(* ================================================================== *)
(** ** The junk scan *)
(* ================================================================== *)

Ltac junk_case :=
  eexists _, _, _, _; (split; [reflexivity|]);
  cbn -[OK pystr_eqb first_split];
  repeat match goal with
         | H : pystr_eqb _ _ = _ |- _ => rewrite H
         | H : first_split _ = _ |- _ => rewrite H
         end;
  cbn -[OK pystr_eqb first_split];
  repeat split; intros; try discriminate; auto.

Section Junk.
Context (P : Platform).

(** One alias: the trace starts with its [select]; no other mailbox is
    selected; the scan stops exactly when the [select] answered [OK]
    and nothing raised. *)
Lemma junk_alias_run : forall junk_name s,
  exists sel rest stop s',
    try_except (junk_body P junk_name) (fun _ => ret false) s
    = (Ok stop, s', EvImap (Select junk_name) sel :: rest)
    /\ selects rest = []
    /\ (stop = true ->
        selected_ok (EvImap (P := P) (Select junk_name) sel) = true
        /\ existsb breaks rest = false
        /\ (count is_expunged rest <= 1)%nat)
    /\ (stop = false ->
        count is_expunged rest = 0%nat
        /\ (selected_ok (EvImap (P := P) (Select junk_name) sel) = false
            \/ existsb breaks rest = true)).
Proof.
  intros junk_name [w f].
  cbv [junk_body try_except bind imap_call lift_outcome logger emit ret
       fst snd].
  destruct (imap P w (Select junk_name)) as [w1 [[status d]|e]];
    [|junk_case].
  destruct (pystr_eqb status OK) eqn:Es; [|junk_case].
  destruct (imap P w1 (Search ALL)) as [w2 [[status2 data]|e]];
    [|junk_case].
  destruct (pystr_eqb status2 OK) eqn:Es2; [|junk_case].
  destruct (first_split data) as [ids|e] eqn:Ef; [|junk_case].
  destruct (truthy ids); [|junk_case].
  destruct (imap P w2 (Copy _ INBOX)) as [w3 [[res d3]|e]]; [|junk_case].
  destruct (pystr_eqb res OK) eqn:Er; [|junk_case].
  destruct (imap P w3 (Store _ _ _)) as [w4 [r4|e]]; [|junk_case].
  destruct (imap P w4 Expunge) as [w5 [r5|e]]; junk_case.
Qed.

Lemma selects_app : forall t1 t2 : list (event P),
  selects (t1 ++ t2) = selects t1 ++ selects t2.
Proof. intros. apply flat_map_app. Qed.

Lemma not_selected : forall (t : list (event P)) e,
  selects t = [] -> In e t -> selected_ok e = false.
Proof.
  induction t as [|x t IH]; intros e Hs Hin; [destruct Hin|].
  destruct Hin as [<-|Hin].
  - destruct x; try reflexivity. destruct c; try reflexivity. discriminate.
  - apply IH; [|exact Hin]. cbn [selects flat_map] in Hs.
    apply app_eq_nil in Hs. apply Hs.
Qed.

Lemma split_in_app : forall (A : Type) (l1 l2 pre post : list A) e,
  l1 ++ l2 = pre ++ e :: post ->
  (exists mid, l1 = pre ++ e :: mid /\ post = mid ++ l2)
  \/ (exists pre', pre = l1 ++ pre' /\ l2 = pre' ++ e :: post).
Proof.
  induction l1 as [|x l1 IH]; intros l2 pre post e H.
  - right. exists pre. split; [reflexivity | exact H].
  - destruct pre as [|y pre]; cbn [app] in H.
    + injection H as -> <-. left. exists l1. split; reflexivity.
    + injection H as -> H. destruct (IH _ _ _ _ H) as [(mid & -> & ->)|(pre' & -> & ->)].
      * left. exists mid. split; reflexivity.
      * right. exists pre'. split; reflexivity.
Qed.

Lemma junk_loop_cons : forall junk_name rest s,
  exists sel t1 stop s1,
    try_except (junk_body P junk_name) (fun _ => ret false) s
    = (Ok stop, s1, EvImap (Select junk_name) sel :: t1)
    /\ junk_loop P (junk_name :: rest) s
       = if stop then (Ok tt, s1, EvImap (Select junk_name) sel :: t1)
         else (value (junk_loop P rest) s1, final (junk_loop P rest) s1,
               (EvImap (Select junk_name) sel :: t1)
               ++ events (junk_loop P rest) s1).
Proof.
  intros junk_name rest s.
  destruct (junk_alias_run junk_name s) as (sel & t1 & stop & s1 & E & _).
  exists sel, t1, stop, s1. split; [exact E|].
  cbn [junk_loop]. unfold bind at 1. rewrite E.
  destruct stop.
  - cbn. rewrite app_nil_r. reflexivity.
  - unfold value, final, events.
    destruct (junk_loop P rest s1) as [[r s2] t2]. reflexivity.
Qed.

Lemma junk_loop_scan : forall aliases s,
  let tr := events (junk_loop P aliases) s in
  value (junk_loop P aliases) s = Ok tt
  /\ (exists k, selects tr = firstn k aliases)
  /\ (selects tr = aliases
      \/ exists pre e post,
           tr = pre ++ e :: post
           /\ selected_ok e = true /\ existsb breaks post = false)
  /\ (forall pre e post,
        tr = pre ++ e :: post ->
        selected_ok e = true -> existsb breaks post = false ->
        selects post = [])
  /\ (count is_expunged tr <= 1)%nat.
Proof.
  induction aliases as [|a rest IH]; intros s tr.
  - subst tr. cbn. repeat split; auto.
    + exists 0%nat. reflexivity.
    + intros pre e post H. destruct pre; discriminate.
  - destruct (junk_alias_run a s)
      as (sel & t1 & stop & s1 & E & Hsel & Htrue & Hfalse).
    destruct (junk_loop_cons a rest s) as (sel' & t1' & stop' & s1' & E' & Hrun).
    rewrite E in E'. injection E' as <- <- <- <-.
    subst tr. unfold value, events. rewrite Hrun. clear Hrun.
    destruct stop.
    + destruct (Htrue eq_refl) as (Hok & Hnb & Hcount). cbn [fst snd].
      split; [reflexivity|]. split; [|split; [|split]].
      * exists 1%nat. cbn [selects flat_map]. fold (selects t1).
        rewrite Hsel. reflexivity.
      * right. exists [], (EvImap (Select a) sel), t1. auto.
      * intros pre e post H Hs Hb.
        destruct pre as [|y pre]; cbn [app] in H.
        -- injection H as <- <-. exact Hsel.
        -- injection H as <- H.
           assert (Hin : In e t1) by (rewrite H; apply in_elt).
           rewrite (not_selected t1 e Hsel Hin) in Hs. discriminate.
      * unfold count in *. cbn [filter is_expunged]. exact Hcount.
    + destruct (Hfalse eq_refl) as (Hcount & Hwhy).
      destruct (IH s1) as (Hv & (k & Hk) & Hall & Hstop & Hexp).
      cbn [fst snd]. fold (events (junk_loop P rest) s1).
      split; [exact Hv|]. split; [|split; [|split]].
      * exists (S k). cbn [app selects flat_map firstn].
        fold (selects (t1 ++ events (junk_loop P rest) s1)).
        rewrite selects_app, Hsel, Hk. reflexivity.
      * destruct Hall as [Hall|(pre & e & post & Ht & Hs & Hb)].
        -- left. cbn [app selects flat_map].
           fold (selects (t1 ++ events (junk_loop P rest) s1)).
           rewrite selects_app, Hsel, Hall. reflexivity.
        -- right. exists ((EvImap (Select a) sel :: t1) ++ pre), e, post.
           rewrite Ht, <- app_assoc. auto.
      * intros pre e post H Hs Hb.
        apply split_in_app in H.
        destruct H as [(mid & H1 & H2)|(pre' & H1 & H2)].
        -- destruct pre as [|y pre]; cbn [app] in H1.
           ++ injection H1 as <- <-. subst post.
              rewrite existsb_app in Hb. apply orb_false_iff in Hb.
              destruct Hwhy as [Hn|Hn]; [congruence|].
              destruct Hb as [Hb _]. congruence.
           ++ injection H1 as <- H1.
              assert (Hin : In e t1) by (rewrite H1; apply in_elt).
              rewrite (not_selected t1 e Hsel Hin) in Hs. discriminate.
        -- apply (Hstop pre' e post H2 Hs Hb).
      * rewrite count_app. unfold count in *.
        cbn [filter is_expunged]. fold (count is_expunged t1).
        unfold count. lia.
Qed.
End Junk.

Section Runs.
Context {P : Platform}.

Lemma run_bind_ok : forall St A B (m : M P St A) (k : A -> M P St B) s a,
  value m s = Ok a ->
  bind m k s
  = (value (k a) (final m s), final (k a) (final m s),
     events m s ++ events (k a) (final m s)).
Proof.
  intros St A B m k s a H. unfold value, final, events, bind in *.
  destruct (m s) as [[r s1] t1]. cbn [fst snd] in *. subst r.
  destruct (k a s1) as [[r2 s2] t2]. reflexivity.
Qed.

Lemma run_bind_raise : forall St A B (m : M P St A) (k : A -> M P St B) s e,
  value m s = Raise e ->
  bind m k s = (Raise e, final m s, events m s).
Proof.
  intros St A B m k s e H. unfold value, final, events, bind in *.
  destruct (m s) as [[r s1] t1]. cbn [fst snd] in *. subst r. reflexivity.
Qed.

Lemma events_bind_prefix : forall St A B (m : M P St A) (k : A -> M P St B) s,
  exists rest, events (bind m k) s = events m s ++ rest.
Proof.
  intros St A B m k s. destruct (value m s) as [a|e] eqn:E.
  - unfold events at 1. rewrite (run_bind_ok _ _ _ m k s a E).
    eexists. reflexivity.
  - unfold events at 1. rewrite (run_bind_raise _ _ _ m k s e E).
    exists []. rewrite app_nil_r. reflexivity.
Qed.

Lemma run_call_bind : forall St B cb p msg (k : unit -> M P St B) s,
  bind (call cb p msg) k s
  = (value (k tt) s, final (k tt) s, reports_of cb p msg ++ events (k tt) s).
Proof.
  intros. unfold bind, call, emit, value, final, events, reports_of.
  destruct (k tt s) as [[r s2] t2]. reflexivity.
Qed.
End Runs.

Section InboxProceeds.
Context (P : Platform).

Lemma fetch_inbox_starts : forall cb lct s,
  exists r rest,
    events (fetch_inbox P cb lct) s
    = reports_of cb 40 (u "正在获取收件箱...")
      ++ EvImap (Select INBOX) r :: rest.
Proof.
  intros cb lct s. unfold fetch_inbox.
  unfold events at 1. rewrite run_call_bind. cbn [snd].
  match goal with
  | |- context [events (bind (imap_call P (Select INBOX)) ?k) ?s1] =>
      destruct (events_bind_prefix _ _ _ (imap_call P (Select INBOX)) k s1)
        as [rest Hrest]; rewrite Hrest
  end.
  unfold events at 1, imap_call.
  destruct (imap P _ (Select INBOX)) as [w r]. cbn [snd app].
  exists r, rest. reflexivity.
Qed.

Lemma attempt_body_reaches_inbox : forall e t cb lct s,
  value (connect P e t cb) s = Ok tt ->
  In (Select INBOX)
     (imap_commands (events (attempt_body P e t cb lct) s)).
Proof.
  intros e t cb lct s Hc. unfold attempt_body, events at 1.
  rewrite (run_bind_ok _ _ _ _ _ s tt Hc). cbn [snd].
  set (s1 := final (connect P e t cb) s).
  assert (Hj : value (move_junk P cb) s1 = Ok tt).
  { assert (Ht : never_raises (move_junk P cb)).
    { unfold move_junk. repeat total_step. apply junk_loop_total. }
    destruct (Ht s1) as [[] Hx]. exact Hx. }
  unfold events at 2. rewrite (run_bind_ok _ _ _ _ _ s1 tt Hj). cbn [snd].
  destruct (fetch_inbox_starts cb lct (final (move_junk P cb) s1))
    as (r & rest & Hf).
  rewrite Hf, !imap_commands_app, imap_commands_reports.
  apply in_or_app. right. apply in_or_app. right. left. reflexivity.
Qed.
End InboxProceeds.

(* ================================================================== *)
(** ** The attempts of a fetch and the paths of a pass *)
(* ================================================================== *)

Section Attempts.
Context (P : Platform).
Variables (email_address access_token : pystr) (cb : callback_t).
Variable lct : option (datetime P).

Let connect_ := connect P email_address access_token cb.
Let body := attempt_body P email_address access_token cb lct.
Let after := bind (move_junk P cb) (fun _ => fetch_inbox P cb lct).

(** The run of [connect], from the answers of the server. *)
Lemma connect_run : forall w f,
  let auth :=
    Authenticate XOAUTH2 (generate_auth_string email_address access_token) in
  let o := imap P w (IMAP4_SSL host) in
  let a := imap P (fst o) auth in
  connect_ (w, f)
  = match snd o with
    | Raise x =>
        (Raise x, (fst o, f),
         reports_of cb 10 (u "连接服务器...")
         ++ [EvImap (IMAP4_SSL host) (snd o)])
    | Ok _ =>
        (match snd a with Ok _ => Ok tt | Raise x => Raise x end,
         (fst a, frame_of true (mail_records f)),
         reports_of cb 10 (u "连接服务器...")
         ++ [EvImap (IMAP4_SSL host) (snd o); EvImap auth (snd a)])
    end.
Proof.
  intros w f auth o a. subst connect_ o a auth.
  cbv [connect bind call emit imap_call bind_mail ret fst snd reports_of
       frame_of mail_records].
  destruct (imap P w (IMAP4_SSL host)) as [w1 [r1|x]]; cbn [fst snd];
    [|reflexivity].
  destruct (imap P w1 _) as [w2 [r2|x]]; cbn [fst snd];
    rewrite ?app_nil_r; reflexivity.
Qed.

Lemma after_emits : emits session_event after.
Proof.
  subst after. unfold move_junk, fetch_inbox.
  assert (Hj : forall aliases, emits session_event (junk_loop P aliases)).
  { induction aliases as [|a rest IH]; cbn [junk_loop].
    - apply emits_ret.
    - apply emits_bind;
        [|intros stop; destruct stop; [apply emits_ret | exact IH]].
      unfold junk_body. repeat emits_step; simpl; auto. }
  assert (Hm : forall ids i n,
             emits session_event (message_loop P cb i n ids)).
  { induction ids as [|x rest IH]; intros i n; cbn [message_loop].
    - apply emits_ret.
    - apply emits_bind; [emits_step; exact I|]. intros _.
      apply emits_bind; [|intros _; apply IH].
      unfold process_message. repeat emits_step; simpl; auto. }
  repeat first
    [ apply Hj | apply Hm | apply emits_mail_logout; intros | emits_step ];
    simpl; auto.
Qed.

Lemma attempt_body_run : forall s,
  (exists x,
     value connect_ s = Raise x
     /\ body s = (Raise x, final connect_ s, events connect_ s))
  \/ (value connect_ s = Ok tt
      /\ body s
         = (value after (final connect_ s), final after (final connect_ s),
            events connect_ s ++ events after (final connect_ s))).
Proof.
  intros s. subst body after connect_. unfold attempt_body.
  destruct (value (connect P email_address access_token cb) s)
    as [[]|x] eqn:E.
  - right. split; [reflexivity|].
    apply (run_bind_ok _ _ _ _
             (fun _ => bind (move_junk P cb) (fun _ => fetch_inbox P cb lct))
             s tt E).
  - left. exists x. split; [reflexivity|]. apply run_bind_raise. exact E.
Qed.

Lemma attempt_run : forall retry s,
  exists s' tl,
    attempt P email_address access_token cb lct retry s
    = (Ok (match value body s with Ok c => c | Raise _ => Continue end),
       s',
       events body s ++ failure_events P retry (value body s) ++ tl)
    /\ (tl = [] \/ exists r, tl = [EvImap Logout r])
    /\ snd s' = snd (final body s).
Proof.
  intros retry s. subst body.
  unfold attempt, value, final, events.
  cbv [try_finally try_except].
  destruct (attempt_body P email_address access_token cb lct s)
    as [[[c|x] [w1 f1]] t1]; cbn [fst snd failure_events].
  - cbv [mail_logout bind get_frame imap_call raise ret fst snd].
    destruct (mail f1).
    + destruct (imap P w1 Logout) as [w2 [r|y]]; cbn [fst snd app];
        eexists _, _; (split; [reflexivity|]);
        (split; [right; eexists; reflexivity | reflexivity]).
    + eexists _, _. cbn [app]. split; [reflexivity|].
      split; [left; reflexivity | reflexivity].
  - cbv [logger sleep emit bind ret].
    cbv [mail_logout bind get_frame imap_call raise ret fst snd].
    destruct (mail f1).
    + destruct (imap P w1 Logout) as [w2 [r|y]]; cbn [fst snd app];
        eexists _, _;
        (split; [rewrite <- app_assoc; reflexivity|]);
        (split; [right; eexists; reflexivity | reflexivity]).
    + eexists _, []. cbn [app]. split; [rewrite app_nil_r; reflexivity|].
      split; [left; reflexivity | reflexivity].
Qed.

(** *** Counting in the trace of an attempt *)

Lemma count_none : forall (f : event P -> bool) t,
  Forall (fun e => f e = false) t -> count f t = 0%nat.
Proof.
  intros f t H. unfold count. induction H as [|e t He Ht IH]; cbn [filter].
  - reflexivity.
  - rewrite He. exact IH.
Qed.

Lemma waits_app_quiet : forall t suffix,
  Forall (fun e => is_attempt_failure (P := P) e = false) t ->
  waits suffix -> waits (t ++ suffix).
Proof.
  intros t suffix H Hs. induction H as [|e t He Ht IH]; cbn [app waits].
  - exact Hs.
  - split; [congruence | exact IH].
Qed.

Lemma session_quiet : forall t : list (event P),
  Forall session_event t ->
  Forall (fun e => is_open e = false) t
  /\ Forall (fun e => is_sleep e = false) t
  /\ Forall (fun e => is_attempt_failure e = false) t.
Proof.
  intros t H. repeat split; (eapply Forall_impl; [|exact H]);
    intros [] He; try reflexivity; try contradiction.
  - destruct c; try reflexivity; contradiction.
  - destruct l; try reflexivity. destruct m; try reflexivity; contradiction.
Qed.

Lemma reports_quiet : forall (f : event P -> bool) p msg,
  (forall p' m', f (EvProgress p' m') = false) ->
  Forall (fun e => f e = false) (reports_of cb p msg).
Proof.
  intros f p msg H. unfold reports_of.
  induction (cb p msg); cbn [map]; constructor; auto.
Qed.

(** The events of the body of an attempt: one session is opened, and
    nothing of the end of a failed attempt is there yet. *)
Lemma body_counts : forall s,
  count is_open (events body s) = 1%nat
  /\ Forall (fun e => is_sleep e = false) (events body s)
  /\ Forall (fun e => is_attempt_failure e = false) (events body s).
Proof.
  intros [w f].
  assert (Hc : count is_open (events connect_ (w, f)) = 1%nat
               /\ Forall (fun e => is_sleep e = false)
                    (events connect_ (w, f))
               /\ Forall (fun e => is_attempt_failure e = false)
                    (events connect_ (w, f))).
  { unfold events. rewrite connect_run. cbv zeta.
    destruct (snd (imap P w (IMAP4_SSL host))); cbn [snd];
      rewrite count_app, (count_reports is_open) by reflexivity;
      (split; [reflexivity|]);
      split; apply Forall_app;
        (split; [apply reports_quiet; reflexivity
                | repeat constructor]). }
  destruct Hc as (Hc1 & Hc2 & Hc3).
  destruct (attempt_body_run (w, f)) as [(x & Hv & Hrun)|(Hv & Hrun)];
    unfold events at 1 2 3; rewrite Hrun; cbn [snd].
  - auto.
  - destruct (session_quiet _ (after_emits (final connect_ (w, f))))
      as (Ho & Hs & Hf).
    rewrite count_app, Hc1, (count_none _ _ Ho).
    split; [reflexivity|]. split; apply Forall_app; auto.
Qed.
End Attempts.

Section Exhausted.
Context (P : Platform).
Variables (email_address access_token : pystr) (cb : callback_t).
Variable lct : option (datetime P).

Let body := attempt_body P email_address access_token cb lct.

(** An attempt that raises has added no record. *)
Lemma body_raise_keeps_records : forall s x,
  value body s = Raise x ->
  mail_records (snd (final body s)) = mail_records (snd s).
Proof.
  intros s x Hx. subst body.
  set (J := fun recs : list (record P) => recs = mail_records (snd s)).
  set (Q := fun (r : outcome (control P)) (s' : state P * frame P) =>
              match r with
              | Raise _ => on_records J s'
              | Ok _ => True
              end).
  assert (HR : forall e s', on_records J s' -> Q (Raise e) s')
    by (intros e s' H; exact H).
  assert (H : hoare (on_records J)
                (attempt_body P email_address access_token cb lct) Q).
  { unfold attempt_body.
    apply hoare_bind_keeps; [apply connect_keeps | intros _ | exact HR].
    apply hoare_bind_keeps; [apply move_junk_keeps | intros _ | exact HR].
    unfold fetch_inbox.
    apply hoare_bind_keeps; [keeps_step | intros _ | exact HR].
    apply hoare_bind_keeps; [keeps_step | intros _ | exact HR].
    apply hoare_bind_keeps;
      [repeat keeps_step | intros [status data] | exact HR].
    destruct (negb (pystr_eqb status OK)).
    - apply hoare_bind_keeps; [keeps_step | intros _ | exact HR].
      apply hoare_bind_keeps;
        [apply mail_logout_keeps | intros _ | exact HR].
      apply hoare_ret. intros s' _. exact I.
    - apply hoare_bind_keeps; [keeps_step | intros ids | exact HR].
      apply hoare_bind_keeps; [keeps_step | intros _ | exact HR].
      apply hoare_bind with (J := fun _ _ => True).
      + intros [w [m recs]] _.
        destruct (message_loop_records P cb (cap ids) 0
                    (Z.of_nat (length (cap ids))) w m recs) as [Hv _].
        unfold value.
        change {| mail := m; mail_records := recs |} with (frame_of m recs).
        rewrite Hv. exact I.
      + intros _ s' _. exact I. }
  specialize (H s eq_refl). unfold Q in H.
  unfold value in Hx. unfold value in H. rewrite Hx in H. exact H.
Qed.

Lemma waits_failure_events : forall retry r tl suffix,
  (tl = [] \/ exists o, tl = [EvImap (P := P) Logout o]) ->
  waits suffix ->
  waits (failure_events P retry r ++ tl ++ suffix).
Proof.
  intros retry r tl suffix Htl Hs.
  assert (Ht : waits (tl ++ suffix)).
  { destruct Htl as [->|(o & ->)]; cbn [app waits]; [exact Hs|].
    split; [discriminate | exact Hs]. }
  destruct r as [c|x]; cbn [failure_events app waits]; [exact Ht|].
  split; [intros _; eexists; reflexivity|].
  split; [discriminate | exact Ht].
Qed.

Lemma count_failure_events : forall retry r tl,
  (tl = [] \/ exists o, tl = [EvImap (P := P) Logout o]) ->
  let n := match r with Ok _ => 0%nat | Raise _ => 1%nat end in
  count is_open (failure_events P retry r ++ tl) = 0%nat
  /\ count is_sleep (failure_events P retry r ++ tl) = n
  /\ count is_attempt_failure (failure_events P retry r ++ tl) = n.
Proof.
  intros retry r tl Htl.
  destruct Htl as [->|(o & ->)]; destruct r as [c|x];
    repeat split; reflexivity.
Qed.

Lemma retry_loop_summary : forall retries s,
  let tr :=
    events (retry_loop P email_address access_token cb lct retries) s in
  (count is_open tr <= length retries)%nat
  /\ count is_sleep tr = count is_attempt_failure tr
  /\ (count is_attempt_failure tr <= length retries)%nat
  /\ (forall suffix, waits suffix -> waits (tr ++ suffix))
  /\ (count is_attempt_failure tr = length retries ->
      count is_open tr = length retries
      /\ value (retry_loop P email_address access_token cb lct retries) s
         = Ok (mail_records (snd s))).
Proof.
  induction retries as [|retry rest IH]; intros s tr.
  - subst tr. cbn. repeat split; auto.
  - destruct (attempt_run P email_address access_token cb lct retry s)
      as (s' & tl & Hrun & Htl & Hsnd).
    fold body in Hrun, Hsnd.
    destruct (body_counts P email_address access_token cb lct s)
      as (Hbo & Hbs & Hbf).
    fold body in Hbo, Hbs, Hbf.
    destruct (count_failure_events retry (value body s) tl Htl)
      as (Hfo & Hfs & Hff).
    pose proof (waits_failure_events retry (value body s) tl) as Hfw.
    set (c := match value body s with Ok c => c | Raise _ => Continue end)
      in *.
    set (ta := events body s ++ failure_events P retry (value body s) ++ tl)
      in *.
    set (K := fun c : control P =>
                match c with
                | Continue =>
                    retry_loop P email_address access_token cb lct rest
                | Break =>
                    bind (get_frame P) (fun f => ret (mail_records f))
                | Return v => ret v
                end).
    assert (Hcons :
      retry_loop P email_address access_token cb lct (retry :: rest) s
      = (value (K c) s', final (K c) s', ta ++ events (K c) s')).
    { assert (Hf : final (attempt P email_address access_token cb lct retry)
                     s = s') by (unfold final; rewrite Hrun; reflexivity).
      assert (He : events (attempt P email_address access_token cb lct
                             retry) s = ta)
        by (unfold events; rewrite Hrun; reflexivity).
      cbn [retry_loop].
      rewrite (run_bind_ok _ _ _ _ K s c)
        by (unfold value; rewrite Hrun; reflexivity).
      rewrite Hf, He. reflexivity. }
    assert (Hev :
      events (retry_loop P email_address access_token cb lct
                (retry :: rest)) s = ta ++ events (K c) s')
      by (unfold events at 1; rewrite Hcons; reflexivity).
    assert (Hval :
      value (retry_loop P email_address access_token cb lct
               (retry :: rest)) s = value (K c) s')
      by (unfold value at 1; rewrite Hcons; reflexivity).
    subst tr. rewrite Hev, Hval. clear Hcons Hev Hval.
    assert (Hao : count is_open ta = 1%nat).
    { unfold ta. rewrite count_app, Hbo, Hfo. reflexivity. }
    assert (Has : count is_sleep ta = count is_attempt_failure ta).
    { unfold ta.
      rewrite (count_app is_sleep (events body s)),
        (count_app is_attempt_failure (events body s)),
        (count_none P _ _ Hbs), (count_none P _ _ Hbf), Hfs, Hff.
      reflexivity. }
    assert (Haf : count is_attempt_failure ta
                  = match value body s with
                    | Ok _ => 0%nat
                    | Raise _ => 1%nat
                    end).
    { unfold ta. rewrite count_app, (count_none P _ _ Hbf), Hff.
      reflexivity. }
    assert (Haw : forall suffix, waits suffix -> waits (ta ++ suffix)).
    { intros suffix Hs. unfold ta. rewrite <- !app_assoc.
      apply waits_app_quiet; [exact Hbf|]. apply Hfw; assumption. }
    clearbody ta. clear Hfw Hfo Hfs Hff Hbo Hbs Hbf Hrun.
    specialize (IH s'). cbv zeta in IH.
    destruct IH as (I1 & I2 & I3 & I4 & I5).
    destruct (value body s) as [c0|x] eqn:Eb.
    + (* the attempt returned *)
      subst c. destruct c0 as [| |v]; unfold K.
      * cbn. rewrite !app_nil_r.
        split; [lia|]. split; [exact Has|]. split; [lia|].
        split; [exact Haw|]. intros H. lia.
      * rewrite !count_app, Hao, Has, Haf. cbn [length].
        split; [lia|]. split; [lia|]. split; [lia|]. split.
        -- intros suffix Hs. rewrite <- app_assoc. apply Haw, I4, Hs.
        -- intros H. lia.
      * cbn. rewrite !app_nil_r.
        split; [lia|]. split; [exact Has|]. split; [lia|].
        split; [exact Haw|]. intros H. lia.
    + (* the attempt raised *)
      subst c. unfold K.
      assert (Erec : mail_records (snd s') = mail_records (snd s)).
      { rewrite Hsnd. apply (body_raise_keeps_records s x Eb). }
      rewrite !count_app, Hao, Has, Haf. cbn [length].
      split; [lia|]. split; [lia|]. split; [lia|]. split.
      * intros suffix Hs. rewrite <- app_assoc. apply Haw, I4, Hs.
      * intros H.
        assert (H' : count is_attempt_failure
                       (events (retry_loop P email_address access_token
                                  cb lct rest) s') = length rest) by lia.
        destruct (I5 H') as [I6 I7]. split; [lia|].
        rewrite I7, Erec. reflexivity.
Qed.
End Exhausted.

Section Pass.
Context (P : Platform).

Lemma fetch_emails_run : forall e t f cbo lct w,
  let run :=
    retry_loop P e t (callback_or_none cbo) (normalize_check_time P lct)
      [0; 1; 2] (w, frame_of false []) in
  fetch_emails P e t f cbo lct w
  = (fst (fst run), fst (snd (fst run)),
     EvLog INFO (LogFetchStart e) :: snd run).
Proof.
  intros. subst run. unfold fetch_emails, fetch_emails_in_frame.
  cbv [bind logger emit]. unfold callback_or_none, frame_of.
  destruct (retry_loop P e t _ _ [0; 1; 2] _) as [[r s] tr].
  reflexivity.
Qed.

Lemma outside_quiet : forall t : list (event P),
  Forall outside_fetch t ->
  Forall (fun e => is_open e = false) t
  /\ Forall (fun e => is_sleep e = false) t
  /\ Forall (fun e => is_attempt_failure e = false) t.
Proof.
  intros t H. repeat split; (eapply Forall_impl; [|exact H]);
    intros [] He; try reflexivity; try contradiction.
  destruct l; try reflexivity. destruct m; try reflexivity; contradiction.
Qed.

Lemma service_outside : forall t : list (event P),
  Forall service_event t -> Forall outside_fetch t.
Proof.
  intros t H. eapply Forall_impl; [|exact H].
  intros [] He; try exact I; try contradiction. exact He.
Qed.

Lemma reports_outside : forall cb p msg,
  Forall (outside_fetch (P := P)) (reports_of cb p msg).
Proof.
  intros. unfold reports_of. induction (cb p msg); cbn [map];
    constructor; auto. exact I.
Qed.

(** The two ways a pass can go: it fails before the fetch, or it runs
    to its end. *)
Lemma check_mail_cases : forall info cb w,
  (exists msg w' t,
     check_mail P info cb w = (Ok (failure msg), w', t)
     /\ Forall outside_fetch t)
  \/ (exists c token w1 t1 w2 t2 recs w3 t3 n w4 t4 w5 t5,
        get_new_access_token P (info_refresh_token info)
          (info_client_id info) w
        = (Ok (Some (c :: token)), w1, t1)
        /\ update_email_token_call P (info_id info) (c :: token) w1
           = (Ok tt, w2, t2)
        /\ fetch_emails P (info_email info) (c :: token) (u "inbox")
             (Some (folder_progress_callback (callback_or_none cb))) None w2
           = (Ok recs, w3, t3)
        /\ save_loop P (info_id info) recs 0 w3 = (Ok n, w4, t4)
        /\ try_except
             (bind (update_check_time_call P (info_id info))
                (fun _ => logger INFO
                            (LogCheckTimeUpdated (info_id info)
                               (info_email info))))
             (fun e => logger ERROR (LogCheckTimeFailed e)) w4
           = (Ok tt, w5, t5)
        /\ Forall service_event t1 /\ Forall service_event t2
        /\ Forall service_event t4 /\ Forall service_event t5).
Proof.
  intros info cb w.
  set (rt := info_refresh_token info).
  set (cid := info_client_id info).
  pose proof (get_new_access_token_emits P rt cid w) as Q1.
  unfold events in Q1.
  destruct (get_new_access_token P rt cid w) as [[rtok w1] t1] eqn:E1.
  destruct (get_new_access_token_total P rt cid w) as [tok Htok].
  unfold value in Htok. rewrite E1 in Htok. cbn [fst snd] in *. subst rtok.
  pose proof Q1 as Q1s. apply service_outside in Q1.
  assert (Hhead : Forall (outside_fetch (P := P))
                    ([EvLog INFO (LogCheckStart (info_id info)
                                    (info_email info))]
                     ++ reports_of (callback_or_none cb) 0
                          (u "正在获取访问令牌..."))).
  { apply Forall_app. split; [repeat constructor | apply reports_outside]. }
  assert (Hno : match tok with Some (_ :: _) => False | _ => True end ->
                exists msg w' t,
                  check_mail P info cb w = (Ok (failure msg), w', t)
                  /\ Forall outside_fetch t).
  { intros Hf.
    pose proof (check_mail_without_token P info cb w tok w1 t1 E1 Hf) as Hc.
    cbv zeta in Hc. eexists _, _, _. split; [exact Hc|].
    repeat (apply Forall_app; split); try assumption;
      try apply reports_outside; repeat (constructor; try exact I). }
  destruct tok as [[|c token]|]; [left; apply Hno; exact I | |
                                  left; apply Hno; exact I].
  pose proof (emits_update_email_token_call P outside_fetch (info_id info)
                (c :: token) (fun _ => I) w1) as Q2.
  pose proof (emits_update_email_token_call P service_event (info_id info)
                (c :: token) (fun _ => I) w1) as Q2s.
  unfold events in Q2, Q2s.
  destruct (update_email_token_call P (info_id info) (c :: token) w1)
    as [[[[]|e] w2] t2] eqn:E2; cbn [snd] in Q2, Q2s.
  - right.
    destruct (fetch_emails P (info_email info) (c :: token) (u "inbox")
                (Some (folder_progress_callback (callback_or_none cb)))
                None w2) as [[rf w3] t3] eqn:E3.
    destruct (fetch_emails_total P (info_email info) (c :: token)
                (u "inbox")
                (Some (folder_progress_callback (callback_or_none cb)))
                None w2) as [recs Hrecs].
    unfold value in Hrecs. rewrite E3 in Hrecs. cbn [fst] in Hrecs.
    subst rf.
    pose proof (save_loop_emits P (info_id info) recs 0 w3) as Q4.
    unfold events in Q4.
    destruct (save_loop P (info_id info) recs 0 w3) as [[rs w4] t4] eqn:E4.
    destruct (save_loop_total P (info_id info) recs 0 w3) as [n Hn].
    unfold value in Hn. rewrite E4 in Hn. cbn [fst snd] in *. subst rs.
    assert (Q5 : emits (service_event (P := P))
                   (try_except
                      (bind (update_check_time_call P (info_id info))
                         (fun _ => logger INFO
                                     (LogCheckTimeUpdated (info_id info)
                                        (info_email info))))
                      (fun e => logger ERROR (LogCheckTimeFailed e)))).
    { repeat first [ apply emits_update_check_time_call; intros
                   | emits_step ]; exact I. }
    specialize (Q5 w4). unfold events in Q5.
    destruct (check_time_run P (info_id info) (info_email info) w4)
      as (o & w5 & rest & E5).
    rewrite E5 in Q5. cbn [snd] in Q5.
    exists c, token, w1, t1, w2, t2, recs, w3, t3, n, w4, t4, w5,
      (EvUpdateCheckTime (info_id info) o :: rest).
    repeat split; auto.
  - left.
    pose proof (check_mail_store_refuses_token P info cb w c token w1 t1 e
                  w2 t2 E1 E2) as Hc.
    cbv zeta in Hc. eexists _, _, _. split; [exact Hc|].
    repeat (apply Forall_app; split); try assumption;
      try apply reports_outside; repeat (constructor; try exact I).
Qed.
End Pass.

Section PassCounts.
Context (P : Platform).

Lemma waits_split : forall t : list (event P),
  waits t ->
  forall pre e post,
    t = pre ++ e :: post -> is_attempt_failure e = true ->
    exists post', post = EvSleep 1 :: post'.
Proof.
  intros t H pre. revert t H.
  induction pre as [|x pre IH]; intros t H e post E He; subst t;
    cbn [app waits] in H.
  - apply H, He.
  - apply (IH _ (proj2 H) e post eq_refl He).
Qed.

Lemma waits_app_outside : forall t suffix : list (event P),
  Forall outside_fetch t -> waits suffix -> waits (t ++ suffix).
Proof.
  intros t suffix H. apply waits_app_quiet. apply outside_quiet, H.
Qed.
End PassCounts.

(* ================================================================== *)
(** ** Progress reports *)
(* ================================================================== *)




Section ClimbFacts.
Lemma climbs_le : forall l lo hi, climbs lo l hi -> lo <= hi.
Proof.
  induction l as [|x l IH]; intros lo hi H; cbn [climbs] in H.
  - exact H.
  - destruct H as [H1 H2]. specialize (IH _ _ H2). lia.
Qed.



End ClimbFacts.

Section RisesFacts.
Context {P : Platform}.




End RisesFacts.

Section RisesEngine.
Context (P : Platform).
Let cb := folder_progress_callback watching.







End RisesEngine.

Section Returns.
Context {P : Platform}.

Lemma returns_only_bind : forall St A B (Q : B -> Prop)
    (m : M P St A) (k : A -> M P St B),
  (forall a, returns_only Q (k a)) -> returns_only Q (bind m k).
Proof.
  intros St A B Q m k H s b Hv.
  destruct (value m s) as [a|e] eqn:E; unfold value at 1 in Hv.
  - rewrite (run_bind_ok _ _ _ m k s a E) in Hv. cbn [fst] in Hv.
    apply (H a _ _ Hv).
  - rewrite (run_bind_raise _ _ _ m k s e E) in Hv. discriminate.
Qed.

Lemma returns_only_ret : forall St A (Q : A -> Prop) (a : A),
  Q a -> returns_only Q (ret a : M P St A).
Proof.
  intros St A Q a H s b Hv. cbv in Hv. injection Hv as <-. exact H.
Qed.

Lemma attempt_body_returns : forall e t cb lct,
  returns_only (fun c => c <> Continue)
    (attempt_body P e t cb lct).
Proof.
  intros e t cb lct. unfold attempt_body, fetch_inbox.
  repeat match goal with
         | |- returns_only _ (bind _ _) => apply returns_only_bind; intros
         | |- returns_only _ (match ?x with _ => _ end) => destruct x
         | |- returns_only _ (ret _) =>
             apply returns_only_ret; discriminate
         end.
Qed.
End Returns.

Section SessionFacts.
Context {P : Platform}.









End SessionFacts.

Section RetryProgress.
Context (P : Platform).
Variables (email_address access_token : pystr).
Variable lct : option (datetime P).

Let cb := folder_progress_callback watching.
Let connect_ := connect P email_address access_token cb.
Let body := attempt_body P email_address access_token cb lct.



End RetryProgress.

(* ================================================================== *)
(** ** The auth string *)
(* ================================================================== *)

(** C9: for every address and token, [generate_auth_string] returns
    exactly [user=<address>\x01auth=Bearer <token>\x01\x01]: the two
    arguments are copied as they are, between literal separators of
    code 1, so the result has 20 characters more than the two
    together. *)
Theorem generate_auth_string_exact :
  forall user token : pystr,
    generate_auth_string user token
    = [117; 115; 101; 114; 61]%N ++ user
      ++ [1%N; 97; 117; 116; 104; 61; 66; 101; 97; 114; 101; 114; 32]%N
      ++ token ++ [1; 1]%N
    /\ length (generate_auth_string user token)
       = (length user + length token + 20)%nat.
Proof.
  intros user token.
  assert (E : generate_auth_string user token
    = [117; 115; 101; 114; 61]%N ++ user
      ++ [1%N; 97; 117; 116; 104; 61; 66; 101; 97; 114; 101; 114; 32]%N
      ++ token ++ [1; 1]%N) by reflexivity.
  split; [exact E|]. rewrite E.
  repeat rewrite length_app. simpl. lia.
Qed.


(* ================================================================== *)
(** ** The content extractor *)
(* ================================================================== *)

(** C2, as amended: for a multipart message, when the accumulated HTML
    buffer is not blank the content is that buffer, followed by the
    HTML footer when file names were collected; when it is blank the
    content is the plain-text buffer, followed by the plain-text footer
    when file names were collected; with a blank HTML buffer and the
    one file name [report.pdf] the content ends with the plain-text
    footer, which contains [report.pdf].  The format of the footer is
    the format of the body. *)
Theorem rich_content_follows_html_buffer :
  forall (P : Platform) (msg : message),
    is_multipart msg = true ->
    let html := html_body P msg in
    let names := attachment_names P msg in
    (truthy (strip html) = true ->
     _extract_rich_content P msg = html ++ footer true names)
    /\ (truthy (strip html) = false ->
        _extract_rich_content P msg = plain_body P msg ++ footer false names)
    /\ (truthy (strip html) = false ->
        filenames (walk msg) = [u "report.pdf"] ->
        decode_mime_words P (u "report.pdf") = u "report.pdf" ->
        _extract_rich_content P msg
        = plain_body P msg ++ text_footer [u "report.pdf"]
        /\ contains (u "report.pdf") (text_footer [u "report.pdf"]) = true).
Proof.
  intros P msg Hm html names.
  destruct (scan_multipart P msg Hm) as (Ht & Hh & Ha).
  assert (E : _extract_rich_content P msg
              = if truthy (strip html)
                then html ++ footer true names
                else plain_body P msg ++ footer false names).
  { unfold _extract_rich_content. rewrite Ht, Hh, Ha.
    fold html. fold names. rewrite !truthy_footer.
    destruct (truthy (strip html)); destruct (truthy names); simpl;
      rewrite ?app_nil_r; reflexivity. }
  split; [|split].
  - intros H. rewrite E, H. reflexivity.
  - intros H. rewrite E, H. reflexivity.
  - intros H Hf Hd. rewrite E, H. split; [|reflexivity].
    unfold names, attachment_names. rewrite Hf. simpl. rewrite Hd.
    reflexivity.
Qed.

(** The theorem at a message with an HTML body and an attached
    [report.pdf], and at a plain-text message with the same
    attachment. *)
Lemma rich_content_follows_html_buffer_witness :
  (truthy (strip (html_body Scripted.quiet Scripted.html_with_attachment))
   = true
   /\ _extract_rich_content Scripted.quiet Scripted.html_with_attachment
      = html_body Scripted.quiet Scripted.html_with_attachment
        ++ footer true
             (attachment_names Scripted.quiet Scripted.html_with_attachment))
  /\ (filenames (walk Scripted.plain_with_attachment) = [u "report.pdf"]
      /\ _extract_rich_content Scripted.quiet Scripted.plain_with_attachment
         = plain_body Scripted.quiet Scripted.plain_with_attachment
           ++ text_footer [u "report.pdf"]).
Proof.
  split; split.
  - vm_compute. reflexivity.
  - apply (proj1 (rich_content_follows_html_buffer Scripted.quiet
                    Scripted.html_with_attachment eq_refl)).
    vm_compute. reflexivity.
  - vm_compute. reflexivity.
  - apply (proj2 (proj2 (rich_content_follows_html_buffer Scripted.quiet
                    Scripted.plain_with_attachment eq_refl)));
      vm_compute; reflexivity.
Defined.

(** The message of [Scripted.blank_html_message] has an HTML part and a
    plain-text part, and its content is the plain-text body [hello],
    not the accumulated HTML body. *)
Lemma blank_html_part_yields_plain_body :
  has_part text_html Scripted.blank_html_message
  /\ has_part text_plain Scripted.blank_html_message
  /\ _extract_rich_content Scripted.quiet Scripted.blank_html_message
     = u "hello"
  /\ plain_body Scripted.quiet Scripted.blank_html_message = u "hello"
  /\ _extract_rich_content Scripted.quiet Scripted.blank_html_message
     <> html_body Scripted.quiet Scripted.blank_html_message
        ++ footer true
             (attachment_names Scripted.quiet Scripted.blank_html_message).
Proof.
  split; [|split; [|split; [|split]]].
  - exists (Scripted.body_part text_html "   "). split; [|reflexivity].
    right. right. left. reflexivity.
  - exists (Scripted.body_part text_plain "hello"). split; [|reflexivity].
    right. left. reflexivity.
  - vm_compute. reflexivity.
  - vm_compute. reflexivity.
  - vm_compute. discriminate.
Qed.

(* ================================================================== *)
(** ** The token refresher *)
(* ================================================================== *)

(** C4: when the answer of the token endpoint carries an error field,
    or the exchange fails in transport or in parsing, the refresher
    returns [None] after its one request, and the pass returns
    [success = false] with no command sent to the mail server and no
    second request. *)
Theorem refresh_failure_ends_pass :
  forall (P : Platform) (info : email_info P) (cb : option callback_t)
         (w w' : state P) (r : outcome response),
    let refresh :=
      get_new_access_token P (info_refresh_token info) (info_client_id info) in
    requests_post P w token_url
      (token_request (info_refresh_token info) (info_client_id info))
    = (w', r) ->
    ((exists e, r = Raise e) \/ (exists e, r = Ok (Raise e))
     \/ (exists json status,
           r = Ok (Ok json) /\ dict_get json (u "error") = Some status)) ->
    value refresh w = Ok None
    /\ count is_post (events refresh w) = 1%nat
    /\ (exists msg, value (check_mail P info cb) w = Ok (failure msg))
    /\ imap_commands (events (check_mail P info cb) w) = []
    /\ count is_post (events (check_mail P info cb) w) = 1%nat.
Proof.
  intros P info cb w w' r refresh Hpost Hfail.
  destruct (get_new_access_token_run P _ _ w w' r Hpost)
    as (tok & l & m & Hrun & Hnone).
  specialize (Hnone Hfail). subst tok.
  pose proof (check_mail_without_token P info cb w None w' _ Hrun I) as Hc.
  cbv zeta in Hc.
  unfold value, events, refresh. rewrite Hrun, Hc. cbn [fst snd].
  split; [reflexivity|]. split; [reflexivity|].
  split; [eexists; reflexivity|]. split.
  - rewrite !imap_commands_app, !imap_commands_reports. reflexivity.
  - rewrite !count_app, !count_reports by reflexivity. reflexivity.
Qed.


(** The theorem at the answer [{"error": "invalid_grant"}]. *)
Lemma refresh_failure_ends_pass_witness :
  let info := Scripted.account Scripted.refused in
  let cb := Some watching in
  let refresh :=
    get_new_access_token Scripted.refused (info_refresh_token info)
      (info_client_id info) in
  value refresh Scripted.start = Ok None
  /\ count is_post (events refresh Scripted.start) = 1%nat
  /\ (exists msg,
        value (check_mail Scripted.refused info cb) Scripted.start = Ok (failure msg))
  /\ imap_commands (events (check_mail Scripted.refused info cb) Scripted.start) = []
  /\ count is_post (events (check_mail Scripted.refused info cb) Scripted.start)
     = 1%nat.
Proof.
  apply (refresh_failure_ends_pass Scripted.refused (Scripted.account Scripted.refused)
           (Some watching) Scripted.start Scripted.start
           (Ok (Ok [(u "error", Some (u "invalid_grant"))]))).
  - reflexivity.
  - right. right. eexists _, _. split; [reflexivity|].
    vm_compute. reflexivity.
Defined.


(* ================================================================== *)
(** ** The search of the orchestrator *)
(* ================================================================== *)

(** C10: [check_mail] calls [fetch_emails] without a lower bound, so
    every search of the pass is for [ALL], whatever last check time the
    account holds: the run does not depend on that field, although a
    pass that succeeds asks the store to update it.  The helper
    [normalize_check_time] is taken to give [None] on [None]. *)
Theorem check_mail_always_searches_all :
  forall (P : Platform) (info : email_info P) (cb : option callback_t)
         (w : state P),
    normalize_check_time P None = None ->
    Forall (fun criteria => criteria = ALL)
      (searches (events (check_mail P info cb) w))
    /\ (forall t,
          check_mail P
            {| info_id := info_id info;
               info_email := info_email info;
               info_refresh_token := info_refresh_token info;
               info_client_id := info_client_id info;
               info_last_check_time := t |} cb w
          = check_mail P info cb w)
    /\ (forall r,
          value (check_mail P info cb) w = Ok r -> success r = true ->
          exists o,
            In (EvUpdateCheckTime (info_id info) o)
               (events (check_mail P info cb) w)).
Proof.
  intros P info cb w H. split; [|split].
  - apply searches_of_searches_all. apply check_mail_searches_all. exact H.
  - intros t. reflexivity.
  - intros r Hr Hs.
    set (rt := info_refresh_token info) in *.
    set (cid := info_client_id info) in *.
    destruct (get_new_access_token P rt cid w) as [[rtok w1] t1] eqn:E1.
    destruct (get_new_access_token_total P rt cid w) as [tok Htok].
    unfold value in Htok. rewrite E1 in Htok. simpl in Htok. subst rtok.
    destruct tok as [[|c token]|].
    + pose proof (check_mail_without_token P info cb w _ _ _ E1 I) as Hc.
      cbv zeta in Hc. unfold value in Hr. rewrite Hc in Hr.
      injection Hr as <-. discriminate.
    + destruct (update_email_token_call P (info_id info) (c :: token) w1)
        as [[[[]|e] w2] t2] eqn:E2.
      * destruct (fetch_emails P (info_email info) (c :: token) (u "inbox")
                    (Some (folder_progress_callback (callback_or_none cb)))
                    None w2) as [[rf w3] t3] eqn:E3.
        destruct (fetch_emails_total P (info_email info) (c :: token)
                    (u "inbox")
                    (Some (folder_progress_callback (callback_or_none cb)))
                    None w2) as [recs Hrecs].
        unfold value in Hrecs. rewrite E3 in Hrecs. simpl in Hrecs. subst rf.
        destruct (save_loop P (info_id info) recs 0 w3) as [[rs w4] t4] eqn:E4.
        destruct (save_loop_total P (info_id info) recs 0 w3) as [n Hn].
        unfold value in Hn. rewrite E4 in Hn. simpl in Hn. subst rs.
        destruct (check_time_run P (info_id info) (info_email info) w4)
          as (o & w5 & rest & E5).
        pose proof (check_mail_completes P info cb w _ _ _ _ _ _ _ _ _ _ _ _ _ _
                      E1 E2 E3 E4 E5) as Hc.
        cbv zeta in Hc. exists o. unfold events. rewrite Hc. cbn [snd].
        do 7 (apply in_or_app; right).
        apply in_or_app. left. left. reflexivity.
      * pose proof (check_mail_store_refuses_token P info cb w _ _ _ _ _ _ _
                      E1 E2) as Hc.
        cbv zeta in Hc. unfold value in Hr. rewrite Hc in Hr.
        injection Hr as <-. discriminate.
    + pose proof (check_mail_without_token P info cb w _ _ _ E1 I) as Hc.
      cbv zeta in Hc. unfold value in Hr. rewrite Hc in Hr.
      injection Hr as <-. discriminate.
Qed.

(** The theorem on a server that answers [OK] to everything. *)
Lemma check_mail_always_searches_all_witness :
  Forall (fun criteria => criteria = ALL)
    (searches
       (events
          (check_mail Scripted.quiet (Scripted.account Scripted.quiet)
             (Some watching)) Scripted.start)).
Proof.
  apply (check_mail_always_searches_all Scripted.quiet
           (Scripted.account Scripted.quiet) (Some watching) Scripted.start).
  reflexivity.
Defined.

(* ================================================================== *)
(** ** The records of a fetch *)
(* ================================================================== *)





(** C5: the message loop fetches the identifiers it is given in the
    order of the list, and the list is the search result cut to its
    last 100 entries, not reversed: on the search result [1 2 3] the
    pass fetches 1, then 2, then 3. *)
Theorem inbox_is_read_in_server_order :
  (forall (P : Platform) cb mail_ids s,
     let ids := cap mail_ids in
     fetched_ids
       (events (message_loop P cb 0 (Z.of_nat (length ids)) ids) s) = ids
     /\ ids = skipn (length mail_ids - 100) mail_ids
     /\ (length ids <= 100)%nat)
  /\ fetched_ids
       (events (check_mail Scripted.twice (Scripted.account Scripted.twice)
                  None) Scripted.start)
     = [b "1"; b "2"; b "3"].
Proof.
  split.
  - intros P cb mail_ids s ids. split; [apply message_loop_fetches|].
    split; [apply cap_skipn | apply cap_length].
  - vm_compute. reflexivity.
Qed.


(** C6: a message whose [Date] header is absent or cannot be parsed
    makes [parsedate_to_datetime] raise: the turn of the loop logs the
    failure and adds no record, and the loop goes on with the rest of
    the batch; whatever fails, the loop returns and fetches every
    identifier of the batch. *)
Theorem undated_message_is_not_retained :
  forall (P : Platform) cb i n mail_id rest w m recs w' typ x raw items,
    imap P w (Fetch mail_id RFC822) = (w', Ok (typ, ITuple x raw :: items)) ->
    (h_date (msg_headers (message_from_bytes P raw)) = None
     \/ exists d,
          h_date (msg_headers (message_from_bytes P raw)) = Some d
          /\ parsedate_tz P d = None) ->
    let next := message_loop P cb (i + 1) n rest (w', frame_of m recs) in
    message_loop P cb i n (mail_id :: rest) (w, frame_of m recs)
    = (fst (fst next), snd (fst next),
       reports_of cb (inbox_progress i n) INBOX
       ++ [EvImap (Fetch mail_id RFC822) (Ok (typ, ITuple x raw :: items));
           EvLog ERROR
             (LogParseFailed mail_id (u "Invalid date value or format"))]
       ++ snd next)
    /\ (forall ids s,
          value (message_loop P cb i n ids) s = Ok tt
          /\ fetched_ids (events (message_loop P cb i n ids) s) = ids).
Proof.
  intros P cb i n mail_id rest w m recs w' typ x raw items Hf Hd next.
  split.
  - rewrite message_loop_turn. cbv zeta. rewrite Hf. cbn [fst snd].
    assert (E : record_of_reply P (Ok (typ, ITuple x raw :: items))
                = Raise (u "Invalid date value or format")).
    { cbn [record_of_reply first_message].
      destruct Hd as [Hn|(d & Hs & Hp)].
      - rewrite Hn. reflexivity.
      - rewrite Hs. cbn [get_or_empty]. unfold parsedate_to_datetime.
        rewrite Hp. destruct d; reflexivity. }
    unfold turn_records, turn_events. rewrite E. fold next.
    rewrite <- !app_assoc. reflexivity.
  - intros ids [w0 [m0 recs0]]. split; [|apply message_loop_fetches].
    apply (message_loop_records P cb ids i n w0 m0 recs0).
Qed.

(** The theorem on an inbox whose message 1 has no [Date] header; the
    pass keeps message 2 only. *)
Lemma undated_message_is_not_retained_witness :
  let P := Scripted.undated in
  let w := {| Scripted.opened := 1; Scripted.selected := INBOX |} in
  let reply1 := Ok (OK, [ITuple (b "1") (b "1"); IBytes (b ")")]) in
  let next :=
    message_loop P no_callback 1 2 [b "2"] (w, frame_of true []) in
  (message_loop P no_callback 0 2 [b "1"; b "2"] (w, frame_of true [])
   = (fst (fst next), snd (fst next),
      reports_of no_callback (inbox_progress 0 2) INBOX
      ++ [EvImap (Fetch (b "1") RFC822) reply1;
          EvLog ERROR
            (LogParseFailed (b "1") (u "Invalid date value or format"))]
      ++ snd next)
   /\ (forall ids s,
         value (message_loop P no_callback 0 2 ids) s = Ok tt
         /\ fetched_ids (events (message_loop P no_callback 0 2 ids) s)
            = ids))
  /\ option_map total
       (match value (check_mail P (Scripted.account P) None) Scripted.start
        with Ok r => Some r | Raise _ => None end)
     = Some (Some 1).
Proof.
  split.
  - apply (undated_message_is_not_retained Scripted.undated no_callback 0 2
             (b "1") [b "2"]
             {| Scripted.opened := 1; Scripted.selected := INBOX |}
             true []
             {| Scripted.opened := 1; Scripted.selected := INBOX |}
             OK (b "1") (b "1") [IBytes (b ")")]).
    + reflexivity.
    + left. reflexivity.
  - vm_compute. reflexivity.
Defined.

(* ================================================================== *)
(** ** The junk scan *)
(* ================================================================== *)

(** C8, as amended: within one attempt the junk scan never raises; it
    probes the aliases in their order; it probes every alias unless it
    stops, and it stops at the first alias whose [select] answers [OK]
    and whose processing raises no exception, so that at most one
    alias is expunged in one attempt; an exception while an alias is
    probed or processed, and a copy that fails, end neither the scan
    nor the attempt: once the session is authenticated the inbox is
    selected. *)
Theorem junk_scan_is_best_effort :
  forall (P : Platform) (aliases : list pystr) (s : state P * frame P),
    let tr := events (junk_loop P aliases) s in
    value (junk_loop P aliases) s = Ok tt
    /\ (exists k, selects tr = firstn k aliases)
    /\ (selects tr = aliases
        \/ exists pre e post,
             tr = pre ++ e :: post
             /\ selected_ok e = true /\ existsb breaks post = false)
    /\ (forall pre e post,
          tr = pre ++ e :: post ->
          selected_ok e = true -> existsb breaks post = false ->
          selects post = [])
    /\ (count is_expunged tr <= 1)%nat
    /\ (forall e t cb lct s',
          value (connect P e t cb) s' = Ok tt ->
          In (Select INBOX)
             (imap_commands (events (attempt_body P e t cb lct) s'))).
Proof.
  intros P aliases s tr.
  destruct (junk_loop_scan P aliases s) as (H1 & H2 & H3 & H4 & H5).
  repeat split; try assumption.
  intros e t cb lct s'. apply attempt_body_reaches_inbox.
Qed.

(** The theorem on a server whose search in [Junk Email] raises: the
    scan goes on to [Junk], selects it and stops there. *)
Lemma junk_scan_is_best_effort_witness :
  let P := Scripted.junk_search_fails in
  let s := Scripted.in_session P Scripted.start in
  let tr := events (junk_loop P junk_aliases) s in
  (selected_ok (nth 3 tr (EvSleep 0)) = true
   /\ selects (skipn 4 tr) = [])
  /\ In (Select INBOX)
        (imap_commands
           (events (attempt_body P (u "user@outlook.com") (u "tok")
                      no_callback None)
              (Scripted.start, frame_of false []))).
Proof.
  intros P s tr.
  pose proof (junk_scan_is_best_effort P junk_aliases s) as H.
  cbv zeta in H. destruct H as (_ & _ & _ & Hstop & _ & Hinbox).
  split; [split|].
  - vm_compute. reflexivity.
  - apply (Hstop (firstn 3 tr) (nth 3 tr (EvSleep 0)) (skipn 4 tr));
      vm_compute; reflexivity.
  - apply Hinbox. vm_compute. reflexivity.
Defined.

(** On a server whose search in [Junk Email] raises, [Junk Email]
    selects and yet [Junk] is probed and expunged; and in a pass of two
    sessions a junk folder is expunged in each: [Junk Email], then
    [Junk]. *)
Lemma junk_scan_goes_on_after_a_select :
  (let P := Scripted.junk_search_fails in
   let tr :=
     events (junk_loop P junk_aliases) (Scripted.in_session P Scripted.start) in
   tr = nth 0 tr (EvSleep 0) :: skipn 1 tr
   /\ selected_ok (nth 0 tr (EvSleep 0)) = true
   /\ selects (skipn 1 tr) = [Scripted.junk]
   /\ count is_expunged tr = 1%nat)
  /\ (let P := Scripted.two_sessions in
      let tr := events (check_mail P (Scripted.account P) None) Scripted.start in
      count is_expunged tr = 2%nat
      /\ filter (fun c => match c with Copy _ _ => true | _ => false end)
           (imap_commands tr)
         = [Copy (b "1") INBOX; Copy (b "5") INBOX]
      /\ option_map success
           (match value (check_mail P (Scripted.account P) None) Scripted.start
            with Ok r => Some r | Raise _ => None end)
         = Some true).
Proof.
  split; cbv zeta; repeat split; vm_compute; reflexivity.
Qed.

(* ================================================================== *)
(** ** The retries *)
(* ================================================================== *)

(** C1: in every pass at most 3 sessions are opened, the log line of
    every failed attempt is followed at once by a wait of one second,
    and there are as many waits as failed attempts; but a pass whose 3
    attempts have all failed still ends with [success = true], with 0
    messages fetched and 0 saved: [fetch_emails] swallows the third
    exception as it did the others and returns its empty list. *)
Theorem exhausted_retries_end_in_success :
  forall (P : Platform) (info : email_info P) (cb : option callback_t)
         (w : state P),
    let tr := events (check_mail P info cb) w in
    (count is_open tr <= 3)%nat
    /\ (forall pre e post,
          tr = pre ++ e :: post -> is_attempt_failure e = true ->
          exists post', post = EvSleep 1 :: post')
    /\ count is_sleep tr = count is_attempt_failure tr
    /\ (count is_attempt_failure tr = 3%nat ->
        count is_open tr = 3%nat
        /\ exists msg,
             value (check_mail P info cb) w
             = Ok {| success := true; message_ := msg;
                     total := Some 0; saved := Some 0 |}).
Proof.
  intros P info cb w tr.
  assert (Hfail : forall t : list (event P),
            Forall outside_fetch t ->
            count is_open t = 0%nat /\ count is_sleep t = 0%nat
            /\ count is_attempt_failure t = 0%nat).
  { intros t Ht. destruct (outside_quiet P t Ht) as (H1 & H2 & H3).
    rewrite !(count_none P) by assumption. auto. }
  destruct (check_mail_cases P info cb w)
    as [(msg & w' & t & Hc & Hq)
       |(c & token & w1 & t1 & w2 & t2 & recs & w3 & t3 & n & w4 & t4 & w5
         & t5 & E1 & E2 & E3 & E4 & E5 & Q1 & Q2 & Q4 & Q5)].
  - subst tr. unfold events, value. rewrite Hc. cbn [fst snd].
    destruct (Hfail t Hq) as (H1 & H2 & H3). rewrite H1, H2, H3.
    split; [lia|]. split; [|split; [reflexivity | discriminate]].
    apply waits_split. rewrite <- (app_nil_r t).
    apply waits_app_outside; [exact Hq | exact I].
  - apply service_outside in Q1, Q2, Q4, Q5.
    pose proof (check_mail_completes P info cb w c token w1 t1 w2 t2 recs
                  w3 t3 n w4 t4 w5 t5 E1 E2 E3 E4 E5) as Hc.
    cbv zeta in Hc.
    rewrite fetch_emails_run in E3. cbv zeta in E3.
    set (loop := retry_loop P (info_email info) (c :: token)
                   (callback_or_none
                      (Some (folder_progress_callback (callback_or_none cb))))
                   (normalize_check_time P None) [0; 1; 2]) in *.
    destruct (retry_loop_summary P (info_email info) (c :: token)
                (callback_or_none
                   (Some (folder_progress_callback (callback_or_none cb))))
                (normalize_check_time P None) [0; 1; 2]
                (w2, frame_of false []))
      as (S1 & S2 & S3 & S4 & S5).
    fold loop in S1, S2, S3, S4, S5.
    unfold events, value in S1, S2, S3, S4, S5.
    destruct (loop (w2, frame_of false [])) as [[rl sl] tl].
    cbn [fst snd length] in *. injection E3 as -> <- <-.
    destruct (Hfail _ Q1) as (A1 & A2 & A3).
    destruct (Hfail _ Q2) as (B1 & B2 & B3).
    destruct (Hfail _ Q4) as (C1 & C2 & C3).
    destruct (Hfail _ Q5) as (D1 & D2 & D3).
    assert (Hcount : forall f : event P -> bool,
              (forall p m, f (EvProgress p m) = false) ->
              (forall m, f (EvLog INFO m) = false) ->
              count f t1 = 0%nat -> count f t2 = 0%nat ->
              count f t4 = 0%nat -> count f t5 = 0%nat ->
              count f tr = count f tl).
    { intros f Hp Hl F1 F2 F4 F5. subst tr. unfold events. rewrite Hc.
      cbn [snd]. rewrite !count_app, !count_reports by exact Hp.
      rewrite F1, F2, F4, F5. unfold count. cbn [filter].
      rewrite !Hl. cbn [length]. lia. }
    rewrite (Hcount is_open), (Hcount is_sleep),
      (Hcount is_attempt_failure); try assumption; try reflexivity.
    split; [exact S1|]. split; [|split; [exact S2|]].
    + apply waits_split. subst tr. unfold events. rewrite Hc. cbn [snd].
      rewrite <- !app_assoc. cbn [app].
      split; [discriminate|].
      apply waits_app_outside; [apply reports_outside|].
      apply waits_app_outside; [exact Q1|].
      apply waits_app_outside; [exact Q2|].
      apply waits_app_outside; [apply reports_outside|].
      split; [discriminate|]. apply S4.
      apply waits_app_outside; [apply reports_outside|].
      apply waits_app_outside; [exact Q4|].
      apply waits_app_outside; [exact Q5|].
      apply waits_app_outside; [apply reports_outside|].
      split; [discriminate | exact I].
    + intros H3. destruct (S5 H3) as [S6 S7]. split; [exact S6|].
      cbn [snd frame_of mail_records] in S7. injection S7 as ->.
      cbn [save_loop ret] in E4. injection E4 as <- _ _.
      subst tr. unfold value. rewrite Hc. cbn [fst length Z.of_nat].
      eexists. reflexivity.
Qed.


(** The theorem on a server that refuses every connection. *)
Lemma exhausted_retries_end_in_success_witness :
  let P := Scripted.unreachable in
  let tr :=
    events (check_mail P (Scripted.account P) (Some watching)) Scripted.start in
  count is_attempt_failure tr = 3%nat
  /\ count is_open tr = 3%nat
  /\ exists msg,
       value (check_mail P (Scripted.account P) (Some watching)) Scripted.start
       = Ok {| success := true; message_ := msg;
               total := Some 0; saved := Some 0 |}.
Proof.
  intros P tr.
  assert (H3 : count is_attempt_failure tr = 3%nat)
    by (vm_compute; reflexivity).
  split; [exact H3|].
  apply (proj2 (proj2 (proj2
           (exhausted_retries_end_in_success P (Scripted.account P)
              (Some watching) Scripted.start)))).
  exact H3.
Defined.


(* ================================================================== *)
(** ** C7: the progress values of a successful pass *)
(* ================================================================== *)




(* ================================================================== *)
(** * The handler object, the store and the rest of the fetch *)
(* ================================================================== *)

(* ================================================================== *)
(** ** The Handler.handler object: connecting and closing *)
(* ================================================================== *)

Section HandlerSession.
Context (P : Platform).

(** The run of [Handler.connect], from the answers of the server. *)
Lemma handler_connect_run : forall (w : state P) (self : Handler.handler),
  let auth :=
    Authenticate XOAUTH2
      (generate_auth_string (Handler.self_email_address self)
         (Handler.self_access_token self)) in
  let o := imap P w (IMAP4_SSL host) in
  let a := imap P (fst o) auth in
  let failed e :=
    EvLog ERROR (LogMessage (u "Outlook连接失败: " ++ e)) in
  Handler.connect P (w, self)
  = match snd o with
    | Raise e =>
        (Ok false,
         (fst o,
          {| Handler.self_email_address := Handler.self_email_address self;
             Handler.self_access_token := Handler.self_access_token self;
             Handler.self_mail := Handler.self_mail self;
             Handler.self_error := Some e |}),
         [EvImap (IMAP4_SSL host) (snd o); failed e])
    | Ok _ =>
        match snd a with
        | Ok _ =>
            (Ok true,
             (fst a,
              {| Handler.self_email_address := Handler.self_email_address self;
                 Handler.self_access_token := Handler.self_access_token self;
                 Handler.self_mail := true;
                 Handler.self_error := Handler.self_error self |}),
             [EvImap (IMAP4_SSL host) (snd o); EvImap auth (snd a)])
        | Raise e =>
            (Ok false,
             (fst a,
              {| Handler.self_email_address := Handler.self_email_address self;
                 Handler.self_access_token := Handler.self_access_token self;
                 Handler.self_mail := true;
                 Handler.self_error := Some e |}),
             [EvImap (IMAP4_SSL host) (snd o); EvImap auth (snd a);
              failed e])
        end
    end.
Proof.
  intros w self auth o a failed. subst auth o a failed.
  cbv [Handler.connect try_except bind Handler.mail_call Handler.set_mail Handler.get_self
       Handler.set_error logger emit ret fst snd].
  destruct (imap P w (IMAP4_SSL host)) as [w1 [r1|x]]; cbn [fst snd app];
    [|reflexivity].
  cbn [Handler.self_email_address Handler.self_access_token Handler.self_mail Handler.self_error].
  destruct (imap P w1 _) as [w2 [r2|x]]; cbn [fst snd app]; reflexivity.
Qed.

Lemma handler_close_run : forall (w : state P) (self : Handler.handler),
  Handler.close P (w, self)
  = if Handler.self_mail self
    then (Ok tt,
          (fst (imap P w Logout),
           {| Handler.self_email_address := Handler.self_email_address self;
              Handler.self_access_token := Handler.self_access_token self;
              Handler.self_mail := false;
              Handler.self_error := Handler.self_error self |}),
          [EvImap Logout (snd (imap P w Logout))])
    else (Ok tt, (w, self), []).
Proof.
  intros w self.
  cbv [Handler.close try_except bind Handler.mail_call Handler.set_mail Handler.get_self ret
       fst snd].
  destruct (Handler.self_mail self); [|reflexivity].
  destruct (imap P w Logout) as [w1 [r|x]]; cbn [fst snd app]; reflexivity.
Qed.
End HandlerSession.

(** X1: [connect] never raises.  It returns [True] exactly when the
    session was opened and the XOAUTH2 authentication went through, and
    then the handler holds the session and its error field is the old
    one.  Otherwise it returns [False], keeps the text of the exception
    in the error field and logs it.  The session field is set as soon as
    the session was opened, also when the authentication fails after
    it; the address and the token are never changed. *)
Theorem connect_tells_whether_the_session_is_usable :
  forall (P : Platform) (w : state P) (self : Handler.handler),
    let run := Handler.connect P (w, self) in
    let self' := snd (final (Handler.connect P) (w, self)) in
    let opened := snd (imap P w (IMAP4_SSL host)) in
    let authenticated :=
      snd (imap P (fst (imap P w (IMAP4_SSL host)))
             (Authenticate XOAUTH2
                (generate_auth_string (Handler.self_email_address self)
                   (Handler.self_access_token self)))) in
    exists ok,
      value (Handler.connect P) (w, self) = Ok ok
      /\ (ok = true <->
          (exists r, opened = Ok r) /\ (exists r, authenticated = Ok r))
      /\ (ok = true ->
          Handler.self_mail self' = true /\ Handler.self_error self' = Handler.self_error self)
      /\ (ok = false ->
          exists e,
            Handler.self_error self' = Some e
            /\ (opened = Raise e
                \/ (exists r, opened = Ok r) /\ authenticated = Raise e)
            /\ In (EvLog ERROR (LogMessage (u "Outlook连接失败: " ++ e)))
                 (events (Handler.connect P) (w, self)))
      /\ Handler.self_mail self'
         = (Handler.self_mail self
            || match opened with Ok _ => true | Raise _ => false end)
      /\ Handler.self_email_address self' = Handler.self_email_address self
      /\ Handler.self_access_token self' = Handler.self_access_token self.
Proof.
  intros P w self run self' opened authenticated.
  subst run self' opened authenticated.
  unfold value, final, events.
  pose proof (handler_connect_run P w self) as R. cbv zeta in R.
  rewrite R. clear R.
  destruct (snd (imap P w (IMAP4_SSL host))) as [r1|x].
  - destruct (snd (imap P _ (Authenticate _ _))) as [r2|x];
      cbn [fst snd Handler.self_mail Handler.self_error Handler.self_email_address
           Handler.self_access_token].
    + exists true. split; [reflexivity|].
      split; [split; [intros _; split; eexists; reflexivity | reflexivity]|].
      split; [intros _; split; reflexivity|].
      split; [discriminate|].
      rewrite orb_true_r. repeat split.
    + exists false. split; [reflexivity|].
      split; [split; [discriminate | intros [_ [r Hr]]; discriminate]|].
      split; [discriminate|].
      split.
      * intros _. exists x. split; [reflexivity|].
        split; [right; split; [eexists|]; reflexivity|].
        right. right. left. reflexivity.
      * rewrite orb_true_r. repeat split.
  - cbn [fst snd Handler.self_mail Handler.self_error Handler.self_email_address Handler.self_access_token].
    exists false. split; [reflexivity|].
    split; [split; [discriminate | intros [[r Hr] _]; discriminate]|].
    split; [discriminate|].
    split.
    + intros _. exists x. split; [reflexivity|].
      split; [left; reflexivity|]. right. left. reflexivity.
    + rewrite orb_false_r. repeat split.
Qed.

(** X2: [close] never raises, also when the logout does.  After it the
    handler holds no session and its other fields are the old ones; it
    sends one [LOGOUT] when a session was held and nothing otherwise,
    and a second [close] does nothing at all. *)
Theorem close_always_drops_the_session :
  forall (P : Platform) (s : state P * Handler.handler),
    let s' := final (Handler.close P) s in
    value (Handler.close P) s = Ok tt
    /\ Handler.self_mail (snd s') = false
    /\ Handler.self_error (snd s') = Handler.self_error (snd s)
    /\ Handler.self_email_address (snd s') = Handler.self_email_address (snd s)
    /\ Handler.self_access_token (snd s') = Handler.self_access_token (snd s)
    /\ imap_commands (events (Handler.close P) s)
       = (if Handler.self_mail (snd s) then [Logout] else [])
    /\ Handler.close P s' = (Ok tt, s', []).
Proof.
  intros P [w self] s'. subst s'. unfold value, final, events.
  rewrite (handler_close_run P w self).
  destruct (Handler.self_mail self) eqn:E; cbn [fst snd Handler.self_mail Handler.self_error
    Handler.self_email_address Handler.self_access_token imap_commands flat_map app].
  - rewrite ?E. repeat (split; [reflexivity|]).
    rewrite handler_close_run. reflexivity.
  - rewrite ?E. repeat (split; [first [reflexivity | exact E]|]).
    rewrite handler_close_run, E. reflexivity.
Qed.

(** X3: a handler without session is inert.  On a handler that was
    just built, [get_folders] and [get_messages] return the empty list
    and [close] returns, and on a handler that was closed [get_folders]
    and [get_messages] return the empty list: no command is sent,
    nothing is logged and the state is the same. *)
Theorem handler_without_session_is_inert :
  forall (P : Platform) (L : Listing P) (folder : pystr) (limit : Z),
    (forall (w : state P) email_address access_token,
       let s := (w, Handler.__init__ email_address access_token) in
       Handler.get_folders P L s = (Ok [], s, [])
       /\ Handler.get_messages P folder limit s = (Ok [], s, [])
       /\ Handler.close P s = (Ok tt, s, []))
    /\ (forall s : state P * Handler.handler,
          let s' := final (Handler.close P) s in
          Handler.get_folders P L s' = (Ok [], s', [])
          /\ Handler.get_messages P folder limit s' = (Ok [], s', [])).
Proof.
  intros P L folder limit.
  assert (Hno : forall s : state P * Handler.handler,
            Handler.self_mail (snd s) = false ->
            Handler.get_folders P L s = (Ok [], s, [])
            /\ Handler.get_messages P folder limit s = (Ok [], s, [])).
  { intros [w self] E. cbn [snd] in E.
    cbv [Handler.get_folders Handler.get_messages bind Handler.get_self ret fst snd].
    rewrite E. cbn [negb app]. split; reflexivity. }
  split.
  - intros w e t s. destruct (Hno s eq_refl) as [H1 H2].
    split; [exact H1|]. split; [exact H2|].
    subst s. rewrite handler_close_run. reflexivity.
  - intros [w self] s'. apply Hno. subst s'. unfold final.
    rewrite handler_close_run. destruct (Handler.self_mail self) eqn:E;
      [reflexivity | exact E].
Qed.

Section HandlerMessages.
Context (P : Platform).

Lemma read_message_run : forall folder num (w : state P) (self : Handler.handler),
  Handler.read_message P folder num (w, self)
  = (dict_of_reply P folder (snd (imap P w (Fetch num RFC822))),
     (fst (imap P w (Fetch num RFC822)), self),
     [EvImap (Fetch num RFC822) (snd (imap P w (Fetch num RFC822)))]).
Proof.
  intros folder num w self.
  cbv [Handler.read_message bind Handler.mail_call lift_outcome ret fst snd dict_of_reply].
  destruct (imap P w (Fetch num RFC822)) as [w1 [[typ data]|x]];
    cbn [fst snd app]; [|reflexivity].
  destruct (Handler.email_body P data) as [msg|x]; cbn [app]; [|reflexivity].
  destruct (parsedate_to_datetime P _) as [d|x]; reflexivity.
Qed.

Lemma messages_loop_turn : forall folder num rest acc (w : state P) self,
  let o := imap P w (Fetch num RFC822) in
  let next :=
    Handler.messages_loop P folder rest
      (acc ++ match dict_of_reply P folder (snd o) with
              | Ok d => [d]
              | Raise _ => []
              end)
      (fst o, self) in
  Handler.messages_loop P folder (num :: rest) acc (w, self)
  = (fst (fst next), snd (fst next),
     listing_turn P folder num (snd o) ++ snd next).
Proof.
  intros folder num rest acc w self o next. subst o next.
  cbn [Handler.messages_loop]. unfold bind at 1, try_except, bind at 1.
  rewrite read_message_run. unfold listing_turn.
  destruct (dict_of_reply P folder (snd (imap P w (Fetch num RFC822))))
    as [d|x]; cbv [ret logger emit bind]; cbn [fst snd app].
  - destruct (Handler.messages_loop P folder rest (acc ++ [d]) _) as [[r s2] t2].
    reflexivity.
  - rewrite app_nil_r.
    destruct (Handler.messages_loop P folder rest acc _) as [[r s2] t2].
    reflexivity.
Qed.

Lemma listed_app : forall folder (t1 t2 : list (event P)),
  listed P folder (t1 ++ t2) = listed P folder t1 ++ listed P folder t2.
Proof. intros. unfold listed. apply flat_map_app. Qed.

Lemma listed_turn : forall folder num r,
  listed P folder (listing_turn P folder num r)
  = match dict_of_reply P folder r with Ok d => [d] | Raise _ => [] end.
Proof.
  intros folder num r. unfold listing_turn, listed. cbn [flat_map].
  destruct (dict_of_reply P folder r); cbn [flat_map app];
    rewrite ?app_nil_r; reflexivity.
Qed.

Lemma fetched_ids_listing_turn : forall folder num r,
  fetched_ids (listing_turn P folder num r) = [num].
Proof.
  intros folder num r. unfold listing_turn, fetched_ids. cbn [flat_map].
  destruct (dict_of_reply P folder r); reflexivity.
Qed.

Lemma warnings_turn : forall folder num r,
  count (is_warning P) (listing_turn P folder num r)
  = match dict_of_reply P folder r with Ok _ => 0%nat | Raise _ => 1%nat end.
Proof.
  intros folder num r. unfold listing_turn, count. cbn [filter is_warning].
  destruct (dict_of_reply P folder r); reflexivity.
Qed.

(** The loop of [Handler.get_messages]: it keeps every message it can read. *)
Lemma messages_loop_run : forall folder nums acc (s : state P * Handler.handler),
  let tr := events (Handler.messages_loop P folder nums acc) s in
  value (Handler.messages_loop P folder nums acc) s
  = Ok (acc ++ listed P folder tr)
  /\ snd (final (Handler.messages_loop P folder nums acc) s) = snd s
  /\ fetched_ids tr = nums
  /\ (count (is_warning P) tr + length (listed P folder tr))%nat
     = length nums.
Proof.
  intros folder nums. induction nums as [|num rest IH]; intros acc [w self].
  - cbn. rewrite app_nil_r. auto.
  - intros tr. subst tr. unfold value, final, events.
    pose proof (messages_loop_turn folder num rest acc w self) as T.
    cbv zeta in T. rewrite T. clear T. cbn [fst snd].
    set (o := imap P w (Fetch num RFC822)).
    set (acc' := acc ++ match dict_of_reply P folder (snd o) with
                        | Ok d => [d]
                        | Raise _ => []
                        end).
    destruct (IH acc' (fst o, self)) as (H1 & H2 & H3 & H4).
    unfold value, final, events in H1, H2, H3, H4.
    rewrite listed_app, listed_turn, fetched_ids_app,
      fetched_ids_listing_turn, count_app, warnings_turn, length_app.
    rewrite H1, H3. subst acc'. rewrite <- app_assoc.
    split; [reflexivity|]. split; [exact H2|]. split; [reflexivity|].
    cbn [length]. destruct (dict_of_reply P folder (snd o));
      cbn [length]; lia.
Qed.

Lemma listed_folder : forall folder (t : list (event P)),
  Forall (fun d => Handler.d_folder d = folder) (listed P folder t).
Proof.
  intros folder t. unfold listed. induction t as [|e t IH]; [constructor|].
  cbn [flat_map]. apply Forall_app. split; [|exact IH].
  destruct e; try constructor.
  destruct c; try constructor.
  unfold dict_of_reply. destruct r as [[typ data]|x]; [|constructor].
  destruct (Handler.email_body P data); [|constructor].
  destruct (parsedate_to_datetime P _); constructor; [reflexivity|constructor].
Qed.

(** The run of [Handler.get_messages] on a Handler.handler that holds a session. *)
Lemma get_messages_run : forall folder limit (w : state P) self,
  Handler.self_mail self = true ->
  let o1 := imap P w (Select folder) in
  let o2 := imap P (fst o1) (Search ALL) in
  Handler.get_messages P folder limit (w, self)
  = match snd o1 with
    | Raise e =>
        (Ok [], (fst o1, self),
         [EvImap (Select folder) (snd o1); get_messages_failed e])
    | Ok _ =>
        match snd o2 with
        | Raise e =>
            (Ok [], (fst o2, self),
             [EvImap (Select folder) (snd o1); EvImap (Search ALL) (snd o2);
              get_messages_failed e])
        | Ok (_, messages) =>
            match first_split messages with
            | Raise e =>
                (Ok [], (fst o2, self),
                 [EvImap (Select folder) (snd o1);
                  EvImap (Search ALL) (snd o2); get_messages_failed e])
            | Ok message_numbers =>
                let loop :=
                  Handler.messages_loop P folder
                    (rev (Handler.limited limit message_numbers)) []
                    (fst o2, self) in
                (fst (fst loop), snd (fst loop),
                 [EvImap (Select folder) (snd o1);
                  EvImap (Search ALL) (snd o2)] ++ snd loop)
            end
        end
    end.
Proof.
  intros folder limit w self E o1 o2. subst o1 o2.
  unfold Handler.get_messages, get_messages_failed.
  unfold bind at 1, Handler.get_self. cbn [fst snd]. rewrite E. cbn [negb].
  cbv [try_except bind Handler.mail_call lift_outcome logger emit ret fst snd].
  destruct (imap P w (Select folder)) as [w1 [r1|x]]; cbn [fst snd app];
    [|reflexivity].
  destruct (imap P w1 (Search ALL)) as [w2 [[typ messages]|x]];
    cbn [fst snd app]; [|reflexivity].
  destruct (first_split messages) as [ids|x]; cbn [app]; [|reflexivity].
  pose proof (messages_loop_run folder (rev (Handler.limited limit ids)) []
                (w2, self)) as [Hv _].
  unfold value in Hv.
  destruct (Handler.messages_loop P folder (rev (Handler.limited limit ids)) [] (w2, self))
    as [[r s2] t2].
  cbn [fst] in Hv. subst r. reflexivity.
Qed.
End HandlerMessages.

Section Limits.
Lemma slice_from_skipn : forall (A : Type) (k : nat) (l : list A),
  slice_from (Z.of_nat k) l = skipn k l.
Proof.
  intros A k l. unfold slice_from.
  destruct (Z.of_nat k <? 0) eqn:E; [apply Z.ltb_lt in E; lia|].
  destruct (Z.min_spec (Z.of_nat k) (Z.of_nat (length l))) as [[H ->]|[H ->]].
  - rewrite Nat2Z.id. reflexivity.
  - rewrite Nat2Z.id, !skipn_all2; [reflexivity | lia | lia].
Qed.

Lemma limited_positive : forall limit ids,
  0 < limit ->
  Handler.limited limit ids = skipn (length ids - Z.to_nat limit) ids
  /\ (length (Handler.limited limit ids) <= Z.to_nat limit)%nat.
Proof.
  intros limit ids H. unfold Handler.limited.
  destruct (limit <? Z.of_nat (length ids)) eqn:E.
  - apply Z.ltb_lt in E. unfold slice_from.
    destruct (- limit <? 0) eqn:E2; [|apply Z.ltb_ge in E2; lia].
    rewrite Z.max_l by lia.
    replace (Z.to_nat (Z.of_nat (length ids) + - limit))
      with (length ids - Z.to_nat limit)%nat by lia.
    split; [reflexivity|]. rewrite length_skipn. lia.
  - apply Z.ltb_ge in E.
    replace (length ids - Z.to_nat limit)%nat with 0%nat by lia.
    split; [reflexivity|]. lia.
Qed.

Lemma limited_zero : forall ids, Handler.limited 0 ids = ids.
Proof.
  intros ids. unfold Handler.limited.
  destruct (0 <? Z.of_nat (length ids)); [|reflexivity].
  apply (slice_from_skipn _ 0%nat ids).
Qed.

Lemma limited_negative : forall limit ids,
  limit < 0 -> Handler.limited limit ids = skipn (Z.to_nat (- limit)) ids.
Proof.
  intros limit ids H. unfold Handler.limited.
  destruct (limit <? Z.of_nat (length ids)) eqn:E;
    [|apply Z.ltb_ge in E; lia].
  rewrite <- slice_from_skipn. rewrite Z2Nat.id by lia. reflexivity.
Qed.
End Limits.

(** X4: [get_messages] never raises and leaves the handler as it was.
    Its result is the list of the messages that were fetched and read,
    in the order of the fetches, each one with the folder that was
    asked for; a fetched message is in the result or gave one warning;
    without a session nothing is sent or logged. *)
Theorem get_messages_returns_what_it_could_read :
  forall (P : Platform) (folder : pystr) (limit : Z)
         (s : state P * Handler.handler),
    let tr := events (Handler.get_messages P folder limit) s in
    value (Handler.get_messages P folder limit) s = Ok (listed P folder tr)
    /\ snd (final (Handler.get_messages P folder limit) s) = snd s
    /\ Forall (fun d => Handler.d_folder d = folder) (listed P folder tr)
    /\ (count (is_warning P) tr + length (listed P folder tr))%nat
       = length (fetched_ids tr)
    /\ (Handler.self_mail (snd s) = false -> tr = []).
Proof.
  intros P folder limit [w self] tr.
  split; [|split; [|split; [apply listed_folder|]]].
  - subst tr. unfold value, events.
    destruct (Handler.self_mail self) eqn:E.
    + pose proof (get_messages_run P folder limit w self E) as R.
      cbv zeta in R. rewrite R. clear R.
      destruct (snd (imap P w (Select folder))) as [r1|x]; [|reflexivity].
      destruct (snd (imap P _ (Search ALL))) as [[typ messages]|x];
        [|reflexivity].
      destruct (first_split messages) as [ids|x]; [|reflexivity].
      cbn [fst snd].
      rewrite listed_app. cbn [listed flat_map app].
      destruct (messages_loop_run P folder (rev (Handler.limited limit ids)) []
                  (fst (imap P (fst (imap P w (Select folder))) (Search ALL)),
                   self)) as [Hv _].
      exact Hv.
    + cbv [Handler.get_messages bind Handler.get_self ret fst snd]. rewrite E. reflexivity.
  - subst tr. unfold final.
    destruct (Handler.self_mail self) eqn:E.
    + pose proof (get_messages_run P folder limit w self E) as R.
      cbv zeta in R. rewrite R. clear R.
      destruct (snd (imap P w (Select folder))) as [r1|x]; [|reflexivity].
      destruct (snd (imap P _ (Search ALL))) as [[typ messages]|x];
        [|reflexivity].
      destruct (first_split messages) as [ids|x]; [|reflexivity].
      cbn [fst snd].
      destruct (messages_loop_run P folder (rev (Handler.limited limit ids)) []
                  (fst (imap P (fst (imap P w (Select folder))) (Search ALL)),
                   self)) as (_ & Hf & _).
      exact Hf.
    + cbv [Handler.get_messages bind Handler.get_self ret fst snd]. rewrite E. reflexivity.
  - split.
    + subst tr. unfold events.
      destruct (Handler.self_mail self) eqn:E.
      * pose proof (get_messages_run P folder limit w self E) as R.
        cbv zeta in R. rewrite R. clear R.
        destruct (snd (imap P w (Select folder))) as [r1|x]; [|reflexivity].
        destruct (snd (imap P _ (Search ALL))) as [[typ messages]|x];
          [|reflexivity].
        destruct (first_split messages) as [ids|x]; [|reflexivity].
        cbn [fst snd].
        destruct (messages_loop_run P folder (rev (Handler.limited limit ids)) []
                    (fst (imap P (fst (imap P w (Select folder)))
                            (Search ALL)), self)) as (_ & _ & Hi & Hc).
        unfold events in Hi, Hc.
        rewrite listed_app, fetched_ids_app, count_app.
        cbn [listed flat_map app count filter is_warning length fetched_ids].
        exact (eq_trans Hc (eq_sym (f_equal (@length _) Hi))).
      * cbv [Handler.get_messages bind Handler.get_self ret fst snd]. rewrite E. reflexivity.
    + intros E. cbn [snd] in E. subst tr. unfold events.
      cbv [Handler.get_messages bind Handler.get_self ret fst snd]. rewrite E. reflexivity.
Qed.

(** X5: with a session, a [select] that returns and a search whose
    first datum is a byte string, [get_messages] fetches the identifiers
    that [limit] leaves, the last one of the server's list first.  A
    positive [limit] leaves the last [limit] identifiers; [limit = 0]
    leaves all of them; a negative [limit] drops the first [- limit]
    identifiers. *)
Theorem get_messages_reads_newest_first :
  forall (P : Platform) (folder : pystr) (limit : Z) (w : state P)
         (self : Handler.handler) r typ x rest,
    Handler.self_mail self = true ->
    snd (imap P w (Select folder)) = Ok r ->
    snd (imap P (fst (imap P w (Select folder))) (Search ALL))
    = Ok (typ, IBytes x :: rest) ->
    let ids := bytes_split x in
    fetched_ids (events (Handler.get_messages P folder limit) (w, self))
    = rev (Handler.limited limit ids)
    /\ (0 < limit ->
        Handler.limited limit ids = skipn (length ids - Z.to_nat limit) ids
        /\ (length (Handler.limited limit ids) <= Z.to_nat limit)%nat)
    /\ (limit = 0 -> Handler.limited limit ids = ids)
    /\ (limit < 0 -> Handler.limited limit ids = skipn (Z.to_nat (- limit)) ids).
Proof.
  intros P folder limit w self r typ x rest E H1 H2 ids.
  split; [|split; [apply limited_positive|
                   split; [intros ->; apply limited_zero
                          |apply limited_negative]]].
  unfold events.
  pose proof (get_messages_run P folder limit w self E) as R.
  cbv zeta in R. rewrite R, H1, H2. clear R. cbn [first_split snd].
  rewrite fetched_ids_app. cbn [fetched_ids flat_map app].
  apply (messages_loop_run P folder (rev (Handler.limited limit ids)) []).
Qed.

(** On [Scripted.twice] with [limit = 2], the identifiers 3 and 2 are
    fetched, in this order. *)
Lemma get_messages_reads_newest_first_witness :
  let P := Scripted.twice in
  fetched_ids
    (events (Handler.get_messages P (u "inbox") 2) (Cases.session_of P Scripted.start))
  = rev (Handler.limited 2 (bytes_split (b "1 2 3")))
  /\ Handler.limited 2 (bytes_split (b "1 2 3")) = [b "2"; b "3"].
Proof.
  intros P. split.
  - apply (get_messages_reads_newest_first P (u "inbox") 2 Scripted.start
             (snd (Cases.session_of P Scripted.start))
             (u "NO", [IBytes (b "no such mailbox")]) OK (b "1 2 3") []);
      vm_compute; reflexivity.
  - vm_compute. reflexivity.
Defined.

Section Sorting.
Lemma str_leb_total : forall x y, str_leb x y = false -> str_leb y x = true.
Proof.
  induction x as [|a x IH]; intros [|c y] H; cbn [str_leb] in *;
    try discriminate; try reflexivity.
  destruct (a <? c)%N eqn:E1; [discriminate|].
  destruct (c <? a)%N eqn:E2; [reflexivity|].
  apply IH, H.
Qed.

Lemma insert_sorted_perm : forall x l, Permutation (insert_sorted x l) (x :: l).
Proof.
  intros x l. induction l as [|y l IH]; cbn [insert_sorted]; [reflexivity|].
  destruct (str_leb x y); [reflexivity|].
  rewrite IH. apply perm_swap.
Qed.

Lemma sorted_perm : forall l, Permutation (sorted l) l.
Proof.
  induction l as [|x l IH]; [reflexivity|].
  unfold sorted in *. cbn [fold_right].
  rewrite insert_sorted_perm. constructor. exact IH.
Qed.

Lemma insert_sorted_hd : forall x y l,
  str_leb y x = true ->
  HdRel (fun a c => str_leb a c = true) y l ->
  HdRel (fun a c => str_leb a c = true) y (insert_sorted x l).
Proof.
  intros x y l Hyx H. destruct l as [|z l]; cbn [insert_sorted].
  - constructor. exact Hyx.
  - destruct (str_leb x z); constructor; [exact Hyx|].
    inversion H; assumption.
Qed.

Lemma insert_sorted_sorted : forall x l,
  Sorted (fun a c => str_leb a c = true) l ->
  Sorted (fun a c => str_leb a c = true) (insert_sorted x l).
Proof.
  intros x l H. induction H as [|y l Hs IH Hd]; cbn [insert_sorted].
  - repeat constructor.
  - destruct (str_leb x y) eqn:E.
    + constructor; [constructor; assumption|]. constructor. exact E.
    + constructor; [exact IH|].
      apply insert_sorted_hd; [apply str_leb_total, E | exact Hd].
Qed.

Lemma sorted_sorted : forall l,
  Sorted (fun a c => str_leb a c = true) (sorted l).
Proof.
  induction l as [|x l IH]; [constructor|].
  unfold sorted in *. cbn [fold_right]. apply insert_sorted_sorted, IH.
Qed.

Lemma sorted_In : forall l x, In x (sorted l) <-> In x l.
Proof.
  intros l x. split; apply Permutation_in;
    [apply sorted_perm | apply Permutation_sym, sorted_perm].
Qed.
End Sorting.

Section Folders.
Context (P : Platform) (L : Listing P).

Lemma str_in_In : forall x l, str_in x l = true <-> In x l.
Proof.
  intros x l. unfold str_in. rewrite existsb_exists. split.
  - intros (y & Hy & E). apply pystr_eqb_eq in E. subst y. exact Hy.
  - intros H. exists x. split; [exact H | apply pystr_eqb_refl].
Qed.

Lemma listable_test : forall name,
  truthy name && negb (str_in name Handler.dots) = true -> listable name.
Proof.
  intros name H. apply andb_true_iff in H. destruct H as [H1 H2].
  apply negb_true_iff in H2.
  repeat split; intros ->; [discriminate| |];
    vm_compute in H2; discriminate.
Qed.

Lemma scan_folders_listable : forall folders acc names,
  Forall listable acc ->
  Handler.scan_folders P L folders acc = Ok names -> Forall listable names.
Proof.
  induction folders as [|f rest IH]; intros acc names Hacc H;
    cbn [Handler.scan_folders] in H.
  - injection H as <-. exact Hacc.
  - destruct (Handler.folder_text P L f) as [line|x]; [|discriminate].
    destruct (Handler.folder_name_of line) as [name|x]; [|discriminate].
    apply IH in H; [exact H|].
    destruct (truthy name && negb (str_in name Handler.dots)) eqn:E; [|exact Hacc].
    apply Forall_app. split; [exact Hacc|].
    constructor; [apply listable_test, E | constructor].
Qed.

Lemma add_defaults_fold : forall defaults acc x,
  In x (fold_left
          (fun folder_list df =>
             if negb (str_in df folder_list) then folder_list ++ [df]
             else folder_list)
          defaults acc)
  <-> In x acc \/ In x defaults.
Proof.
  induction defaults as [|df rest IH]; intros acc x; cbn [fold_left].
  - cbn [In]. tauto.
  - rewrite IH. destruct (str_in df acc) eqn:E; cbn [negb In].
    + apply str_in_In in E. split; [tauto|].
      intros [H|[<-|H]]; auto.
    + rewrite in_app_iff. cbn [In]. tauto.
Qed.

Lemma add_defaults_In : forall acc x,
  In x (Handler.add_defaults acc) <-> In x acc \/ In x Handler.default_folders.
Proof. intros. apply add_defaults_fold. Qed.

Lemma default_folders_listable : Forall listable Handler.default_folders.
Proof.
  repeat constructor; intros H; vm_compute in H; discriminate.
Qed.

Lemma get_folders_run : forall (w : state P) (self : Handler.handler),
  Handler.self_mail self = true ->
  let o := imap_list L w in
  Handler.get_folders P L (w, self)
  = match folders_of P L (snd o) with
    | Ok names =>
        (Ok (sorted (Handler.add_defaults names)), (fst o, self), [])
    | Raise e =>
        (Ok [u "inbox"], (fst o, self), [get_folders_failed e])
    end.
Proof.
  intros w self E o. subst o. unfold Handler.get_folders, folders_of.
  unfold bind at 1, Handler.get_self. cbn [fst snd]. rewrite E. cbn [negb].
  cbv [try_except bind Handler.mail_list_call lift_outcome logger emit ret
       fst snd get_folders_failed].
  destruct (imap_list L w) as [w1 [[typ folders]|x]]; cbn [fst snd app];
    [|reflexivity].
  destruct (Handler.scan_folders P L folders []) as [names|x]; reflexivity.
Qed.
End Folders.

(** X6: [get_folders] never raises and leaves the handler as it was.
    Without a session it returns the empty list.  With one, when the
    listing raises or one of its elements cannot be read it returns
    [['inbox']] after one error line in the log; otherwise it returns a
    sorted list that holds the names read from the listing and the five
    default folders and nothing else, with no empty name, no ["."] and
    no [".."], hence at least five names. *)
Theorem get_folders_gives_a_sorted_list_with_the_defaults :
  forall (P : Platform) (L : Listing P) (s : state P * Handler.handler),
    exists l,
      value (Handler.get_folders P L) s = Ok l
      /\ snd (final (Handler.get_folders P L) s) = snd s
      /\ if Handler.self_mail (snd s)
         then match folders_of P L (snd (imap_list L (fst s))) with
              | Raise e =>
                  l = [u "inbox"]
                  /\ events (Handler.get_folders P L) s
                     = [get_folders_failed e]
              | Ok names =>
                  Sorted (fun x y => str_leb x y = true) l
                  /\ (forall x, In x l <-> In x names \/ In x Handler.default_folders)
                  /\ Forall listable l
                  /\ (5 <= length l)%nat
              end
         else l = [].
Proof.
  intros P L [w self]. unfold value, final, events. cbn [fst snd].
  destruct (Handler.self_mail self) eqn:E.
  - pose proof (get_folders_run P L w self E) as R. cbv zeta in R.
    rewrite R. clear R.
    destruct (folders_of P L (snd (imap_list L w))) as [names|x] eqn:F.
    + eexists. split; [reflexivity|]. split; [reflexivity|].
      assert (Hin : forall x,
                In x (sorted (Handler.add_defaults names))
                <-> In x names \/ In x Handler.default_folders).
      { intros x. rewrite sorted_In. apply add_defaults_In. }
      split; [apply sorted_sorted|]. split; [exact Hin|]. split.
      * apply Forall_forall. intros x Hx. apply Hin in Hx.
        assert (Hn : Forall listable names).
        { unfold folders_of in F.
          destruct (snd (imap_list L w)) as [[typ folders]|y];
            [|discriminate].
          apply (scan_folders_listable P L folders [] names); [constructor|].
          exact F. }
        destruct Hx as [Hx|Hx];
          [exact (proj1 (Forall_forall _ _) Hn x Hx)
          |exact (proj1 (Forall_forall _ _) default_folders_listable x Hx)].
      * change 5%nat with (length Handler.default_folders).
        apply NoDup_incl_length.
        -- repeat constructor; cbn [In]; intros H;
             repeat (destruct H as [H|H]; [vm_compute in H; discriminate|]);
             exact H.
        -- intros x Hx. apply Hin. right. exact Hx.
    + eexists. split; [reflexivity|]. split; [reflexivity|].
      split; reflexivity.
  - cbv [Handler.get_folders bind Handler.get_self ret fst snd]. rewrite E.
    cbn [negb]. eexists. repeat split.
Qed.

Section FolderNames.
Lemma split_on_nonempty : forall sep s, split_on sep s <> [].
Proof.
  intros sep s. destruct s as [|c s]; cbn [split_on]; [discriminate|].
  destruct (c =? sep)%N; [discriminate|].
  destruct (split_on sep s); discriminate.
Qed.

Lemma split_on_app : forall sep pre post,
  split_on sep (pre ++ sep :: post) = split_on sep pre ++ split_on sep post.
Proof.
  intros sep pre post. induction pre as [|c pre IH]; cbn [app split_on].
  - rewrite N.eqb_refl. reflexivity.
  - destruct (c =? sep)%N; [rewrite IH; reflexivity|].
    rewrite IH.
    destruct (split_on sep pre) as [|p ps] eqn:E;
      [destruct (split_on_nonempty sep pre E)|].
    reflexivity.
Qed.

Lemma split_on_plain : forall sep s, ~ In sep s -> split_on sep s = [s].
Proof.
  intros sep s. induction s as [|c s IH]; intros H; cbn [split_on];
    [reflexivity|].
  destruct (c =? sep)%N eqn:E.
  - apply N.eqb_eq in E. subst c. destruct H. left. reflexivity.
  - rewrite IH; [reflexivity|]. intros Hin. apply H. right. exact Hin.
Qed.

(** The name of a line is the text between its last two double
    quotes. *)
Lemma folder_name_between_quotes : forall pre name post,
  ~ In 34%N name -> ~ In 34%N post ->
  Handler.folder_name_of (pre ++ 34%N :: name ++ 34%N :: post) = Ok name.
Proof.
  intros pre name post Hn Hp. unfold Handler.folder_name_of.
  rewrite split_on_app, split_on_app, (split_on_plain _ name Hn),
    (split_on_plain _ post Hp).
  rewrite !length_app. cbn [length app].
  pose proof (split_on_nonempty 34%N pre) as Hne.
  destruct (split_on 34%N pre) as [|p ps] eqn:E; [contradiction|].
  cbn [length].
  replace (3 <=? S (length ps) + (1 + 1))%nat with true
    by (symmetry; apply Nat.leb_le; lia).
  replace (S (length ps) + (1 + 1) - 2)%nat with (length (p :: ps))
    by (cbn [length]; lia).
  rewrite app_nth2 by lia. rewrite Nat.sub_diag. reflexivity.
Qed.
End FolderNames.

Section Words.
Lemma str_split_word : forall word cur,
  (forall c, In c word -> isspace c = false) ->
  rev cur ++ word <> [] ->
  str_split_aux cur word = [rev cur ++ word].
Proof.
  induction word as [|c word IH]; intros cur Hw Hne; cbn [str_split_aux].
  - rewrite app_nil_r in *. destruct cur as [|a cur]; [contradiction|].
    reflexivity.
  - rewrite (Hw c (or_introl eq_refl)).
    rewrite IH.
    + cbn [rev]. rewrite <- app_assoc. reflexivity.
    + intros x Hx. apply Hw. right. exact Hx.
    + cbn [rev]. rewrite <- app_assoc. cbn [app].
      destruct (rev cur); discriminate.
Qed.

Lemma str_split_last : forall s cur sp word,
  isspace sp = true ->
  (forall c, In c word -> isspace c = false) -> word <> [] ->
  str_split_aux cur (s ++ sp :: word) = str_split_aux cur s ++ [word].
Proof.
  induction s as [|c s IH]; intros cur sp word Hsp Hw Hne;
    cbn [app str_split_aux].
  - rewrite Hsp.
    rewrite (str_split_word word []) by (try assumption; exact Hne).
    destruct cur; reflexivity.
  - destruct (isspace c).
    + destruct cur; rewrite IH by assumption; reflexivity.
    + apply IH; assumption.
Qed.

Lemma str_split_blank : forall s,
  (forall c, In c s -> isspace c = true) -> str_split_aux [] s = [].
Proof.
  induction s as [|c s IH]; intros H; cbn [str_split_aux]; [reflexivity|].
  rewrite (H c (or_introl eq_refl)). apply IH.
  intros x Hx. apply H. right. exact Hx.
Qed.

Lemma blank_has_no_quote : forall s,
  (forall c, In c s -> isspace c = true) -> ~ In 34%N s.
Proof.
  intros s H Hin. specialize (H _ Hin). vm_compute in H. discriminate.
Qed.
End Words.

(** X7: the name read from one line of the listing.  A line with two
    quotes or more gives the text between its last two quotes, whatever
    comes before and after them; a line without quotes gives its last
    word; a line of white space only raises [IndexError]. *)
Theorem folder_name_is_read_between_the_last_quotes :
  forall (before name post pre word blank : pystr) (sp : N),
    ~ In 34%N name -> ~ In 34%N post ->
    ~ In 34%N pre -> ~ In 34%N word ->
    isspace sp = true -> word <> [] ->
    (forall c, In c word -> isspace c = false) ->
    (forall c, In c blank -> isspace c = true) ->
    Handler.folder_name_of (before ++ 34%N :: name ++ 34%N :: post) = Ok name
    /\ Handler.folder_name_of (pre ++ sp :: word) = Ok word
    /\ Handler.folder_name_of blank = Raise (u "list index out of range").
Proof.
  intros before name post pre word blank sp Hn Hp Hpre Hw Hsp Hne Hword
    Hblank.
  split; [apply folder_name_between_quotes; assumption|]. split.
  - unfold Handler.folder_name_of.
    rewrite split_on_plain.
    + cbn [length Nat.leb]. unfold str_split.
      rewrite (str_split_last pre [] sp word Hsp Hword Hne).
      rewrite rev_app_distr. reflexivity.
    + intros Hin. apply in_app_or in Hin. destruct Hin as [H|[H|H]];
        [exact (Hpre H) | | exact (Hw H)].
      subst sp. vm_compute in Hsp. discriminate.
  - unfold Handler.folder_name_of.
    rewrite (split_on_plain _ blank (blank_has_no_quote blank Hblank)).
    cbn [length Nat.leb]. unfold str_split.
    rewrite (str_split_blank blank Hblank). reflexivity.
Qed.

(** A line with a quoted delimiter and a bare name gives the delimiter;
    a line without quotes gives its last word. *)
Lemma folder_name_is_read_between_the_last_quotes_witness :
  Handler.folder_name_of (u "(\HasNoChildren) " ++ 34%N :: u "/" ++ 34%N :: u " Inbox")
  = Ok (u "/")
  /\ Handler.folder_name_of (u "(\HasNoChildren) " ++ 32%N :: u "Archive")
     = Ok (u "Archive")
  /\ Handler.folder_name_of (u "  ") = Raise (u "list index out of range").
Proof.
  apply (folder_name_is_read_between_the_last_quotes
           (u "(\HasNoChildren) ") (u "/") (u " Inbox")
           (u "(\HasNoChildren) ") (u "Archive") (u "  ") 32%N).
  - vm_compute. intros H. repeat (destruct H as [H|H]; [discriminate|]).
    exact H.
  - vm_compute. intros H. repeat (destruct H as [H|H]; [discriminate|]).
    exact H.
  - vm_compute. intros H. repeat (destruct H as [H|H]; [discriminate|]).
    exact H.
  - vm_compute. intros H. repeat (destruct H as [H|H]; [discriminate|]).
    exact H.
  - reflexivity.
  - discriminate.
  - intros c H. vm_compute in H.
    repeat (destruct H as [H|H]; [subst c; reflexivity|]). destruct H.
  - intros c H. vm_compute in H.
    repeat (destruct H as [H|H]; [subst c; reflexivity|]). destruct H.
Defined.

Section BadLines.
Context (P : Platform) (L : Listing P).

Lemma scan_folders_unnamed : forall folders acc,
  existsb (unnamed P L) folders = true ->
  exists e, Handler.scan_folders P L folders acc = Raise e.
Proof.
  induction folders as [|f rest IH]; intros acc H; [discriminate|].
  cbn [existsb Handler.scan_folders] in *. unfold unnamed in H at 1.
  destruct (Handler.folder_text P L f) as [line|x]; [|eexists; reflexivity].
  destruct (Handler.folder_name_of line) as [name|x]; [|eexists; reflexivity].
  cbn [orb] in H. apply IH, H.
Qed.
End BadLines.

(** X8: with a session and a listing that was answered, one element
    from which no name can be read makes [get_folders] return
    [['inbox']], whatever the other elements are.  Such elements are
    [None], a tuple, and a line of white space only. *)
Theorem get_folders_gives_up_on_one_unreadable_line :
  forall (P : Platform) (L : Listing P) (w : state P) (self : Handler.handler)
         typ folders,
    Handler.self_mail self = true ->
    snd (imap_list L w) = Ok (typ, folders) ->
    existsb (unnamed P L) folders = true ->
    value (Handler.get_folders P L) (w, self) = Ok [u "inbox"]
    /\ unnamed P L INone = true
    /\ (forall x y, unnamed P L (ITuple x y) = true)
    /\ (forall raw,
          (forall c, In c (decode_ignore L raw) -> isspace c = true) ->
          unnamed P L (IBytes raw) = true).
Proof.
  intros P L w self typ folders E Hl Hbad.
  split; [|split; [reflexivity|split; [reflexivity|]]].
  - unfold value. pose proof (get_folders_run P L w self E) as R.
    cbv zeta in R. rewrite R. unfold folders_of. rewrite Hl.
    destruct (scan_folders_unnamed P L folders [] Hbad) as [e ->].
    reflexivity.
  - intros raw Hb. unfold unnamed. cbn [Handler.folder_text].
    unfold Handler.folder_name_of.
    rewrite (split_on_plain _ _ (blank_has_no_quote _ Hb)).
    cbn [length Nat.leb]. unfold str_split.
    rewrite (str_split_blank _ Hb). reflexivity.
Qed.

(** A listing of one good line and [None] gives [['inbox']]. *)
Lemma get_folders_gives_up_on_one_unreadable_line_witness :
  let P := Scripted.quiet in
  let folders :=
    [IBytes (b "(\HasNoChildren) NIL Inbox"); INone] in
  value (Handler.get_folders P (Cases.listing_of folders)) (Cases.session_of P Scripted.start)
  = Ok [u "inbox"].
Proof.
  intros P folders.
  apply (get_folders_gives_up_on_one_unreadable_line P (Cases.listing_of folders)
           Scripted.start (snd (Cases.session_of P Scripted.start)) OK folders);
    reflexivity.
Defined.

Section EngineEvents.
Context (P : Platform).

Lemma junk_loop_engine : forall aliases,
  emits engine_event (junk_loop P aliases).
Proof.
  induction aliases as [|a rest IH]; cbn [junk_loop].
  - apply emits_ret.
  - apply emits_bind;
      [|intros stop; destruct stop; [apply emits_ret | exact IH]].
    unfold junk_body. repeat emits_step; simpl; auto.
Qed.

Lemma message_loop_engine : forall cb mail_ids i n,
  emits engine_event (message_loop P cb i n mail_ids).
Proof.
  induction mail_ids as [|x rest IH]; intros i n; cbn [message_loop].
  - apply emits_ret.
  - apply emits_bind; [emits_step; exact I|]. intros _.
    apply emits_bind; [|intros _; apply IH].
    unfold process_message. repeat emits_step; simpl; auto.
Qed.

Lemma retry_loop_engine : forall e t cb lct retries,
  emits engine_event (retry_loop P e t cb lct retries).
Proof.
  intros e t cb lct.
  assert (Ha : forall retry,
            emits engine_event (attempt P e t cb lct retry)).
  { intros retry.
    unfold attempt, attempt_body, connect, move_junk, fetch_inbox.
    repeat first
      [ apply junk_loop_engine | apply message_loop_engine
      | apply emits_mail_logout; intros | emits_step ];
      simpl; auto. }
  induction retries as [|retry rest IH]; cbn [retry_loop].
  - repeat emits_step.
  - apply emits_bind; [apply Ha|]. intros [| |v];
      [repeat emits_step | exact IH | apply emits_ret].
Qed.

Lemma fetch_emails_engine : forall e t f cb lct,
  emits engine_event (fetch_emails P e t f cb lct).
Proof.
  intros e t f cb lct w. unfold events.
  rewrite fetch_emails_run. cbn [snd].
  constructor; [exact I|]. apply (retry_loop_engine e t _ _ [0; 1; 2]).
Qed.
End EngineEvents.

Section SaveLoop.
Context (P : Platform).

Lemma added_app : forall t1 t2 : list (event P),
  added (t1 ++ t2) = added t1 ++ added t2.
Proof. intros. apply flat_map_app. Qed.

Lemma added_none : forall t : list (event P),
  Forall (fun e => match e with
                   | EvAddRecord _ _ _ _ _ _ => False
                   | _ => True
                   end) t ->
  added t = [] /\ count is_saved t = 0%nat.
Proof.
  induction 1 as [|e t He _ [IH1 IH2]]; [split; reflexivity|].
  unfold added, count in *. cbn [flat_map filter].
  destruct e; try contradiction; cbn [is_saved app]; auto.
Qed.

Lemma save_turn_run : forall id (r : record P) n (w : state P),
  let o := db_add_mail_record P w id (subject r) (sender r)
             (received_time r) (content r) in
  let ev :=
    EvAddRecord id (subject r) (sender r) (received_time r) (content r)
      (snd o) in
  try_except
    (bind (add_mail_record_call P id r)
       (fun ok => ret (if ok then n + 1 else n)))
    (fun e => bind (logger ERROR (LogSaveFailed e)) (fun _ => ret n)) w
  = (Ok (if is_saved ev then n + 1 else n), fst o,
     ev :: match snd o with
           | Raise e => [EvLog ERROR (LogSaveFailed e)]
           | Ok _ => []
           end).
Proof.
  intros id r n w o ev. subst o ev.
  cbv [try_except bind add_mail_record_call logger emit ret].
  destruct (db_add_mail_record P w id _ _ _ _) as [w1 [[|]|x]];
    reflexivity.
Qed.

(** The save loop: one call of the store for each record, in order;
    the count goes up by one for each call that returned a true
    value. *)
Lemma save_loop_run : forall id recs n (w : state P),
  let tr := events (save_loop P id recs n) w in
  value (save_loop P id recs n) w
  = Ok (n + Z.of_nat (count is_saved tr))
  /\ added tr = map (store_arguments id) recs
  /\ (count is_saved tr <= length recs)%nat.
Proof.
  intros id recs. induction recs as [|r rest IH]; intros n w tr.
  - subst tr. cbn. rewrite Z.add_0_r. auto.
  - subst tr.
    pose proof (save_turn_run id r n w) as T. cbv zeta in T.
    set (o := db_add_mail_record P w id (subject r) (sender r)
                (received_time r) (content r)) in *.
    set (ev := EvAddRecord id (subject r) (sender r) (received_time r)
                 (content r) (snd o)) in *.
    set (n' := if is_saved ev then n + 1 else n) in *.
    set (logs := match snd o with
                 | Raise e => [EvLog (P := P) ERROR (LogSaveFailed e)]
                 | Ok _ => []
                 end) in *.
    assert (Hrun : save_loop P id (r :: rest) n w
                   = (value (save_loop P id rest n') (fst o),
                      final (save_loop P id rest n') (fst o),
                      (ev :: logs) ++ events (save_loop P id rest n') (fst o))).
    { set (turn := try_except
                     (bind (add_mail_record_call P id r)
                        (fun ok => ret (if ok then n + 1 else n)))
                     (fun e => bind (logger ERROR (LogSaveFailed e))
                                 (fun _ => ret n))) in *.
      assert (Hf : final turn w = fst o)
        by (unfold final; rewrite T; reflexivity).
      assert (He : events turn w = ev :: logs)
        by (unfold events; rewrite T; reflexivity).
      cbn [save_loop]. fold turn.
      rewrite (run_bind_ok _ _ _ turn
                 (fun n0 => save_loop P id rest n0) w n')
        by (unfold value; rewrite T; reflexivity).
      rewrite Hf, He. reflexivity. }
    unfold value at 1, events at 1 2 3. rewrite Hrun. cbn [fst snd].
    destruct (IH n' (fst o)) as (H1 & H2 & H3).
    assert (L : added logs = [] /\ count is_saved logs = 0%nat)
      by (subst logs; destruct (snd o); split; reflexivity).
    destruct L as [L1 L2].
    change (ev :: logs) with ([ev] ++ logs).
    rewrite <- !app_assoc, !added_app, !count_app, L1, L2, H1, H2.
    unfold count in *. cbn [map app length filter added flat_map].
    subst n'. subst ev. cbn [added flat_map app].
    destruct (is_saved _); cbn [length];
      (split; [f_equal; lia|]); (split; [reflexivity | lia]).
Qed.
End SaveLoop.

Section Outcomes.
Context (P : Platform).

Lemma token_update_run : forall id tok (w : state P),
  update_email_token_call P id tok w
  = (snd (db_update_email_token P w id tok),
     fst (db_update_email_token P w id tok),
     [EvUpdateToken id tok (snd (db_update_email_token P w id tok))]).
Proof.
  intros id tok w. unfold update_email_token_call.
  destruct (db_update_email_token P w id tok). reflexivity.
Qed.

Lemma check_time_events : forall id email (w : state P),
  exists o l m,
    try_except
      (bind (update_check_time_call P id)
         (fun _ => logger INFO (LogCheckTimeUpdated id email)))
      (fun e => logger ERROR (LogCheckTimeFailed e)) w
    = (Ok tt, fst (db_update_check_time P w id),
       [EvUpdateCheckTime id o; EvLog l m]).
Proof.
  intros id email w.
  cbv [try_except bind update_check_time_call logger emit].
  destruct (db_update_check_time P w id) as [w' [[]|e]]; cbn [fst snd app];
    eexists _, _, _; reflexivity.
Qed.

(** The three ways a pass can go. *)
Lemma check_mail_outcomes : forall (info : email_info P) cb (w : state P),
  let pc := callback_or_none cb in
  let id := info_id info in
  let label := mailbox_label (info_email info) id in
  let head :=
    [EvLog INFO (LogCheckStart id (info_email info))]
    ++ reports_of pc 0 (u "正在获取访问令牌...") in
  exists r l m w1,
    let t1 :=
      [EvPost token_url
         (token_request (info_refresh_token info) (info_client_id info)) r;
       EvLog l m] in
    (exists tok,
       get_new_access_token P (info_refresh_token info)
         (info_client_id info) w = (Ok tok, w1, t1)
       /\ match tok with Some (_ :: _) => False | _ => True end
       /\ let error_msg := label ++ u "获取访问令牌失败" in
          check_mail P info cb w
          = (Ok (failure error_msg), w1,
             head ++ t1 ++ [EvLog ERROR (LogMessage error_msg)]
             ++ reports_of pc 0 error_msg))
    \/ exists c token o w2,
         let t2 := [EvUpdateToken id (c :: token) o] in
         get_new_access_token P (info_refresh_token info)
           (info_client_id info) w = (Ok (Some (c :: token)), w1, t1)
         /\ update_email_token_call P id (c :: token) w1 = (o, w2, t2)
         /\ ((exists e,
                o = Raise e
                /\ let error_msg := u "处理邮箱过程中出错: " ++ e in
                   check_mail P info cb w
                   = (Ok (failure error_msg), w2,
                      head ++ t1 ++ t2
                      ++ [EvLog ERROR (LogMessage (label ++ error_msg))]
                      ++ reports_of pc 0 error_msg))
             \/ exists recs w3 t3 n w4 t4 o5 l5 m5 w5,
                  o = Ok tt
                  /\ fetch_emails P (info_email info) (c :: token)
                       (u "inbox")
                       (Some (folder_progress_callback pc)) None w2
                     = (Ok recs, w3, t3)
                  /\ save_loop P id recs 0 w3 = (Ok n, w4, t4)
                  /\ let count := Z.of_nat (length recs) in
                     let success_msg :=
                       u "完成，共处理" ++ str_of_int count
                       ++ u "封邮件，新增" ++ str_of_int n ++ u "封" in
                     check_mail P info cb w
                     = (Ok {| success := true; message_ := success_msg;
                              total := Some count; saved := Some n |},
                        w5,
                        head ++ t1 ++ t2
                        ++ reports_of pc 10 (u "开始获取邮件...") ++ t3
                        ++ reports_of pc 90
                             (u "获取到" ++ str_of_int count
                              ++ u "封邮件，正在保存...")
                        ++ t4 ++ [EvUpdateCheckTime id o5; EvLog l5 m5]
                        ++ reports_of pc 100 success_msg
                        ++ [EvLog INFO
                              (LogCheckDone id (info_email info)
                                 count n)])).
Proof.
  intros info cb w pc id label head.
  set (rt := info_refresh_token info). set (cid := info_client_id info).
  destruct (requests_post P w token_url (token_request rt cid))
    as [w1 r] eqn:Ep.
  destruct (get_new_access_token_run P rt cid w w1 r Ep)
    as (tok & l & m & E1 & _).
  exists r, l, m, w1. cbv zeta.
  destruct tok as [[|c token]|].
  - left. exists (Some []). split; [exact E1|]. split; [exact I|].
    apply (check_mail_without_token P info cb w _ w1 _ E1 I).
  - right.
    pose proof (token_update_run id (c :: token) w1) as E2.
    set (o := snd (db_update_email_token P w1 id (c :: token))) in *.
    set (w2 := fst (db_update_email_token P w1 id (c :: token))) in *.
    exists c, token, o, w2. split; [exact E1|]. split; [exact E2|].
    destruct o as [[]|e] eqn:Eo.
    + right.
      destruct (fetch_emails P (info_email info) (c :: token) (u "inbox")
                  (Some (folder_progress_callback pc)) None w2)
        as [[rf w3] t3] eqn:E3.
      destruct (fetch_emails_total P (info_email info) (c :: token)
                  (u "inbox") (Some (folder_progress_callback pc)) None w2)
        as [recs Hrecs].
      unfold value in Hrecs. rewrite E3 in Hrecs. cbn [fst] in Hrecs.
      subst rf.
      destruct (save_loop P id recs 0 w3) as [[rs w4] t4] eqn:E4.
      destruct (save_loop_total P id recs 0 w3) as [n Hn].
      unfold value in Hn. rewrite E4 in Hn. cbn [fst] in Hn. subst rs.
      destruct (check_time_events id (info_email info) w4)
        as (o5 & l5 & m5 & E5).
      exists recs, w3, t3, n, w4, t4, o5, l5, m5,
        (fst (db_update_check_time P w4 id)).
      split; [reflexivity|]. split; [reflexivity|]. split; [exact E4|].
      apply (check_mail_completes P info cb w c token w1 _ w2 _ recs w3 t3
               n w4 t4 _ _ E1 E2 E3 E4 E5).
    + left. exists e. split; [reflexivity|].
      apply (check_mail_store_refuses_token P info cb w c token w1 _ e w2 _
               E1 E2).
  - left. exists None. split; [exact E1|]. split; [exact I|].
    apply (check_mail_without_token P info cb w _ w1 _ E1 I).
Qed.
End Outcomes.

Section PassTraffic.
Context (P : Platform).

Lemma engine_traffic : forall t : list (event P),
  Forall engine_event t ->
  added t = [] /\ count is_saved t = 0%nat
  /\ count is_check_time_update t = 0%nat
  /\ count is_token_update t = 0%nat.
Proof.
  induction 1 as [|e t He _ (I1 & I2 & I3 & I4)];
    [repeat split; reflexivity|].
  unfold added, count in *. cbn [flat_map filter].
  destruct e; try contradiction; cbn [is_saved is_check_time_update
    is_token_update app]; auto.
Qed.

Lemma reports_engine : forall cb p msg,
  Forall (engine_event (P := P)) (reports_of cb p msg).
Proof.
  intros cb p msg. unfold reports_of. induction (cb p msg); cbn [map];
    constructor; auto. exact I.
Qed.

(** What the save loop emits. *)
Lemma save_loop_quiet : forall id recs n (w : state P),
  imap_commands (events (save_loop P id recs n) w) = []
  /\ progress_values (events (save_loop P id recs n) w) = []
  /\ count is_check_time_update (events (save_loop P id recs n) w) = 0%nat
  /\ count is_token_update (events (save_loop P id recs n) w) = 0%nat.
Proof.
  intros id recs n w.
  assert (H : emits (fun e : event P =>
                       match e with
                       | EvAddRecord _ _ _ _ _ _ | EvLog _ _ => True
                       | _ => False
                       end) (save_loop P id recs n)).
  { revert n. induction recs as [|r rest IH]; intros n; cbn [save_loop].
    - apply emits_ret.
    - apply emits_bind; [|intros; apply IH].
      repeat first [ apply emits_add_mail_record_call; intros
                   | emits_step ]; exact I. }
  specialize (H w).
  induction H as [|e t He _ (I1 & I2 & I3 & I4)];
    [repeat split; reflexivity|].
  unfold imap_commands, progress_values, count in *.
  cbn [flat_map filter].
  destruct e; try contradiction;
    cbn [is_check_time_update is_token_update app]; auto.
Qed.
End PassTraffic.

(** X9: with a progress callback that returns, [check_mail] never
    raises: it returns a result.  A success
    carries both counts and the message built from them.  A failure
    carries no count; its message is the one of the missing token or the
    text of the exception raised by the update of the stored token, and
    then no IMAP command was sent, no record was stored and the check
    time was not updated.  The last progress reported is 100 with the
    message of a success and 0 with the message of a failure. *)
Theorem check_mail_always_answers :
  forall (P : Platform) (info : email_info P) (cb : option callback_t)
         (w : state P),
    let run := check_mail P info cb in
    let tr := events run w in
    let label := mailbox_label (info_email info) (info_id info) in
    exists r,
      value run w = Ok r
      /\ (success r = true ->
          exists fetched n,
            total r = Some fetched /\ saved r = Some n
            /\ message_ r
               = u "完成，共处理" ++ str_of_int fetched ++ u "封邮件，新增"
                 ++ str_of_int n ++ u "封")
      /\ (success r = false ->
          total r = None /\ saved r = None
          /\ (message_ r = label ++ u "获取访问令牌失败"
              \/ exists tok e,
                   message_ r = u "处理邮箱过程中出错: " ++ e
                   /\ In (EvUpdateToken (info_id info) tok (Raise e)) tr)
          /\ imap_commands tr = []
          /\ added tr = []
          /\ count is_check_time_update tr = 0%nat)
      /\ exists pre post,
           tr = pre
                ++ reports_of (callback_or_none cb)
                     (if success r then 100 else 0) (message_ r)
                ++ post
           /\ progress_values post = [].
Proof.
  intros P info cb w run tr label. subst run tr label.
  destruct (check_mail_outcomes P info cb w) as (r & l & m & w1 & H).
  cbv zeta in H. unfold value, events.
  set (pc := callback_or_none cb) in *.
  set (label := mailbox_label (info_email info) (info_id info)) in *.
  set (m0 := u "正在获取访问令牌...") in *.
  destruct (engine_traffic P _ (reports_engine P pc 0 m0))
    as (A1 & _ & A3 & _).
  destruct H as [(tok & E1 & Hf & Hc)
                |(c & token & o & w2 & E1 & E2
                  & [(e & -> & Hc)
                    |(recs & w3 & t3 & n & w4 & t4 & o5 & l5 & m5 & w5
                      & -> & E3 & E4 & Hc)])];
    rewrite Hc; clear Hc; cbn [fst snd].
  - set (msg := label ++ u "获取访问令牌失败").
    exists (failure msg). cbn [success total saved message_ failure].
    destruct (engine_traffic P _ (reports_engine P pc 0 msg))
      as (B1 & _ & B3 & _).
    split; [reflexivity|]. split; [discriminate|]. split.
    + intros _. split; [reflexivity|]. split; [reflexivity|].
      split; [left; reflexivity|].
      rewrite !imap_commands_app, !added_app, !count_app,
        !imap_commands_reports, A1, A3, B1, B3.
      split; [reflexivity|]. split; reflexivity.
    + exists (([EvLog INFO (LogCheckStart (info_id info) (info_email info))]
               ++ reports_of pc 0 m0)
              ++ [EvPost token_url
                    (token_request (info_refresh_token info)
                       (info_client_id info)) r; EvLog l m]
              ++ [EvLog ERROR (LogMessage msg)]), [].
      split; [|reflexivity].
      rewrite app_nil_r, <- !app_assoc. reflexivity.
  - set (msg := u "处理邮箱过程中出错: " ++ e).
    exists (failure msg). cbn [success total saved message_ failure].
    destruct (engine_traffic P _ (reports_engine P pc 0 msg))
      as (B1 & _ & B3 & _).
    split; [reflexivity|]. split; [discriminate|]. split.
    + intros _. split; [reflexivity|]. split; [reflexivity|].
      split.
      * right. exists (c :: token), e. split; [reflexivity|].
        apply in_or_app. right. apply in_or_app. right.
        left. reflexivity.
      * rewrite !imap_commands_app, !added_app, !count_app,
          !imap_commands_reports, A1, A3, B1, B3.
        split; [reflexivity|]. split; reflexivity.
    + exists (([EvLog INFO (LogCheckStart (info_id info) (info_email info))]
               ++ reports_of pc 0 m0)
              ++ [EvPost token_url
                    (token_request (info_refresh_token info)
                       (info_client_id info)) r; EvLog l m]
              ++ [EvUpdateToken (info_id info) (c :: token) (Raise e)]
              ++ [EvLog ERROR (LogMessage (label ++ msg))]), [].
      split; [|reflexivity].
      rewrite app_nil_r, <- !app_assoc. reflexivity.
  - set (fetched := Z.of_nat (length recs)).
    set (msg := u "完成，共处理" ++ str_of_int fetched ++ u "封邮件，新增"
                ++ str_of_int n ++ u "封").
    set (m90 := u "获取到" ++ str_of_int fetched ++ u "封邮件，正在保存...").
    exists {| success := true; message_ := msg;
              total := Some fetched; saved := Some n |}.
    cbn [success total saved message_].
    split; [reflexivity|]. split.
    + intros _. exists fetched, n.
      split; [reflexivity|]. split; reflexivity.
    + split; [discriminate|].
      exists (([EvLog INFO (LogCheckStart (info_id info) (info_email info))]
               ++ reports_of pc 0 m0)
              ++ [EvPost token_url
                    (token_request (info_refresh_token info)
                       (info_client_id info)) r; EvLog l m]
              ++ [EvUpdateToken (info_id info) (c :: token) (Ok tt)]
              ++ reports_of pc 10 (u "开始获取邮件...") ++ t3
              ++ reports_of pc 90 m90
              ++ t4 ++ [EvUpdateCheckTime (info_id info) o5; EvLog l5 m5]),
        [EvLog INFO (LogCheckDone (info_id info) (info_email info)
                       fetched n)].
      split; [|reflexivity].
      rewrite <- !app_assoc. reflexivity.
Qed.

(** X10: in a pass that succeeds, the records handed to the store are
    the ones [fetch_emails] returned, once each and in that order, under
    the id of the account; [total] is their number and [saved] the number
    of those the store reported as new, never more than [total]; the
    check time is updated once; the token is stored once, before any
    IMAP command. *)
Theorem successful_pass_saves_every_record_once :
  forall (P : Platform) (info : email_info P) (cb : option callback_t)
         (w : state P) (r : result),
    let run := check_mail P info cb in
    let tr := events run w in
    value run w = Ok r ->
    success r = true ->
    total r = Some (Z.of_nat (length (added tr)))
    /\ saved r = Some (Z.of_nat (count is_saved tr))
    /\ (count is_saved tr <= length (added tr))%nat
    /\ count is_check_time_update tr = 1%nat
    /\ (exists token w2 recs,
          value (fetch_emails P (info_email info) token (u "inbox")
                   (Some (folder_progress_callback (callback_or_none cb)))
                   None) w2 = Ok recs
          /\ added tr = map (store_arguments (info_id info)) recs
          /\ exists pre post,
               tr = pre ++ EvUpdateToken (info_id info) token (Ok tt) :: post
               /\ imap_commands pre = []
               /\ count is_token_update pre = 0%nat
               /\ count is_token_update post = 0%nat).
Proof.
  intros P info cb w r0 run tr Hv Hs. subst run tr.
  destruct (check_mail_outcomes P info cb w) as (r & l & m & w1 & H).
  cbv zeta in H. unfold value, events in *.
  set (pc := callback_or_none cb) in *.
  set (m0 := u "正在获取访问令牌...") in *.
  destruct H as [(tok & E1 & Hf & Hc)
                |(c & token & o & w2 & E1 & E2
                  & [(e & -> & Hc)
                    |(recs & w3 & t3 & n & w4 & t4 & o5 & l5 & m5 & w5
                      & -> & E3 & E4 & Hc)])];
    rewrite Hc in *; clear Hc; cbn [fst snd] in *;
    injection Hv as <-; cbn [success failure] in Hs; try discriminate.
  cbn [total saved].
  set (fetched := Z.of_nat (length recs)) in *.
  set (msg := u "完成，共处理" ++ str_of_int fetched ++ u "封邮件，新增"
              ++ str_of_int n ++ u "封").
  set (m90 := u "获取到" ++ str_of_int fetched ++ u "封邮件，正在保存...").
  set (m10 := u "开始获取邮件...").
  destruct (engine_traffic P _ (reports_engine P pc 0 m0))
    as (A1 & A2 & A3 & A4).
  destruct (engine_traffic P _ (reports_engine P pc 10 m10))
    as (B1 & B2 & B3 & B4).
  destruct (engine_traffic P _ (reports_engine P pc 90 m90))
    as (C1 & C2 & C3 & C4).
  destruct (engine_traffic P _ (reports_engine P pc 100 msg))
    as (D1 & D2 & D3 & D4).
  pose proof (fetch_emails_engine P (info_email info) (c :: token)
                (u "inbox") (Some (folder_progress_callback pc)) None w2)
    as F.
  unfold events in F. rewrite E3 in F. cbn [snd] in F.
  destruct (engine_traffic P _ F) as (F1 & F2 & F3 & F4).
  destruct (save_loop_run P (info_id info) recs 0 w3) as (S1 & S2 & S3).
  destruct (save_loop_quiet P (info_id info) recs 0 w3)
    as (S4 & S5 & S6 & S7).
  unfold value, events in S1, S2, S3, S4, S5, S6, S7.
  rewrite E4 in S1, S2, S3, S4, S5, S6, S7. cbn [fst snd] in *.
  injection S1 as S1.
  assert (Hadd :
    added
      (([EvLog INFO (LogCheckStart (info_id info) (info_email info))]
        ++ reports_of pc 0 m0)
       ++ [EvPost token_url
             (token_request (info_refresh_token info) (info_client_id info))
             r; EvLog l m]
       ++ [EvUpdateToken (info_id info) (c :: token) (Ok tt)]
       ++ reports_of pc 10 m10 ++ t3 ++ reports_of pc 90 m90 ++ t4
       ++ [EvUpdateCheckTime (info_id info) o5; EvLog l5 m5]
       ++ reports_of pc 100 msg
       ++ [EvLog INFO
             (LogCheckDone (info_id info) (info_email info) fetched n)])
    = map (store_arguments (info_id info)) recs).
  { rewrite !added_app, A1, B1, C1, D1, F1, S2.
    cbn [added flat_map app]. rewrite app_nil_r. reflexivity. }
  assert (Hsaved :
    count is_saved
      (([EvLog INFO (LogCheckStart (info_id info) (info_email info))]
        ++ reports_of pc 0 m0)
       ++ [EvPost token_url
             (token_request (info_refresh_token info) (info_client_id info))
             r; EvLog l m]
       ++ [EvUpdateToken (info_id info) (c :: token) (Ok tt)]
       ++ reports_of pc 10 m10 ++ t3 ++ reports_of pc 90 m90 ++ t4
       ++ [EvUpdateCheckTime (info_id info) o5; EvLog l5 m5]
       ++ reports_of pc 100 msg
       ++ [EvLog INFO
             (LogCheckDone (info_id info) (info_email info) fetched n)])
    = count is_saved t4).
  { rewrite !count_app, A2, B2, C2, D2, F2.
    unfold count. cbn [filter is_saved length]. lia. }
  rewrite Hadd, Hsaved, length_map.
  split; [reflexivity|]. split; [f_equal; lia|]. split; [exact S3|].
  split.
  { rewrite !count_app, A3, B3, C3, D3, F3, S6.
    unfold count. cbn [filter is_check_time_update length]. lia. }
  exists (c :: token), w2, recs.
  split; [unfold value; rewrite E3; reflexivity|].
  split; [reflexivity|].
  exists (([EvLog INFO (LogCheckStart (info_id info) (info_email info))]
           ++ reports_of pc 0 m0)
          ++ [EvPost token_url
                (token_request (info_refresh_token info)
                   (info_client_id info)) r; EvLog l m]),
    (reports_of pc 10 m10 ++ t3 ++ reports_of pc 90 m90 ++ t4
     ++ [EvUpdateCheckTime (info_id info) o5; EvLog l5 m5]
     ++ reports_of pc 100 msg
     ++ [EvLog INFO
           (LogCheckDone (info_id info) (info_email info) fetched n)]).
  split; [rewrite <- !app_assoc; reflexivity|].
  split; [|split].
  - rewrite !imap_commands_app, imap_commands_reports. reflexivity.
  - rewrite !count_app, A4. reflexivity.
  - rewrite !count_app, B4, C4, D4, F4, S7. reflexivity.
Qed.

(** On [Scripted.twice] two records are stored for the account 7. *)
Lemma successful_pass_saves_every_record_once_witness :
  let P := Scripted.twice in
  let info := Scripted.account P in
  let run := check_mail P info (Some watching) in
  let tr := events run Scripted.start in
  total (match value run Scripted.start with
         | Ok r => r
         | Raise _ => failure []
         end) = Some (Z.of_nat (length (added tr)))
  /\ added tr
     = [(7, u "hi", u "a@b.c", Scripted.a_date, u "hello");
        (7, u "other", u "a@b.c", Scripted.a_date, u "hello")].
Proof.
  intros P info run tr. split.
  - apply (successful_pass_saves_every_record_once P info (Some watching)
             Scripted.start
             (match value run Scripted.start with
              | Ok r => r
              | Raise _ => failure []
              end)); vm_compute; reflexivity.
  - vm_compute. reflexivity.
Defined.

(** X11: [get_new_access_token] never raises, posts once to the token
    endpoint with the three fields of the refresh grant, and logs one
    line.  It returns a token exactly when the answer is a JSON object
    without an [error] field that has an [access_token] field, and the
    token is the value of that field; an answer without both fields
    gives [None] with the [KeyError] in the log. *)
Theorem refresher_returns_the_token_of_a_clean_answer :
  forall (P : Platform) (refresh_token client_id : pystr) (w : state P),
    let run := get_new_access_token P refresh_token client_id in
    let form := token_request refresh_token client_id in
    let o := requests_post P w token_url form in
    (exists tok, value run w = Ok tok)
    /\ final run w = fst o
    /\ (exists l m, events run w = [EvPost token_url form (snd o); EvLog l m])
    /\ form = [(u "client_id", client_id);
               (u "grant_type", u "refresh_token");
               (u "refresh_token", refresh_token)]
    /\ (forall token,
          value run w = Ok (Some token)
          <-> exists json,
                snd o = Ok (Ok json)
                /\ dict_get json (u "error") = None
                /\ dict_find json (u "access_token") = Some (Some token))
    /\ (forall json,
          snd o = Ok (Ok json) ->
          dict_get json (u "error") = None ->
          dict_find json (u "access_token") = None ->
          value run w = Ok None
          /\ In (EvLog ERROR
                   (LogTokenException ([39%N] ++ u "access_token" ++ [39%N])))
               (events run w)).
Proof.
  intros P rt cid w run form o. subst run form o.
  unfold value, final, events.
  cbv [get_new_access_token bind try_except requests_post_call
       lift_outcome logger emit ret].
  destruct (requests_post P w token_url (token_request rt cid))
    as [w1 [[json|e]|e]]; cbn [fst snd app].
  - destruct (dict_get json (u "error")) as [status|] eqn:Eg;
      cbn [fst snd app].
    + split; [eexists; reflexivity|]. split; [reflexivity|].
      split; [eexists _, _; reflexivity|]. split; [reflexivity|].
      split.
      * intros token. split; [discriminate|].
        intros (j & Hj & He & _). injection Hj as <-.
        rewrite Eg in He. discriminate.
      * intros j Hj He. injection Hj as <-. rewrite Eg in He. discriminate.
    + unfold dict_index.
      destruct (dict_find json (u "access_token")) as [v|] eqn:Ef;
        cbn [fst snd app].
      * split; [eexists; reflexivity|]. split; [reflexivity|].
        split; [eexists _, _; reflexivity|]. split; [reflexivity|].
        split.
        -- intros token. split.
           ++ intros H. injection H as ->. exists json. auto.
           ++ intros (j & Hj & _ & Hf). injection Hj as <-.
              rewrite Ef in Hf. injection Hf as ->. reflexivity.
        -- intros j Hj _ Hf. injection Hj as <-. rewrite Ef in Hf.
           discriminate.
      * split; [eexists; reflexivity|]. split; [reflexivity|].
        split; [eexists _, _; reflexivity|]. split; [reflexivity|].
        split.
        -- intros token. split; [discriminate|].
           intros (j & Hj & _ & Hf). injection Hj as <-.
           rewrite Ef in Hf. discriminate.
        -- intros j Hj _ _. split; [reflexivity|].
           right. left. reflexivity.
  - split; [eexists; reflexivity|]. split; [reflexivity|].
    split; [eexists _, _; reflexivity|]. split; [reflexivity|].
    split.
    + intros token. split; [discriminate|].
      intros (j & Hj & _). discriminate.
    + intros j Hj. discriminate.
  - split; [eexists; reflexivity|]. split; [reflexivity|].
    split; [eexists _, _; reflexivity|]. split; [reflexivity|].
    split.
    + intros token. split; [discriminate|].
      intros (j & Hj & _). discriminate.
    + intros j Hj. discriminate.
Qed.

Section Shape.
Context (P : Platform).

Lemma record_of_reply_shaped : forall r c,
  record_of_reply P r = Ok c -> shaped c.
Proof.
  intros r c H. unfold record_of_reply in H.
  destruct r as [[typ data]|x]; [|discriminate].
  destruct (first_message P data) as [msg|x]; [|discriminate].
  destruct (parsedate_to_datetime P _) as [d|x]; [|discriminate].
  injection H as <-. split; [reflexivity|].
  exists d. split; reflexivity.
Qed.

Lemma fetched_records_shaped : forall t : list (event P),
  Forall shaped (fetched_records P t)
  /\ (length (fetched_records P t) <= length (fetched_ids t))%nat.
Proof.
  induction t as [|e t [IH1 IH2]]; [split; [constructor | apply le_n]|].
  unfold fetched_records, fetched_ids in *. cbn [flat_map].
  rewrite !length_app.
  destruct e; cbn [app length]; try (split; [exact IH1 | exact IH2]).
  destruct c; cbn [app length]; try (split; [exact IH1 | exact IH2]).
  destruct (record_of_reply P r) as [c|x] eqn:E; cbn [app length].
  - split; [constructor; [apply (record_of_reply_shaped r c E) | exact IH1]
           | lia].
  - split; [exact IH1 | lia].
Qed.

Lemma fold_retain_batch : forall cands (recs : list (record P)),
  Forall shaped cands -> Forall shaped recs ->
  Forall shaped (fold_left (retain P) cands recs)
  /\ (length (fold_left (retain P) cands recs)
      <= length recs + length cands)%nat.
Proof.
  induction cands as [|c cands IH]; intros recs Hc Hr; cbn [fold_left].
  - split; [exact Hr | cbn [length]; lia].
  - inversion Hc as [|? ? Hc1 Hc2]; subst.
    assert (Hs : Forall shaped (retain P recs c)
                 /\ (length (retain P recs c) <= S (length recs))%nat).
    { unfold retain. destruct (known P recs (mail_key c)).
      - split; [exact Hr | lia].
      - split; [apply Forall_app; split;
                  [exact Hr | constructor; [exact Hc1 | constructor]]|].
        rewrite length_app. cbn [length]. lia. }
    destruct Hs as [Hs1 Hs2].
    destruct (IH (retain P recs c) Hc2 Hs1) as [I1 I2].
    split; [exact I1 | cbn [length]; lia].
Qed.

Lemma message_loop_batch : forall cb ids i n,
  (length ids <= 100)%nat ->
  hoare (on_records (fun recs => recs = []))
    (message_loop P cb i n ids)
    (fun _ s => on_records batch s).
Proof.
  intros cb ids i n Hn [w [m recs]] Hs.
  unfold on_records in *. cbn [snd mail_records] in Hs. subst recs.
  change {| mail := m; mail_records := [] |} with (frame_of (P := P) m []).
  destruct (message_loop_records P cb ids i n w m []) as [_ Hf].
  pose proof (message_loop_fetches P cb ids i n (w, frame_of m [])) as Hi.
  unfold final, events in *. rewrite Hf. cbn [mail_records frame_of].
  destruct (fetched_records_shaped
              (snd (message_loop P cb i n ids (w, frame_of m []))))
    as [F1 F2].
  rewrite Hi in F2.
  destruct (fold_retain_batch _ [] F1 (Forall_nil _)) as [B1 B2].
  split; [exact B1 | cbn [length] in B2; lia].
Qed.

Variables (email_address access_token : pystr) (cb : callback_t).
Variable lct : option (datetime P).

Let body := attempt_body P email_address access_token cb lct.

(** An attempt that starts with no record ends with a batch, or with
    the empty list of its early return. *)
Lemma body_batch :
  hoare (on_records (fun recs => recs = [])) body
    (fun r s =>
       match r with
       | Ok Break => on_records batch s
       | Ok (Return v) => v = []
       | _ => True
       end).
Proof.
  subst body. unfold attempt_body.
  set (Q := fun (r : outcome (control P)) (s : state P * frame P) =>
              match r with
              | Ok Break => on_records batch s
              | Ok (Return v) => v = []
              | _ => True
              end).
  assert (HR : forall e s, on_records (fun recs => recs = []) s ->
                           Q (Raise e) s) by (intros; exact I).
  apply hoare_bind_keeps; [apply connect_keeps | intros _ | exact HR].
  apply hoare_bind_keeps; [apply move_junk_keeps | intros _ | exact HR].
  unfold fetch_inbox.
  apply hoare_bind_keeps; [keeps_step | intros _ | exact HR].
  apply hoare_bind_keeps; [keeps_step | intros _ | exact HR].
  apply hoare_bind_keeps;
    [repeat keeps_step | intros [status data] | exact HR].
  destruct (negb (pystr_eqb status OK)).
  - apply hoare_bind_keeps; [keeps_step | intros _ | exact HR].
    apply hoare_bind_keeps; [apply mail_logout_keeps | intros _ | exact HR].
    apply hoare_ret. intros s _. reflexivity.
  - apply hoare_bind_keeps; [keeps_step | intros ids | exact HR].
    apply hoare_bind_keeps; [keeps_step | intros _ | exact HR].
    apply hoare_bind with (J := fun _ s => on_records batch s).
    + eapply hoare_weaken;
        [apply (message_loop_batch cb (cap ids) 0 _ (cap_length ids))|].
      intros [a|e] s Hs; [exact Hs | exact I].
    + intros _.
      apply hoare_bind with (J := fun _ s => on_records batch s).
      * intros s Hs. exact Hs.
      * intros _. apply hoare_ret. intros s Hs. exact Hs.
Qed.

Lemma retry_loop_batch : forall retries s recs,
  mail_records (snd s) = [] ->
  value (retry_loop P email_address access_token cb lct retries) s
  = Ok recs ->
  batch recs.
Proof.
  induction retries as [|retry rest IH]; intros s recs Hs Hv.
  - cbn in Hv. injection Hv as <-. rewrite Hs.
    split; [constructor | cbn [length]; lia].
  - destruct (attempt_run P email_address access_token cb lct retry s)
      as (s' & tl & Hrun & _ & Hsnd).
    fold body in Hrun, Hsnd.
    pose proof (body_batch s Hs) as Hb.
    pose proof (body_raise_keeps_records P email_address access_token cb
                  lct s) as Hkeep.
    fold body in Hkeep.
    set (K := fun c : control P =>
                match c with
                | Continue =>
                    retry_loop P email_address access_token cb lct rest
                | Break =>
                    bind (get_frame P) (fun f => ret (mail_records f))
                | Return v => ret v
                end).
    assert (Hval :
      value (retry_loop P email_address access_token cb lct
               (retry :: rest)) s
      = value (K match value body s with
                 | Ok c => c
                 | Raise _ => Continue
                 end) s').
    { assert (Hf : final (attempt P email_address access_token cb lct retry)
                     s = s') by (unfold final; rewrite Hrun; reflexivity).
      unfold value at 1. cbn [retry_loop].
      rewrite (run_bind_ok _ _ _ _ K s _)
        by (unfold value; rewrite Hrun; reflexivity).
      rewrite Hf. reflexivity. }
    rewrite Hval in Hv. clear Hval.
    destruct (value body s) as [[| |v]|x] eqn:Eb.
    + cbn in Hv. injection Hv as <-. rewrite Hsnd. exact Hb.
    + exfalso.
      apply (attempt_body_returns email_address access_token cb lct s
               Continue Eb). reflexivity.
    + cbn in Hv. injection Hv as <-. rewrite Hb.
      split; [constructor | cbn [length]; lia].
    + apply (IH s' recs); [|exact Hv].
      rewrite Hsnd. rewrite (Hkeep x eq_refl). exact Hs.
Qed.
End Shape.

(** X12: with a callback that returns, [fetch_emails] never raises.  It
    returns at most 100 records;
    each one has the folder [INBOX], a received time, and the key
    [subject|sender|time] with the time in ISO format.  The argument
    [folder] has no effect at all. *)
Theorem fetch_emails_returns_one_batch :
  forall (P : Platform) (email_address access_token folder_ : pystr)
         (cb : option callback_t) (lct : option (datetime P)) (w : state P),
    exists recs,
      value (fetch_emails P email_address access_token folder_ cb lct) w
      = Ok recs
      /\ (length recs <= 100)%nat
      /\ Forall
           (fun r =>
              folder r = INBOX
              /\ exists d,
                   received_time r = Some d
                   /\ mail_key r
                      = subject r ++ u "|" ++ sender r ++ u "|"
                        ++ isoformat P d)
           recs
      /\ forall other_folder,
           fetch_emails P email_address access_token other_folder cb lct w
           = fetch_emails P email_address access_token folder_ cb lct w.
Proof.
  intros P e t f cb lct w.
  destruct (fetch_emails_total P e t f cb lct w) as [recs Hv].
  exists recs. split; [exact Hv|].
  assert (Hb : batch recs).
  { unfold value in Hv. rewrite fetch_emails_run in Hv. cbn [fst] in Hv.
    apply (retry_loop_batch P e t (callback_or_none cb)
             (normalize_check_time P lct) [0; 1; 2]
             (w, frame_of false []) recs eq_refl).
    exact Hv. }
  destruct Hb as [H1 H2]. split; [exact H2|]. split; [exact H1|].
  intros g. reflexivity.
Qed.

Section CarefulFacts.
Context {P : Platform}.

Lemma copies_first_weaken : forall (t : list (event P)) p,
  copies_first None t -> copies_first p t.
Proof.
  intros [|e t] p H; [exact I|]. cbn [copies_first] in *.
  destruct H as [Hl Ht]. split; [|exact Ht].
  destruct e; try exact I. destruct c; try exact I.
  - destruct Hl as (_ & _ & data & Hd). discriminate.
  - destruct Hl as (ids & r0 & Hd). discriminate.
Qed.

Lemma copies_first_app : forall (t1 t2 : list (event P)) p,
  copies_first p t1 -> copies_first None t2 -> copies_first p (t1 ++ t2).
Proof.
  induction t1 as [|e t1 IH]; intros t2 p H1 H2; cbn [app].
  - apply copies_first_weaken, H2.
  - cbn [copies_first] in *. destruct H1 as [Hl Ht].
    split; [exact Hl | apply IH; assumption].
Qed.

Lemma copies_first_harmless : forall (t : list (event P)) p,
  Forall (fun e => deletes e = false) t -> copies_first p t.
Proof.
  intros t p H. revert p.
  induction H as [|e t He _ IH]; intros p; [exact I|].
  cbn [copies_first]. split; [|apply IH].
  destruct e; try exact I. destruct c; try exact I; discriminate.
Qed.

Lemma copies_first_split : forall (pre : list (event P)) e post p,
  copies_first p (pre ++ e :: post) ->
  licensed (match last_event pre with Some x => Some x | None => p end) e.
Proof.
  induction pre as [|x pre IH]; intros e post p H.
  - apply H.
  - cbn [app copies_first] in H. destruct H as [_ H].
    specialize (IH e post (Some x) H).
    unfold last_event in *. cbn [rev].
    destruct (rev pre) as [|y l]; exact IH.
Qed.

Lemma last_event_some : forall (pre : list (event P)) x,
  last_event pre = Some x -> exists pre', pre = pre' ++ [x].
Proof.
  intros pre x H. unfold last_event in H.
  destruct (rev pre) as [|y l] eqn:E; [discriminate|].
  injection H as ->. exists (rev l).
  rewrite <- (rev_involutive pre), E. reflexivity.
Qed.

Lemma careful_of_emits : forall St A (m : M P St A),
  emits (fun e => deletes e = false) m -> careful m.
Proof. intros St A m H s. apply copies_first_harmless, H. Qed.

Lemma careful_bind : forall St A B (m : M P St A) (k : A -> M P St B),
  careful m -> (forall a, careful (k a)) -> careful (bind m k).
Proof.
  intros St A B m k Hm Hk s.
  destruct (value m s) as [a|e] eqn:E.
  - unfold events at 1. rewrite (run_bind_ok _ _ _ m k s a E). cbn [snd].
    apply copies_first_app; [apply Hm | apply Hk].
  - unfold events at 1. rewrite (run_bind_raise _ _ _ m k s e E).
    apply Hm.
Qed.

Lemma careful_try_except : forall St A (m : M P St A) (h : exn -> M P St A),
  careful m -> (forall e, careful (h e)) -> careful (try_except m h).
Proof.
  intros St A m h Hm Hh s. unfold events, try_except.
  specialize (Hm s). unfold events in Hm.
  destruct (m s) as [[[a|e] s1] t1]; cbn [snd] in *; [exact Hm|].
  specialize (Hh e s1). unfold events in Hh.
  destruct (h e s1) as [[r s2] t2]. cbn [snd] in *.
  apply copies_first_app; assumption.
Qed.

Lemma careful_try_finally : forall St A (m : M P St A) (c : M P St unit),
  careful m -> careful c -> careful (try_finally m c).
Proof.
  intros St A m c Hm Hc s. unfold events, try_finally.
  specialize (Hm s). unfold events in Hm.
  destruct (m s) as [[r s1] t1]. cbn [snd] in *.
  specialize (Hc s1). unfold events in Hc.
  destruct (c s1) as [[[x|e] s2] t2]; cbn [snd] in *;
    apply copies_first_app; assumption.
Qed.
End CarefulFacts.

Ltac harmless :=
  apply careful_of_emits;
  repeat first
    [ apply emits_mail_logout; intros
    | apply emits_requests_post_call; intros
    | apply emits_update_email_token_call; intros
    | apply emits_add_mail_record_call; intros
    | apply emits_update_check_time_call; intros
    | emits_step ];
  reflexivity.

Ltac careful_step :=
  match goal with
  | |- careful (bind _ _) => apply careful_bind; [|intros]
  | |- careful (try_except _ _) => apply careful_try_except; [|intros]
  | |- careful (try_finally _ _) => apply careful_try_finally
  | |- careful (if ?c then _ else _) => destruct c
  | |- careful (match ?x with _ => _ end) => destruct x
  end.

Section CarefulEngine.
Context (P : Platform).

Lemma junk_body_careful : forall junk_name,
  careful (junk_body P junk_name).
Proof.
  intros junk_name [w f]. unfold events.
  cbv [junk_body bind imap_call lift_outcome logger emit ret fst snd].
  destruct (imap P w (Select junk_name)) as [w1 [[status d]|e]];
    cbn [fst snd app]; [|repeat split].
  destruct (pystr_eqb status OK); cbn [fst snd app]; [|repeat split].
  destruct (imap P w1 (Search ALL)) as [w2 [[status2 data]|e]];
    cbn [fst snd app]; [|repeat split].
  destruct (pystr_eqb status2 OK); cbn [fst snd app]; [|repeat split].
  destruct (first_split data) as [ids|e]; cbn [fst snd app];
    [|repeat split].
  destruct (truthy ids); cbn [fst snd app]; [|repeat split].
  destruct (imap P w2 (Copy _ INBOX)) as [w3 [[res d3]|e]];
    cbn [fst snd app]; [|repeat split].
  destruct (pystr_eqb res OK) eqn:Er; cbn [fst snd app]; [|repeat split].
  apply pystr_eqb_eq in Er. subst res.
  destruct (imap P w3 (Store _ _ _)) as [w4 [r4|e]];
    cbn [fst snd app copies_first licensed].
  - destruct (imap P w4 Expunge) as [w5 [r5|e]];
      cbn [fst snd app copies_first licensed];
      repeat (split; try exact I); try reflexivity;
      try (eexists; reflexivity); try (eexists _, _; reflexivity).
  - repeat (split; try exact I); try reflexivity;
      try (eexists; reflexivity).
Qed.

Lemma junk_loop_careful : forall aliases, careful (junk_loop P aliases).
Proof.
  induction aliases as [|a rest IH]; cbn [junk_loop]; [harmless|].
  apply careful_bind.
  - apply careful_try_except; [apply junk_body_careful | intros; harmless].
  - intros [|]; [harmless | exact IH].
Qed.

Lemma message_loop_careful : forall cb ids i n,
  careful (message_loop P cb i n ids).
Proof.
  intros cb ids. induction ids as [|x rest IH]; intros i n;
    cbn [message_loop]; [harmless|].
  apply careful_bind; [harmless | intros _].
  apply careful_bind; [|intros _; apply IH].
  unfold process_message. harmless.
Qed.

Lemma attempt_careful : forall e t cb lct retry,
  careful (attempt P e t cb lct retry).
Proof.
  intros e t cb lct retry. unfold attempt.
  apply careful_try_finally; [|harmless].
  apply careful_try_except; [|intros; harmless].
  unfold attempt_body.
  apply careful_bind; [unfold connect; harmless | intros _].
  apply careful_bind.
  - unfold move_junk. apply careful_bind; [harmless | intros _].
    apply junk_loop_careful.
  - intros _. unfold fetch_inbox.
    apply careful_bind; [harmless | intros _].
    apply careful_bind; [harmless | intros _].
    apply careful_bind; [destruct lct; harmless | intros [status data]].
    destruct (negb (pystr_eqb status OK)); [harmless|].
    apply careful_bind; [harmless | intros ids].
    apply careful_bind; [harmless | intros _].
    apply careful_bind; [apply message_loop_careful | intros _].
    harmless.
Qed.

Lemma retry_loop_careful : forall e t cb lct retries,
  careful (retry_loop P e t cb lct retries).
Proof.
  intros e t cb lct. induction retries as [|retry rest IH];
    cbn [retry_loop]; [harmless|].
  apply careful_bind; [apply attempt_careful|].
  intros [| |v]; [harmless | exact IH | harmless].
Qed.

Lemma fetch_emails_careful : forall e t f cb lct,
  careful (fetch_emails P e t f cb lct).
Proof.
  intros e t f cb lct w. unfold events. rewrite fetch_emails_run.
  cbn [snd copies_first licensed]. split; [exact I|].
  apply copies_first_weaken.
  apply (retry_loop_careful e t _ _ [0; 1; 2]).
Qed.

Lemma save_loop_careful : forall id recs n,
  careful (save_loop P id recs n).
Proof.
  intros id recs. induction recs as [|r rest IH]; intros n;
    cbn [save_loop]; [harmless|].
  apply careful_bind; [harmless | intros; apply IH].
Qed.

Lemma check_mail_careful : forall info cb, careful (check_mail P info cb).
Proof.
  intros info cb. unfold check_mail.
  apply careful_bind; [harmless | intros _].
  apply careful_bind; [harmless | intros _].
  apply careful_try_except; [|intros; harmless].
  apply careful_bind; [unfold get_new_access_token; harmless|].
  intros [[|c token]|]; [harmless | | harmless].
  apply careful_bind; [harmless | intros _].
  apply careful_bind; [harmless | intros _].
  apply careful_try_except; [|intros; harmless].
  apply careful_bind; [apply fetch_emails_careful | intros recs].
  apply careful_bind; [harmless | intros _].
  apply careful_bind; [apply save_loop_careful | intros n].
  harmless.
Qed.

(** Reading [copies_first] at one deletion of a trace. *)
Lemma copies_first_reads : forall t : list (event P),
  copies_first None t ->
  (forall pre ids cmd flags r post,
     t = pre ++ EvImap (Store ids cmd flags) r :: post ->
     cmd = add_flags /\ flags = deleted_flag
     /\ exists pre' data,
          pre = pre' ++ [EvImap (Copy ids INBOX) (Ok (OK, data))])
  /\ (forall pre r post,
        t = pre ++ EvImap Expunge r :: post ->
        exists pre' ids r',
          pre = pre'
                ++ [EvImap (Store ids add_flags deleted_flag) (Ok r')]).
Proof.
  intros t H. split.
  - intros pre ids cmd flags r post ->.
    apply copies_first_split in H. cbn [licensed] in H.
    destruct H as (H1 & H2 & data & H3).
    split; [exact H1|]. split; [exact H2|].
    destruct (last_event pre) as [x|] eqn:E; [|discriminate].
    injection H3 as ->.
    destruct (last_event_some pre _ E) as [pre' ->].
    exists pre', data. reflexivity.
  - intros pre r post ->.
    apply copies_first_split in H. cbn [licensed] in H.
    destruct H as (ids & r' & H3).
    destruct (last_event pre) as [x|] eqn:E; [|discriminate].
    injection H3 as ->.
    destruct (last_event_some pre _ E) as [pre' ->].
    exists pre', ids, r'. reflexivity.
Qed.
End CarefulEngine.

(** X13: nothing is deleted that was not copied.  In every run of
    [fetch_emails] and of [check_mail], a [STORE] command is
    [+FLAGS \Deleted] on the identifiers of the command just before it,
    a copy into [INBOX] that the server answered with [OK]; an
    [EXPUNGE] comes directly after such a [STORE] that returned. *)
Theorem junk_mail_is_deleted_only_after_its_copy :
  forall (P : Platform),
    (forall email_address access_token folder_ cb lct (w : state P),
       let tr :=
         events (fetch_emails P email_address access_token folder_ cb lct) w in
       (forall pre ids cmd flags r post,
          tr = pre ++ EvImap (Store ids cmd flags) r :: post ->
          cmd = u "+FLAGS" /\ flags = u "\Deleted"
          /\ exists pre' data,
               pre = pre' ++ [EvImap (Copy ids INBOX) (Ok (OK, data))])
       /\ (forall pre r post,
             tr = pre ++ EvImap Expunge r :: post ->
             exists pre' ids r',
               pre = pre'
                     ++ [EvImap (Store ids (u "+FLAGS") (u "\Deleted"))
                           (Ok r')]))
    /\ (forall info cb (w : state P),
          let tr := events (check_mail P info cb) w in
          (forall pre ids cmd flags r post,
             tr = pre ++ EvImap (Store ids cmd flags) r :: post ->
             cmd = u "+FLAGS" /\ flags = u "\Deleted"
             /\ exists pre' data,
                  pre = pre' ++ [EvImap (Copy ids INBOX) (Ok (OK, data))])
          /\ (forall pre r post,
                tr = pre ++ EvImap Expunge r :: post ->
                exists pre' ids r',
                  pre = pre'
                        ++ [EvImap (Store ids (u "+FLAGS") (u "\Deleted"))
                              (Ok r')])).
Proof.
  intros P. split.
  - intros e t f cb lct w tr.
    apply (copies_first_reads P tr), fetch_emails_careful.
  - intros info cb w tr.
    apply (copies_first_reads P tr), check_mail_careful.
Qed.

Section Refused.
Context (P : Platform).
Variables (email_address access_token : pystr) (cb : callback_t).
Variable lct : option (datetime P).

Let body := attempt_body P email_address access_token cb lct.

Lemma before_inbox_counts : forall t : list (event P),
  Forall (before_inbox (P := P)) t ->
  fetched_ids t = [] /\ count is_logout t = 0%nat
  /\ count is_sleep t = 0%nat /\ count is_attempt_failure t = 0%nat.
Proof.
  induction 1 as [|e t He _ (I1 & I2 & I3 & I4)];
    [repeat split; reflexivity|].
  unfold fetched_ids, count in *. cbn [flat_map filter].
  destruct e; try contradiction; cbn [is_logout is_sleep
    is_attempt_failure app]; auto.
  - destruct c; try contradiction; cbn [app]; auto.
  - destruct l; auto. destruct m; try contradiction; auto.
Qed.

(** The end of an attempt, with its logout. *)
Lemma attempt_run_logout : forall retry s,
  let s1 := final body s in
  let o := imap P (fst s1) Logout in
  attempt P email_address access_token cb lct retry s
  = (Ok (match value body s with Ok c => c | Raise _ => Continue end),
     (if mail (snd s1) then fst o else fst s1, snd s1),
     events body s ++ failure_events P retry (value body s)
     ++ (if mail (snd s1) then [EvImap Logout (snd o)] else [])).
Proof.
  intros retry s. subst body.
  unfold attempt, value, final, events.
  cbv [try_finally try_except].
  destruct (attempt_body P email_address access_token cb lct s)
    as [[[c|x] [w1 f1]] t1]; cbn [fst snd failure_events].
  - cbv [mail_logout bind get_frame imap_call raise ret fst snd].
    destruct (mail f1).
    + destruct (imap P w1 Logout) as [w2 [r|y]]; cbn [fst snd app];
        reflexivity.
    + cbn [app]. reflexivity.
  - cbv [logger sleep emit bind ret].
    cbv [mail_logout bind get_frame imap_call raise ret fst snd].
    destruct (mail f1).
    + destruct (imap P w1 Logout) as [w2 [r|y]]; cbn [fst snd app];
        rewrite <- ?app_assoc; reflexivity.
    + cbn [app]. rewrite ?app_nil_r. reflexivity.
Qed.

Lemma emits_connect_before :
  emits (before_inbox (P := P)) (connect P email_address access_token cb).
Proof. unfold connect. repeat emits_step; exact I. Qed.

Lemma emits_junk_before : emits (before_inbox (P := P)) (move_junk P cb).
Proof.
  unfold move_junk. apply emits_bind; [emits_step; exact I | intros _].
  induction junk_aliases as [|a rest IH]; cbn [junk_loop].
  - apply emits_ret.
  - apply emits_bind;
      [|intros stop; destruct stop; [apply emits_ret | exact IH]].
    unfold junk_body. repeat emits_step; simpl; auto.
Qed.

Lemma bind_returns : forall St A B (m : M P St A) (k : A -> M P St B) s b,
  value (bind m k) s = Ok b ->
  exists a,
    value m s = Ok a
    /\ value (k a) (final m s) = Ok b
    /\ final (bind m k) s = final (k a) (final m s)
    /\ events (bind m k) s = events m s ++ events (k a) (final m s).
Proof.
  intros St A B m k s b H. unfold value, final, events, bind in *.
  destruct (m s) as [[[a|e] s1] t1]; cbn [fst snd] in *; [|discriminate].
  exists a. destruct (k a s1) as [[r s2] t2]. cbn [fst snd] in *. auto.
Qed.

Lemma imap_call_frame : forall c (s : state P * frame P),
  snd (final (imap_call P c) s) = snd s
  /\ exists r, events (imap_call P c) s = [EvImap c r].
Proof.
  intros c s. unfold final, events, imap_call.
  destruct (imap P (fst s) c) as [w r]. split; [reflexivity|].
  exists r. reflexivity.
Qed.

Lemma mail_logout_returns : forall (s : state P * frame P) a,
  value (mail_logout P) s = Ok a ->
  mail (snd s) = true
  /\ snd (final (mail_logout P) s) = snd s
  /\ exists r, events (mail_logout P) s = [EvImap Logout (Ok r)].
Proof.
  intros [w f] a H. unfold value, final, events in *.
  cbv [mail_logout bind get_frame imap_call raise ret fst snd] in *.
  destruct (mail f) eqn:Em; [|discriminate].
  destruct (imap P w Logout) as [w3 [r3|x]]; [|discriminate].
  cbn [fst snd app]. split; [reflexivity|]. split; [reflexivity|].
  exists r3. reflexivity.
Qed.

(** The inbox block returns early only when the search was refused:
    with the empty list, after one log line and one logout. *)
Lemma fetch_inbox_return : forall s v,
  value (fetch_inbox P cb lct) s = Ok (Return v) ->
  v = []
  /\ snd (final (fetch_inbox P cb lct) s) = snd s
  /\ mail (snd s) = true
  /\ exists pre r,
       events (fetch_inbox P cb lct) s
       = pre ++ [EvLog ERROR LogSearchFailed; EvImap Logout (Ok r)]
       /\ Forall (before_inbox (P := P)) pre.
Proof.
  intros s v H. unfold fetch_inbox in *.
  apply bind_returns in H. destruct H as ([] & _ & H & F1 & E1).
  rewrite F1, E1. clear F1 E1.
  change (final (call cb 40 (u "正在获取收件箱...")) s) with s in *.
  assert (Hcall : Forall (before_inbox (P := P))
                    (events (call cb 40 (u "正在获取收件箱...")) s)).
  { unfold events, call, emit. cbn [snd].
    induction (cb 40 _); cbn [map]; constructor; auto. exact I. }
  set (rep := events (call cb 40 (u "正在获取收件箱...")) s) in *.
  apply bind_returns in H. destruct H as (r1 & _ & H & F2 & E2).
  rewrite F2, E2. clear F2 E2.
  destruct (imap_call_frame (Select INBOX) s) as (Fs & rs & Es).
  rewrite Es. set (s1 := final (imap_call P (Select INBOX)) s) in *.
  apply bind_returns in H. destruct H as ([status data] & _ & H & F3 & E3).
  rewrite F3, E3. clear F3 E3.
  match type of H with
  | value _ (final ?m s1) = _ => set (search := m) in *
  end.
  assert (Hsearch : snd (final search s1) = snd s1
                    /\ Forall (before_inbox (P := P)) (events search s1)).
  { subst search. destruct lct.
    - unfold final, events. cbv [bind logger emit].
      destruct (imap_call_frame
                  (Search (u "(SINCE " ++ [34%N]
                           ++ format_date_for_imap_search P d ++ [34%N]
                           ++ u ")")) s1) as (Fq & rq & Eq).
      unfold final, events in Fq, Eq.
      destruct (imap_call P _ s1) as [[r s2] t2]. cbn [fst snd] in *.
      subst t2. split; [exact Fq | repeat constructor].
    - destruct (imap_call_frame (Search ALL) s1) as (Fq & rq & Eq).
      rewrite Eq. split; [exact Fq | repeat constructor]. }
  destruct Hsearch as [Fq Hq].
  set (s2 := final search s1) in *.
  destruct (negb (pystr_eqb status OK)).
  - apply bind_returns in H. destruct H as ([] & _ & H & F4 & E4).
    rewrite F4, E4. clear F4 E4.
    change (final (logger ERROR LogSearchFailed) s2) with s2 in *.
    change (events (logger ERROR LogSearchFailed) s2)
      with [EvLog (P := P) ERROR LogSearchFailed].
    apply bind_returns in H. destruct H as ([] & Hl & H & F5 & E5).
    rewrite F5, E5. clear F5 E5.
    destruct (mail_logout_returns s2 tt Hl) as (Hm & Fl & rl & El).
    rewrite El.
    cbv [value ret] in H. cbn [fst] in H. injection H as <-.
    split; [reflexivity|].
    change (final (ret (Return [])) ?x) with x.
    split; [rewrite Fl, Fq, Fs; reflexivity|].
    split; [rewrite <- Fs, <- Fq; exact Hm|].
    exists (rep ++ [EvImap (Select INBOX) rs] ++ events search s1), rl.
    split.
    + change (events (ret (Return [])) ?x) with (@nil (event P)).
      rewrite <- !app_assoc. reflexivity.
    + apply Forall_app. split; [exact Hcall|].
      apply Forall_app. split; [repeat constructor | exact Hq].
  - exfalso.
    assert (Hr : forall k : F P (control P),
              returns_only (fun c : control P => c = Break) k ->
              value k s2 = Ok (Return v) -> False).
    { intros k Hk Hv. specialize (Hk s2 _ Hv). discriminate. }
    refine (Hr _ _ H).
    repeat match goal with
           | |- returns_only _ (bind _ _) =>
               apply returns_only_bind; intros
           | |- returns_only _ (ret _) =>
               apply returns_only_ret; reflexivity
           end.
Qed.

(** The inbox is read in a session that answers. *)
Lemma body_return : forall s v,
  value body s = Ok (Return v) ->
  v = []
  /\ mail (snd (final body s)) = true
  /\ exists pre r,
       events body s
       = pre ++ [EvLog ERROR LogSearchFailed; EvImap Logout (Ok r)]
       /\ fetched_ids pre = [] /\ count is_logout pre = 0%nat
       /\ count is_sleep pre = 0%nat
       /\ count is_attempt_failure pre = 0%nat
       /\ count is_open pre = 1%nat.
Proof.
  intros s v H.
  destruct (body_counts P email_address access_token cb lct s)
    as (Ho & _ & _).
  fold body in Ho.
  subst body. unfold attempt_body in *.
  apply bind_returns in H. destruct H as ([] & _ & H & F1 & E1).
  rewrite F1, E1 in *. clear F1 E1.
  set (s1 := final (connect P email_address access_token cb) s) in *.
  assert (Hc : Forall (before_inbox (P := P))
                 (events (connect P email_address access_token cb) s)).
  { apply (emits_connect_before s). }
  apply bind_returns in H. destruct H as ([] & _ & H & F2 & E2).
  rewrite F2, E2 in *. clear F2 E2.
  set (s2 := final (move_junk P cb) s1) in *.
  assert (Hj : Forall (before_inbox (P := P)) (events (move_junk P cb) s1)).
  { apply (emits_junk_before s1). }
  destruct (fetch_inbox_return s2 v H) as (-> & Ff & Hm & pre & r & Ei & Hp).
  split; [reflexivity|]. split; [rewrite Ff; exact Hm|].
  rewrite Ei in *.
  exists (events (connect P email_address access_token cb) s
          ++ events (move_junk P cb) s1 ++ pre), r.
  split; [rewrite <- !app_assoc; reflexivity|].
  assert (Hall : Forall (before_inbox (P := P))
                   (events (connect P email_address access_token cb) s
                    ++ events (move_junk P cb) s1 ++ pre))
    by (repeat (apply Forall_app; split); assumption).
  destruct (before_inbox_counts _ Hall) as (B1 & B2 & B3 & B4).
  repeat (split; [assumption|]).
  rewrite !app_assoc, count_app in Ho. rewrite <- !app_assoc in Ho.
  unfold count at 2 in Ho. cbn [filter is_open length] in Ho. lia.
Qed.
End Refused.

(** X14: the early return of an attempt is the refused search of the
    inbox.  When the body of an attempt returns, it returns the empty
    list; [fetch_emails]'s loop returns it without another attempt and
    without waiting; no message was fetched, one session was opened,
    and the run ends with the error line of the refused search and two
    logouts, the one before the return and the one of the
    [finally]. *)
Theorem refused_inbox_search_ends_the_fetch :
  forall (P : Platform) (email_address access_token : pystr)
         (cb : callback_t) (lct : option (datetime P))
         (retry : Z) (rest : list Z) (s : state P * frame P)
         (v : list (record P)),
    value (attempt_body P email_address access_token cb lct) s
    = Ok (Return v) ->
    let run :=
      retry_loop P email_address access_token cb lct (retry :: rest) in
    let tr := events run s in
    v = []
    /\ value run s = Ok []
    /\ count is_open tr = 1%nat
    /\ count is_sleep tr = 0%nat
    /\ count is_attempt_failure tr = 0%nat
    /\ fetched_ids tr = []
    /\ count is_logout tr = 2%nat
    /\ exists pre r r',
         tr = pre ++ [EvLog ERROR LogSearchFailed; EvImap Logout (Ok r);
                      EvImap Logout r'].
Proof.
  intros P e t cb lct retry rest s v Hv run tr. subst run tr.
  destruct (body_return P e t cb lct s v Hv)
    as (-> & Hm & pre & r & Ev & B1 & B2 & B3 & B4 & B5).
  pose proof (attempt_run_logout P e t cb lct retry s) as Ha.
  cbv zeta in Ha. rewrite Hv, Hm, Ev in Ha. cbn [failure_events app] in Ha.
  set (K := fun c : control P =>
              match c with
              | Continue => retry_loop P e t cb lct rest
              | Break => bind (get_frame P) (fun f => ret (mail_records f))
              | Return v => ret v
              end).
  assert (Hrun :
    retry_loop P e t cb lct (retry :: rest) s
    = (Ok [],
       final (attempt P e t cb lct retry) s,
       events (attempt P e t cb lct retry) s ++ [])).
  { cbn [retry_loop].
    rewrite (run_bind_ok _ _ _ _ K s (Return []))
      by (unfold value; rewrite Ha; reflexivity).
    reflexivity. }
  unfold value at 1, events at 1 2 3 4 5 6. rewrite Hrun. cbn [fst snd].
  unfold events. rewrite Ha. cbn [snd]. rewrite app_nil_r.
  set (r' := snd (imap P _ Logout)).
  split; [reflexivity|]. split; [reflexivity|].
  rewrite <- !app_assoc. cbn [app].
  rewrite !count_app, fetched_ids_app, B1, B2, B3, B4, B5.
  unfold count. cbn [filter is_open is_sleep is_attempt_failure is_logout
                     fetched_ids flat_map length app].
  repeat (split; [reflexivity|]).
  exists pre, r, r'. reflexivity.
Qed.

(** On [Cases.inbox_refused] the first attempt returns early, and the
    fetch ends with the empty list after two logouts. *)
Lemma refused_inbox_search_ends_the_fetch_witness :
  let P := Cases.inbox_refused in
  let s : state P * frame P :=
    (Scripted.start, {| mail := false; mail_records := [] |}) in
  let run := retry_loop P (u "a@b.c") (u "t") no_callback None [0; 1; 2] in
  value (attempt_body P (u "a@b.c") (u "t") no_callback None) s
  = Ok (Return [])
  /\ value run s = Ok []
  /\ count is_logout (events run s) = 2%nat.
Proof.
  intros P s run.
  assert (H : value (attempt_body P (u "a@b.c") (u "t") no_callback None) s
              = Ok (Return [])) by (vm_compute; reflexivity).
  split; [exact H|].
  split;
    apply (refused_inbox_search_ends_the_fetch P (u "a@b.c") (u "t")
             no_callback None 0 [1; 2] s [] H).
Defined.

Section Since.
Context (P : Platform).

Lemma searches_Forall : forall (Q : pystr -> Prop) (t : list (event P)),
  Forall (fun e => match e with
                   | EvImap (Search c) _ => Q c
                   | _ => True
                   end) t ->
  Forall Q (searches t).
Proof.
  induction 1 as [|e t He _ IH]; [constructor|].
  unfold searches in *. cbn [flat_map]. apply Forall_app.
  split; [|exact IH].
  destruct e; try constructor. destruct c; try constructor; auto.
Qed.

Lemma junk_loop_searches_all : forall aliases,
  emits (fun e : event P =>
           match e with
           | EvImap (Search c) _ => c = ALL
           | _ => True
           end) (junk_loop P aliases).
Proof.
  induction aliases as [|a rest IH]; cbn [junk_loop].
  - apply emits_ret.
  - apply emits_bind;
      [|intros stop; destruct stop; [apply emits_ret | exact IH]].
    unfold junk_body. repeat emits_step; simpl; auto.
Qed.

Lemma fetch_inbox_searches_since : forall cb d,
  emits (fun e : event P =>
           match e with
           | EvImap (Search c) _ => c = since_command d
           | _ => True
           end) (fetch_inbox P cb (Some d)).
Proof.
  intros cb d. unfold fetch_inbox.
  assert (Hm : forall ids i n,
             emits (fun e : event P =>
                      match e with
                      | EvImap (Search c) _ => c = since_command d
                      | _ => True
                      end) (message_loop P cb i n ids)).
  { induction ids as [|x rest IH]; intros i n; cbn [message_loop].
    - apply emits_ret.
    - apply emits_bind; [emits_step; exact I|]. intros _.
      apply emits_bind; [|intros _; apply IH].
      unfold process_message. repeat emits_step; simpl; auto. }
  repeat first
    [ apply Hm | apply emits_mail_logout; intros | emits_step ];
    simpl; auto.
Qed.

Lemma retry_loop_searches : forall e t cb d retries,
  emits (fun ev : event P =>
           match ev with
           | EvImap (Search c) _ => c = ALL \/ c = since_command d
           | _ => True
           end) (retry_loop P e t cb (Some d) retries).
Proof.
  intros e t cb d.
  assert (Ha : forall retry,
            emits (fun ev : event P =>
                     match ev with
                     | EvImap (Search c) _ => c = ALL \/ c = since_command d
                     | _ => True
                     end) (attempt P e t cb (Some d) retry)).
  { intros retry. unfold attempt, attempt_body, connect, move_junk.
    repeat first
      [ apply emits_weaken with (2 := fun ev => _);
          [apply fetch_inbox_searches_since|]
      | apply emits_mail_logout; intros
      | match goal with
        | |- emits _ (junk_loop _ _) =>
            eapply emits_weaken; [apply junk_loop_searches_all|];
            intros [] H; try exact I; destruct c; try exact I;
            left; exact H
        | |- emits _ (fetch_inbox _ _ _) =>
            eapply emits_weaken; [apply fetch_inbox_searches_since|];
            intros [] H; try exact I; destruct c; try exact I;
            right; exact H
        end
      | emits_step ];
      simpl; auto. }
  induction retries as [|retry rest IH]; cbn [retry_loop].
  - repeat emits_step.
  - apply emits_bind; [apply Ha|]. intros [| |v];
      [repeat emits_step | exact IH | apply emits_ret].
Qed.
End Since.

(** X15: with a last check time, every search of the inbox of
    [fetch_emails] is [(SINCE "date")] on the date formatted from the
    normalised time, in every attempt; the searches of the junk folders
    stay [ALL]. *)
Theorem inbox_is_searched_since_the_last_check :
  forall (P : Platform) (email_address access_token folder_ : pystr)
         (cb : option callback_t) (lct : option (datetime P))
         (d : datetime P) (w : state P),
    normalize_check_time P lct = Some d ->
    let since :=
      u "(SINCE " ++ [34%N] ++ format_date_for_imap_search P d ++ [34%N]
      ++ u ")" in
    Forall (fun c => c = ALL \/ c = since)
      (searches
         (events (fetch_emails P email_address access_token folder_ cb lct)
            w))
    /\ (forall pc s,
          Forall (fun c => c = since)
            (searches (events (fetch_inbox P pc (Some d)) s)))
    /\ (forall pc s,
          Forall (fun c => c = ALL)
            (searches (events (move_junk P pc) s))).
Proof.
  intros P e t f cb lct d w Hn since. split; [|split].
  - unfold events. rewrite fetch_emails_run. cbn [snd]. rewrite Hn.
    unfold searches. cbn [flat_map app].
    apply (searches_Forall P (fun c => c = ALL \/ c = since)).
    apply (retry_loop_searches P e t _ d [0; 1; 2]).
  - intros pc s. apply (searches_Forall P (fun c => c = since)).
    apply (fetch_inbox_searches_since P pc d).
  - intros pc s. apply (searches_Forall P (fun c => c = ALL)).
    unfold move_junk.
    apply (emits_bind _ _ _ _ _ _);
      [emits_step; exact I | intros _; apply junk_loop_searches_all].
Qed.

(** On [Scripted.twice] with a last check time, the searches are [ALL]
    or the search since that date. *)
Lemma inbox_is_searched_since_the_last_check_witness :
  let P := Scripted.twice in
  Forall (fun c => c = ALL \/ c = u "(SINCE " ++ [34%N] ++ u "1-Jan-2024"
                                   ++ [34%N] ++ u ")")
    (searches
       (events (fetch_emails P (u "a@b.c") (u "t") (u "inbox") None
                  (Some (u "1-Jan-2024"))) Scripted.start)).
Proof.
  intros P.
  apply (inbox_is_searched_since_the_last_check P (u "a@b.c") (u "t")
           (u "inbox") None (Some (u "1-Jan-2024")) (u "1-Jan-2024")
           Scripted.start).
  reflexivity.
Defined.

Lemma inbox_progress_table :
  forallb inbox_progress_checked (seq 0 101) = true.
Proof. vm_compute. reflexivity. Qed.

Lemma total_progress_table :
  forallb total_progress_checked (seq 0 101) = true.
Proof. vm_compute. reflexivity. Qed.

(** X16: the progress of the message loop, for an inbox of at most 100
    messages: [40 + int(i / n * 50)] stays between 40 and 89, does not
    decrease with [i], and is [40 + 50 * i // n] or one less (the
    product is rounded before it is truncated).  The outer callback maps
    a progress [p] between 0 and 100 to [10 + 4 * p // 5], between 10
    and 90, so the message loop is reported between 42 and 81. *)
Theorem progress_stays_in_its_band :
  forall i n p : Z,
    0 <= i < n -> n <= 100 -> 0 <= p <= 100 ->
    40 <= inbox_progress i n <= 89
    /\ inbox_progress i n <= inbox_progress (i + 1) n
    /\ 40 + (50 * i) / n - 1 <= inbox_progress i n <= 40 + (50 * i) / n
    /\ total_progress p = 10 + (4 * p) / 5
    /\ 10 <= total_progress p <= 90
    /\ 42 <= total_progress (inbox_progress i n) <= 81.
Proof.
  intros i n p Hi Hn Hp.
  pose proof inbox_progress_table as T. rewrite forallb_forall in T.
  specialize (T (Z.to_nat n) ltac:(apply in_seq; lia)).
  unfold inbox_progress_checked in T. rewrite forallb_forall in T.
  specialize (T (Z.to_nat i) ltac:(apply in_seq; lia)). cbv zeta in T.
  replace (Z.of_nat (S (Z.to_nat i))) with (i + 1) in T by lia.
  rewrite !Z2Nat.id in T by lia.
  repeat (apply andb_true_iff in T; destruct T as [T ?]).
  repeat match goal with
         | H : (_ <=? _) = true |- _ => apply Z.leb_le in H
         end.
  pose proof total_progress_table as U. rewrite forallb_forall in U.
  assert (HU : forall q, 0 <= q <= 100 -> total_progress q = 10 + (4 * q) / 5).
  { intros q Hq.
    specialize (U (Z.to_nat q) ltac:(apply in_seq; lia)).
    unfold total_progress_checked in U. rewrite Z2Nat.id in U by lia.
    apply Z.eqb_eq, U. }
  assert (Hx : 0 <= inbox_progress i n <= 100) by lia.
  rewrite (HU p Hp), (HU _ Hx).
  pose proof (Z.mul_div_le (4 * p) 5 ltac:(lia)) as P1.
  pose proof (Z.mul_succ_div_gt (4 * p) 5 ltac:(lia)) as P2.
  pose proof (Z.mul_div_le (4 * inbox_progress i n) 5 ltac:(lia)) as P3.
  pose proof (Z.mul_succ_div_gt (4 * inbox_progress i n) 5 ltac:(lia)) as P4.
  repeat split; lia.
Qed.

(** Message 58 of 100: the progress is 68, one below [40 + 50 * 58 // 100]. *)
Lemma progress_stays_in_its_band_witness :
  inbox_progress 58 100 = 68
  /\ 40 + (50 * 58) / 100 = 69
  /\ total_progress (inbox_progress 58 100) = 64
  /\ 40 + (50 * 58) / 100 - 1 <= inbox_progress 58 100 <= 40 + (50 * 58) / 100.
Proof.
  split; [vm_compute; reflexivity|]. split; [reflexivity|].
  split; [vm_compute; reflexivity|].
  apply (progress_stays_in_its_band 58 100 0); lia.
Defined.

Section Sessions.
Context (P : Platform).

Lemma bound_imap_call : forall c, keeps (bound (P := P)) (imap_call P c).
Proof.
  intros c s Hs. unfold final, imap_call.
  destruct (imap P (fst s) c) as [w r]. exact Hs.
Qed.

Lemma bound_append_record : forall r, keeps (bound (P := P)) (append_record P r).
Proof. intros r s Hs. exact Hs. Qed.
End Sessions.

Ltac bound_step :=
  match goal with
  | |- keeps _ (bind _ _) => apply keeps_bind; [|intros]
  | |- keeps _ (try_except _ _) => apply keeps_try_except; [|intros]
  | |- keeps _ (if ?c then _ else _) => destruct c
  | |- keeps _ (match ?x with _ => _ end) => destruct x
  | |- keeps _ (imap_call _ _) => apply bound_imap_call
  | |- keeps _ (append_record _ _) => apply bound_append_record
  | |- keeps _ _ => apply keeps_still; intros; reflexivity
  end.

Section SessionsClosed.
Context (P : Platform).
Variables (email_address access_token : pystr) (cb : callback_t).
Variable lct : option (datetime P).

Let connect_ := connect P email_address access_token cb.
Let body := attempt_body P email_address access_token cb lct.
Let after := bind (move_junk P cb) (fun _ => fetch_inbox P cb lct).

Lemma after_bound : keeps (bound (P := P)) after.
Proof.
  subst after. unfold move_junk, fetch_inbox.
  assert (Hj : forall aliases, keeps (bound (P := P)) (junk_loop P aliases)).
  { induction aliases as [|a rest IH]; cbn [junk_loop];
      repeat first [exact IH | unfold junk_body; bound_step]. }
  assert (Hm : forall ids i n,
             keeps (bound (P := P)) (message_loop P cb i n ids)).
  { induction ids as [|x rest IH]; intros i n; cbn [message_loop];
      repeat first [apply IH | unfold process_message; bound_step]. }
  repeat first [apply Hj | apply Hm | unfold mail_logout; bound_step].
Qed.

Lemma opened_reports : forall p msg,
  count (is_opened (P := P)) (reports_of cb p msg) = 0%nat
  /\ count is_logout (reports_of (P := P) cb p msg) = 0%nat.
Proof.
  intros p msg. unfold reports_of, count.
  induction (cb p msg) as [|x l [I1 I2]]; cbn [map filter];
    split; auto.
Qed.

Lemma session_opened : forall t : list (event P),
  Forall session_event t -> count (is_opened (P := P)) t = 0%nat.
Proof.
  induction 1 as [|e t He _ IH]; [reflexivity|].
  unfold count in *. cbn [filter].
  destruct e; try contradiction; cbn [is_opened]; auto.
  destruct c; try contradiction; auto.
Qed.

(** The body of an attempt, by its [IMAP4_SSL] call: once a session
    is opened [mail] is bound; without one the body sends nothing
    else and leaves [mail] as it was. *)
Lemma body_sessions : forall s,
  (count (is_opened (P := P)) (events body s) = 1%nat
   /\ mail (snd (final body s)) = true)
  \/ (count (is_opened (P := P)) (events body s) = 0%nat
      /\ count is_logout (events body s) = 0%nat
      /\ mail (snd (final body s)) = mail (snd s)).
Proof.
  intros [w f].
  pose proof (connect_run P email_address access_token cb w f) as R.
  cbv zeta in R. fold connect_ in R.
  destruct (opened_reports 10 (u "连接服务器...")) as [O1 O2].
  assert (Rc : events connect_ (w, f) = snd (connect_ (w, f))) by reflexivity.
  assert (Rf : final connect_ (w, f) = snd (fst (connect_ (w, f))))
    by reflexivity.
  assert (Rv : value connect_ (w, f) = fst (fst (connect_ (w, f))))
    by reflexivity.
  destruct (attempt_body_run P email_address access_token cb lct (w, f))
    as [(x & Hv & Hrun)|(Hv & Hrun)];
    fold connect_ body in Hv, Hrun; try fold after in Hrun.
  - assert (He : events body (w, f) = events connect_ (w, f))
      by (unfold events at 1; rewrite Hrun; reflexivity).
    assert (Hf : final body (w, f) = final connect_ (w, f))
      by (unfold final at 1; rewrite Hrun; reflexivity).
    rewrite He, Hf, Rc, Rf. rewrite R.
    destruct (snd (imap P w (IMAP4_SSL host))) as [r1|y]; cbn [fst snd].
    + left. rewrite count_app, O1. split; reflexivity.
    + right. rewrite !count_app, O1, O2. repeat split.
  - assert (He : events body (w, f)
                 = events connect_ (w, f)
                   ++ events after (final connect_ (w, f)))
      by (unfold events at 1; rewrite Hrun; reflexivity).
    assert (Hf : final body (w, f) = final after (final connect_ (w, f)))
      by (unfold final at 1; rewrite Hrun; reflexivity).
    rewrite He, Hf. left. split.
    + rewrite count_app.
      pose proof (session_opened _
                    (after_emits P email_address access_token cb lct
                       (final connect_ (w, f)))) as So.
      fold after in So. rewrite So.
      rewrite Rc, R. rewrite Rv, R in Hv.
      destruct (snd (imap P w (IMAP4_SSL host))) as [r1|y];
        cbn [fst snd] in *; [|discriminate].
      rewrite count_app, O1. reflexivity.
    + apply after_bound. unfold bound. rewrite Rf, R.
      rewrite Rv, R in Hv.
      destruct (snd (imap P w (IMAP4_SSL host))) as [r1|y];
        cbn [fst snd] in *; [reflexivity | discriminate].
Qed.

Lemma retry_loop_sessions : forall retries s,
  let tr :=
    events (retry_loop P email_address access_token cb lct retries) s in
  (count (is_opened (P := P)) tr <= count is_logout tr)%nat
  /\ (mail (snd s) = false -> count (is_opened (P := P)) tr = 0%nat ->
      count is_logout tr = 0%nat).
Proof.
  induction retries as [|retry rest IH]; intros s tr.
  - subst tr. cbn. split; [lia | reflexivity].
  - pose proof (attempt_run_logout P email_address access_token cb lct
                  retry s) as Ha.
    cbv zeta in Ha. fold body in Ha.
    pose proof (body_sessions s) as Hb.
    set (s1 := final body s) in *.
    set (c := match value body s with Ok c => c | Raise _ => Continue end)
      in *.
    set (K := fun c : control P =>
                match c with
                | Continue =>
                    retry_loop P email_address access_token cb lct rest
                | Break =>
                    bind (get_frame P) (fun f => ret (mail_records f))
                | Return v => ret v
                end).
    assert (Hcons : forall s' ta,
              attempt P email_address access_token cb lct retry s
              = (Ok c, s', ta) ->
              events (retry_loop P email_address access_token cb lct
                        (retry :: rest)) s = ta ++ events (K c) s').
    { intros s' ta E.
      assert (Hf : final (attempt P email_address access_token cb lct retry)
                     s = s') by (unfold final; rewrite E; reflexivity).
      assert (He : events (attempt P email_address access_token cb lct
                             retry) s = ta)
        by (unfold events; rewrite E; reflexivity).
      unfold events at 1. cbn [retry_loop].
      rewrite (run_bind_ok _ _ _ _ K s c)
        by (unfold value; rewrite E; reflexivity).
      rewrite Hf, He. reflexivity. }
    assert (Hfail : count (is_opened (P := P))
                      (failure_events P retry (value body s)) = 0%nat
                    /\ count is_logout
                         (failure_events P retry (value body s)) = 0%nat)
      by (destruct (value body s); split; reflexivity).
    destruct Hfail as [F1 F2].
    assert (Hk : forall s',
              (count (is_opened (P := P)) (events (K c) s')
               <= count is_logout (events (K c) s'))%nat
              /\ (mail (snd s') = false ->
                  count (is_opened (P := P)) (events (K c) s') = 0%nat ->
                  count is_logout (events (K c) s') = 0%nat)).
    { intros s'.
      destruct c as [| |v]; [cbn; split; [lia | reflexivity]
                            | apply IH
                            | cbn; split; [lia | reflexivity]]. }
    subst tr.
    destruct (mail (snd s1)) eqn:Em.
    + rewrite (Hcons _ _ Ha).
      destruct (Hk (fst (imap P (fst s1) Logout), snd s1)) as [K1 _].
      rewrite !count_app, F1, F2.
      assert (L : count (is_opened (P := P))
                    [EvImap Logout (snd (imap P (fst s1) Logout))] = 0%nat
                  /\ count is_logout
                       [EvImap (P := P) Logout
                          (snd (imap P (fst s1) Logout))] = 1%nat)
        by (split; reflexivity).
      destruct L as [L1 L2]. rewrite L1, L2.
      destruct Hb as [[B1 _]|(B1 & B2 & B3)]; rewrite B1;
        (split; [lia | intros Hm Hz; first [lia | congruence]]).
    + rewrite (Hcons _ _ Ha).
      destruct (Hk (fst s1, snd s1)) as [K1 K2].
      rewrite !count_app, F1, F2.
      assert (N : count (is_opened (P := P)) [] = 0%nat
                  /\ count (is_logout (P := P)) [] = 0%nat)
        by (split; reflexivity).
      destruct N as [N1 N2]. rewrite N1, N2.
      destruct Hb as [[_ B2]|(B1 & B2 & B3)]; [discriminate|].
      rewrite B1, B2. split; [lia|].
      intros Hm Hz. rewrite (K2 Em); lia.
Qed.
End SessionsClosed.

(** X17: in every run of [fetch_emails] there are at least as many
    logouts as opened sessions, and no logout when no session was
    opened. *)
Theorem every_opened_session_is_logged_out :
  forall (P : Platform) (email_address access_token folder_ : pystr)
         (cb : option callback_t) (lct : option (datetime P)) (w : state P),
    let tr :=
      events (fetch_emails P email_address access_token folder_ cb lct) w in
    (count (is_opened (P := P)) tr <= count is_logout tr)%nat
    /\ (count (is_opened (P := P)) tr = 0%nat -> count is_logout tr = 0%nat).
Proof.
  intros P e t f cb lct w tr. subst tr. unfold events.
  rewrite fetch_emails_run. cbn [snd].
  destruct (retry_loop_sessions P e t (callback_or_none cb)
              (normalize_check_time P lct) [0; 1; 2] (w, frame_of false []))
    as [H1 H2].
  unfold events in H1, H2.
  change (EvLog INFO (LogFetchStart e) :: ?l)
    with ([EvLog (P := P) INFO (LogFetchStart e)] ++ l).
  rewrite !count_app. unfold count at 1 3 5 7.
  cbn [filter is_opened is_logout length].
  split; [exact H1 | exact (H2 eq_refl)].
Qed.

Section Flat.
Context (P : Platform).

Lemma walk_leaves : forall parts,
  flat_map walk (leaf_parts parts) = leaf_parts parts.
Proof.
  induction parts as [|m parts IH]; [reflexivity|].
  unfold leaf_parts in *. cbn [filter].
  destruct m as [h raw d|h ps]; cbn [is_multipart negb flat_map walk app];
    [rewrite IH; reflexivity | exact IH].
Qed.

Lemma texts_of_type_leaves : forall ct parts,
  texts_of_type P ct (leaf_parts parts) = texts_of_type P ct parts.
Proof.
  intros ct. induction parts as [|m parts IH]; [reflexivity|].
  unfold leaf_parts in *. cbn [filter].
  destruct m as [h raw d|h ps]; cbn [is_multipart negb].
  - rewrite (texts_of_type_cons P ct (Leaf h raw d) parts),
      (texts_of_type_cons P ct (Leaf h raw d) (filter _ parts)), IH.
    reflexivity.
  - rewrite (texts_of_type_cons P ct (Multipart h ps) parts), IH.
    unfold texts_of_type, part_text. cbn [flat_map msg_headers
      get_payload_decoded].
    destruct (pystr_eqb (h_content_type h) ct); [|reflexivity].
    destruct (contains attachment _); reflexivity.
Qed.

Lemma filenames_leaves : forall parts,
  (forall m, In m parts -> is_multipart m = true ->
             h_filename (msg_headers m) = None) ->
  filenames (leaf_parts parts) = filenames parts.
Proof.
  induction parts as [|m parts IH]; intros H; [reflexivity|].
  unfold leaf_parts in *. cbn [filter].
  assert (Hrest : forall m0, In m0 parts -> is_multipart m0 = true ->
                             h_filename (msg_headers m0) = None)
    by (intros m0 Hin; apply H; right; exact Hin).
  destruct m as [h raw d|h ps]; cbn [is_multipart negb].
  - rewrite (filenames_cons (Leaf h raw d) parts),
      (filenames_cons (Leaf h raw d) (filter _ parts)), (IH Hrest).
    reflexivity.
  - rewrite (filenames_cons (Multipart h ps) parts), (IH Hrest).
    unfold filenames at 2. cbn [flat_map].
    rewrite (H (Multipart h ps) (or_introl eq_refl) eq_refl).
    reflexivity.
Qed.

Lemma extract_by_fields : forall m1 m2,
  text_content (scan P m1) = text_content (scan P m2) ->
  html_content (scan P m1) = html_content (scan P m2) ->
  attachments (scan P m1) = attachments (scan P m2) ->
  _extract_rich_content P m1 = _extract_rich_content P m2.
Proof.
  intros m1 m2 H1 H2 H3. unfold _extract_rich_content.
  rewrite H1, H2, H3. reflexivity.
Qed.
End Flat.

(** X18: [_extract_rich_content] reads a multipart message through
    its leaves only: when no container inside it carries a file name,
    the content is the one of the message whose parts are these leaves,
    in the order of the walk. *)
Theorem nesting_of_parts_does_not_matter :
  forall (P : Platform) (h : headers) (parts : list message),
    (forall m,
       In m (flat_map walk parts) -> is_multipart m = true ->
       h_filename (msg_headers m) = None) ->
    _extract_rich_content P (Multipart h parts)
    = _extract_rich_content P
        (Multipart h (leaf_parts (flat_map walk parts))).
Proof.
  intros P h parts H.
  set (m1 := Multipart h parts).
  set (m2 := Multipart h (leaf_parts (flat_map walk parts))).
  destruct (scan_multipart P m1 eq_refl) as (T1 & H1 & A1).
  destruct (scan_multipart P m2 eq_refl) as (T2 & H2 & A2).
  assert (W1 : walk m1 = m1 :: flat_map walk parts) by reflexivity.
  assert (W2 : walk m2 = m2 :: leaf_parts (flat_map walk parts)).
  { subst m2. cbn [walk]. rewrite walk_leaves. reflexivity. }
  assert (R : forall ct,
            texts_of_type P ct [m1] = texts_of_type P ct [m2]).
  { intros ct. unfold texts_of_type, part_text. reflexivity. }
  apply extract_by_fields.
  - rewrite T1, T2. unfold plain_body. rewrite W1, W2.
    rewrite (texts_of_type_cons P _ m1), (texts_of_type_cons P _ m2),
      texts_of_type_leaves, R.
    reflexivity.
  - rewrite H1, H2. unfold html_body. rewrite W1, W2.
    rewrite (texts_of_type_cons P _ m1), (texts_of_type_cons P _ m2),
      texts_of_type_leaves, R.
    reflexivity.
  - rewrite A1, A2. unfold attachment_names. rewrite W1, W2.
    rewrite (filenames_cons m1), (filenames_cons m2),
      (filenames_leaves _ H).
    reflexivity.
Qed.

(** The two bodies inside a container of their own give the content of
    [Scripted.html_with_attachment]. *)
Lemma nesting_of_parts_does_not_matter_witness :
  _extract_rich_content Scripted.quiet Cases.nested_message
  = _extract_rich_content Scripted.quiet Scripted.html_with_attachment
  /\ _extract_rich_content Scripted.quiet Cases.nested_message
     = u "<p>hello</p><br><hr><b>[系统提示] 包含附件:</b> report.pdf".
Proof.
  split; [|vm_compute; reflexivity].
  apply (nesting_of_parts_does_not_matter Scripted.quiet).
  intros m Hin Hm. cbn in Hin.
  repeat (destruct Hin as [<-|Hin]; [first [reflexivity | discriminate]|]).
  destruct Hin.
Defined.
